(** * dev-viewer: the JSON repair engine and the path/traversal model

    A shallow embedding of the JSON subsystem of the viewer
    (json-parser.js, json-repair.js, the code helper, and the paths, table
    rows, columns and graph of json-visualizer.js), followed by the
    properties that were checked against it: those of the specification,
    then further properties of the code.

    JavaScript strings are sequences of UTF-16 code units, numbers are
    IEEE-754 doubles, objects keep their own properties in enumeration
    order.  The host's strict parser [JSON.parse] and the number printer
    are an interface ([Host]), its case mapping another ([Casing]);
    everything else is translated from the source. *)

From Stdlib Require Import String Ascii ZArith SpecFloat Lia DecimalNat.
From stdpp Require Import base tactics option list numbers relations gmap.

Set Default Proof Using "Type".
Local Open Scope nat_scope.
Local Open Scope list_scope.

(* ===================================================================== *)
(** * Part I: the embedding                                               *)
(* ===================================================================== *)

(** ** JavaScript values *)
Module JS.

(** A string is a list of UTF-16 code units. *)
Abbreviation char16 := N (only parsing).
Abbreviation jsstring := (list N) (only parsing).

(** ASCII literals of the source, as code units. *)
Fixpoint lit (s : string) : jsstring :=
  match s with
  | EmptyString => []
  | String a s' => N_of_ascii a :: lit s'
  end.

Definition dquote : char16 := 34%N.      (* the double quote *)
Definition squote : char16 := 39%N.      (* the single quote *)
Definition backslash : char16 := 92%N.
Definition newline : char16 := 10%N.

Definition str_eqb (a b : jsstring) : bool := bool_decide (a = b).

(** [str[i]]: [None] stands for [undefined]. *)
Definition char_at (s : jsstring) (i : nat) : option char16 := s !! i.

(** [s.substring(a)] and [s.substring(0, b)] for non-negative integers:
    both ends are clamped to the length, as [drop] and [take] are. *)
Definition substring_from (s : jsstring) (a : nat) : jsstring := drop a s.
Definition substring_to (s : jsstring) (b : nat) : jsstring := take b s.

(** [pat] is a prefix of [s]. *)
Fixpoint starts_with (pat s : jsstring) : bool :=
  match pat, s with
  | [], _ => true
  | _ :: _, [] => false
  | p :: pat', c :: s' => (p =? c)%N && starts_with pat' s'
  end.

(** [s.includes(pat)]. *)
Fixpoint includes (s pat : jsstring) : bool :=
  starts_with pat s ||
  match s with
  | [] => false
  | _ :: s' => includes s' pat
  end.

(** The decimal numeral of a non-negative integer, as [String(n)] and
    template literals print array indices, counts and offsets.  (The
    host prints integers from 10^21 on in exponent form; no index,
    count or offset of a text gets there.) *)
Definition digit_unit (d : nat) : char16 := (48 + N.of_nat d)%N.

Fixpoint uint_units (d : Decimal.uint) : jsstring :=
  match d with
  | Decimal.Nil => []
  | Decimal.D0 d => digit_unit 0 :: uint_units d
  | Decimal.D1 d => digit_unit 1 :: uint_units d
  | Decimal.D2 d => digit_unit 2 :: uint_units d
  | Decimal.D3 d => digit_unit 3 :: uint_units d
  | Decimal.D4 d => digit_unit 4 :: uint_units d
  | Decimal.D5 d => digit_unit 5 :: uint_units d
  | Decimal.D6 d => digit_unit 6 :: uint_units d
  | Decimal.D7 d => digit_unit 7 :: uint_units d
  | Decimal.D8 d => digit_unit 8 :: uint_units d
  | Decimal.D9 d => digit_unit 9 :: uint_units d
  end.

Definition decimal (n : nat) : jsstring := uint_units (Nat.to_uint n).

Definition is_digit (c : char16) : bool := (48 <=? c)%N && (c <=? 57)%N.

(** [parseInt] on a run of decimal digits. *)
Definition digit_value (c : char16) : nat := N.to_nat (c - 48)%N.
Definition parse_digits (ds : jsstring) : nat :=
  fold_left (fun n c => 10 * n + digit_value c) ds 0.

(** The regular-expression class [\s] (and what [trim] strips): the
    WhiteSpace and LineTerminator code points of ECMAScript. *)
Definition is_space (c : char16) : bool :=
  ((9 <=? c) && (c <=? 13) || (c =? 32) || (c =? 160) || (c =? 5760)
   || (8192 <=? c) && (c <=? 8202) || (c =? 8232) || (c =? 8233)
   || (c =? 8239) || (c =? 8287) || (c =? 12288) || (c =? 65279))%N.

Fixpoint trim_start (s : jsstring) : jsstring :=
  match s with
  | c :: s' => if is_space c then trim_start s' else s
  | [] => []
  end.
Definition trim_end (s : jsstring) : jsstring := reverse (trim_start (reverse s)).
Definition trim (s : jsstring) : jsstring := trim_end (trim_start s).

(** [s.split(sep)] for a separator of one code unit. *)
Fixpoint split_char (sep : char16) (s : jsstring) : list jsstring :=
  match s with
  | [] => [[]]
  | c :: s' =>
      if (c =? sep)%N then [] :: split_char sep s'
      else match split_char sep s' with
           | first :: rest => (c :: first) :: rest
           | [] => [[c]]
           end
  end.

(** [parts.join(sep)] on strings. *)
Fixpoint join (sep : jsstring) (parts : list jsstring) : jsstring :=
  match parts with
  | [] => []
  | [p] => p
  | p :: rest => p ++ sep ++ join sep rest
  end.

(** Numbers are doubles. *)
Definition number := spec_float.

(** The double of a small non-negative integer (a length). *)
Definition number_of_nat (n : nat) : number :=
  binary_normalize 53 1024 (Z.of_nat n) 0 false.

(** [ToBoolean] on a number: only the zeros and NaN are falsy. *)
Definition number_truthy (n : number) : bool :=
  match n with
  | S754_zero _ | S754_nan => false
  | _ => true
  end.

(** What [JSON.parse] produces.  An object lists its own properties in
    the order [Object.keys] enumerates them. *)
Unset Elimination Schemes.
Inductive JsonValue :=
| JNull
| JBool (b : bool)
| JNum (n : number)
| JStr (s : jsstring)
| JArr (items : list JsonValue)
| JObj (props : list (jsstring * JsonValue)).
Set Elimination Schemes.

(** A path segment: an object key or an array index. *)
Inductive PathSegment :=
| Key (k : jsstring)
| Idx (i : nat).

Abbreviation Path := (list PathSegment) (only parsing).

(** [String(segment)]. *)
Definition segment_string (seg : PathSegment) : jsstring :=
  match seg with
  | Key k => k
  | Idx i => decimal i
  end.

(** A thrown exception, or a returned value. *)
Inductive JsError := TypeError.
Inductive Completion (A : Type) :=
| Return (a : A)
| Throw (e : JsError).
Arguments Return {A} a.
Arguments Throw {A} e.

(** [ToBoolean] on a parsed value. *)
Definition truthy (v : JsonValue) : bool :=
  match v with
  | JNull => false
  | JBool b => b
  | JNum n => number_truthy n
  | JStr s => negb (str_eqb s [])
  | JArr _ | JObj _ => true
  end.

(** Own property of an object, by key. *)
Fixpoint own_property (props : list (jsstring * JsonValue)) (k : jsstring)
  : option JsonValue :=
  match props with
  | [] => None
  | (k', v) :: rest => if str_eqb k' k then Some v else own_property rest k
  end.

(** A property key that is an array index: a canonical decimal numeral. *)
Definition index_of_key (k : jsstring) : option nat :=
  if forallb is_digit k && str_eqb (decimal (parse_digits k)) k
  then Some (parse_digits k) else None.

(** [current[key]], where [None] is [undefined].  Reading a property of
    [null] or [undefined] throws.  Own properties are modelled: the
    elements and length of an array, the code units and length of a
    string, the properties of an object.  Members inherited from the
    host's prototypes are not JSON values and are left out, so a key
    such as [toString] reads as [undefined] here.  The definition
    agrees with the source on every read that finds an own property,
    on every read of [null] or [undefined], and on every miss of a key
    that the prototypes do not hold either. *)
Definition get (current : option JsonValue) (key : PathSegment)
  : Completion (option JsonValue) :=
  match current with
  | None | Some JNull => Throw TypeError
  | Some (JArr items) =>
      match key with
      | Idx i => Return (items !! i)
      | Key k =>
          if str_eqb k (lit "length") then
            Return (Some (JNum (number_of_nat (length items))))
          else match index_of_key k with
               | Some i => Return (items !! i)
               | None => Return None
               end
      end
  | Some (JObj props) => Return (own_property props (segment_string key))
  | Some (JStr s) =>
      let unit_at i := option_map (fun c => JStr [c]) (s !! i) in
      match key with
      | Idx i => Return (unit_at i)
      | Key k =>
          if str_eqb k (lit "length") then
            Return (Some (JNum (number_of_nat (length s))))
          else match index_of_key k with
               | Some i => Return (unit_at i)
               | None => Return None
               end
      end
  | Some (JBool _) | Some (JNum _) => Return None
  end.

(** The host environment: the strict JSON parser, which returns the
    parsed value or throws an error with a message (a SyntaxError for a
    text outside the grammar), and the decimal printer of numbers used by
    template literals. *)
Inductive ParseAttempt :=
| Parsed (data : JsonValue)
| Thrown (message : jsstring).

Class Host := {
  JSON_parse : jsstring -> ParseAttempt;
  Number_toString : number -> jsstring
}.

(** [String.prototype.toLowerCase], by the case tables of the host. *)
Class Casing := {
  toLowerCase : jsstring -> jsstring
}.

(** [String(value)] on a parsed value: an array prints its elements
    separated by commas, [null] among them as the empty string; an object
    prints its class. *)
Fixpoint String_of `{Host} (v : JsonValue) : jsstring :=
  match v with
  | JNull => lit "null"
  | JBool b => if b then lit "true" else lit "false"
  | JNum n => Number_toString n
  | JStr s => s
  | JArr items =>
      join (lit ",")
        (map (fun x => match x with
                       | JNull => []
                       | _ => String_of x
                       end) items)
  | JObj _ => lit "[object Object]"
  end.

(** [Object.keys(value)] on an array or an object: the indices of the
    array as numerals, the own keys of the object. *)
Definition own_keys (v : JsonValue) : list jsstring :=
  match v with
  | JArr items => map decimal (seq 0 (length items))
  | JObj props => map fst props
  | _ => []
  end.

End JS.
Import JS.

(** A [for...of] loop over [array.map((v, i) => [i, v])]: the body sees
    each element with its index and updates the loop state. *)
Definition for_indexed {A S : Type} (body : S -> nat -> A -> S)
  : nat -> list A -> S -> S :=
  fix go (i : nat) (l : list A) (st : S) : S :=
    match l with
    | [] => st
    | x :: l' => go (Datatypes.S i) l' (body st i x)
    end.

(** The regular expression [/position (\d+)/]: the leftmost occurrence of
    the word followed by at least one digit; the capture is the longest
    run of digits there. *)
Fixpoint digit_run (s : jsstring) : jsstring :=
  match s with
  | c :: s' => if is_digit c then c :: digit_run s' else []
  | [] => []
  end.

Definition position_here (s : jsstring) : option jsstring :=
  if starts_with (lit "position ") s then
    match digit_run (drop 9 s) with
    | [] => None
    | ds => Some ds
    end
  else None.

Fixpoint match_position (message : jsstring) : option jsstring :=
  match position_here message with
  | Some ds => Some ds
  | None =>
      match message with
      | [] => None
      | _ :: rest => match_position rest
      end
  end.

(** [s.replace(/[...]/g, m => f(m))] for a class of single code units:
    each unit of the class is replaced by what [f] gives for it, every
    other unit stays. *)
Definition replace_units (f : char16 -> option jsstring) (s : jsstring) : jsstring :=
  flat_map (fun c => match f c with
                     | Some r => r
                     | None => [c]
                     end) s.

(** ** json-parser.js *)
Module JSONParser.

(** [this.maxDepth] of the constructor. *)
Definition maxDepth : nat := 100.

(** The three object literals [parse] returns. *)
Inductive ParseOutcome :=
| Success (data : JsonValue)                 (* { success: true, data, error: null } *)
| Rejected (error : jsstring)                (* { success: false, error } *)
| Failed (error : jsstring) (line : option nat). (* { success: false, error, line } *)

(** The property names each literal carries. *)
Definition property_names (o : ParseOutcome) : list string :=
  match o with
  | Success _ => ["success"; "data"; "error"]%string
  | Rejected _ => ["success"; "error"]%string
  | Failed _ _ => ["success"; "error"; "line"]%string
  end.

(** [getErrorLine(error, jsonString)]; [None] is the [null] it returns
    when the message holds no offset. *)
Definition getErrorLine (message jsonString : jsstring) : option nat :=
  match match_position message with
  | Some ds =>
      let position := parse_digits ds in
      let lines := split_char newline (substring_to jsonString position) in
      Some (length lines)
  | None => None
  end.

(** [parse(jsonString)] on a string argument. *)
Definition parse `{Host} (jsonString : jsstring) : ParseOutcome :=
  if str_eqb jsonString [] then
    Rejected (lit "Invalid input: expected a string")
  else
    let trimmed := trim jsonString in
    if length trimmed =? 0 then
      Rejected (lit "Empty JSON string")
    else
      match JSON_parse trimmed with
      | Parsed data => Success data
      | Thrown message =>
          Failed (lit "Parse error: " ++ message) (getErrorLine message jsonString)
      end.

(** [getType(value)]. *)
Definition getType (value : JsonValue) : jsstring :=
  match value with
  | JNull => lit "null"
  | JArr _ => lit "array"
  | JBool _ => lit "boolean"
  | JNum _ => lit "number"
  | JStr _ => lit "string"
  | JObj _ => lit "object"
  end.

(** The test [/^[a-zA-Z_$][a-zA-Z0-9_$]*$/] on [String(key)]. *)
Definition is_ident_start (c : char16) : bool :=
  ((97 <=? c) && (c <=? 122) || (65 <=? c) && (c <=? 90) || (c =? 95) || (c =? 36))%N.
Definition is_ident_part (c : char16) : bool := is_ident_start c || is_digit c.
Definition is_identifier (k : jsstring) : bool :=
  match k with
  | [] => false
  | c :: rest => is_ident_start c && forallb is_ident_part rest
  end.

Record AccessPath := {
  dot : jsstring;
  bracket : jsstring;
  optional : jsstring;
  description : jsstring
}.

(** The separator of [generateDescription], as the source file has it. *)
Definition arrow : jsstring := [32; 226; 8224; 8217; 32]%N.

Definition generateDescription (pathArray : Path) : jsstring :=
  if length pathArray =? 0 then lit "Root object"
  else
    join arrow
      (map (fun key =>
              match key with
              | Idx i => lit "element at index " ++ decimal i
              | Key k => lit "property " ++ [dquote] ++ k ++ [dquote]
              end) pathArray).

(** One step of the [forEach] of [generateAccessPath] on the three
    notations. *)
Definition append_segment (acc : jsstring * jsstring * jsstring) (key : PathSegment)
  : jsstring * jsstring * jsstring :=
  let '(dotNotation, bracketNotation, optionalChaining) := acc in
  match key with
  | Idx i =>
      (dotNotation ++ lit "[" ++ decimal i ++ lit "]",
       bracketNotation ++ lit "[" ++ decimal i ++ lit "]",
       optionalChaining ++ lit "?.[" ++ decimal i ++ lit "]")
  | Key k =>
      if is_identifier k then
        (dotNotation ++ lit "." ++ k,
         bracketNotation ++ lit "[" ++ [squote] ++ k ++ [squote] ++ lit "]",
         optionalChaining ++ lit "?." ++ k)
      else
        (dotNotation ++ lit "[" ++ [squote] ++ k ++ [squote] ++ lit "]",
         bracketNotation ++ lit "[" ++ [squote] ++ k ++ [squote] ++ lit "]",
         optionalChaining ++ lit "?.[" ++ [squote] ++ k ++ [squote] ++ lit "]")
  end.

Definition generateAccessPath (pathArray : Path) : AccessPath :=
  if length pathArray =? 0 then
    {| dot := lit "data"; bracket := lit "data"; optional := lit "data";
       description := lit "Root object" |}
  else
    let '(d, b, o) :=
      fold_left append_segment pathArray (lit "data", lit "data", lit "data") in
    {| dot := d; bracket := b; optional := o;
       description := generateDescription pathArray |}.

(** [countNodes(obj, depth)].  The loop runs over [Object.keys(obj)] and
    reads [obj[key]]: the own property values, in order. *)
Fixpoint countNodes (obj : JsonValue) (depth : nat) : nat :=
  if maxDepth <? depth then 1
  else
    match obj with
    | JArr items =>
        fold_left (fun count item => count + countNodes item (depth + 1)) items 1
    | JObj props =>
        fold_left (fun count kv => count + countNodes (snd kv) (depth + 1)) props 1
    | _ => 1
    end.

Record Stats := {
  totalNodes : nat;
  stats_maxDepth : nat;    (* the [maxDepth] property of the stats object *)
  arrays : nat;
  objects : nat;
  primitives : nat;
  nulls : nat
}.

Definition count_node (depth : nat) (s : Stats) : Stats :=
  {| totalNodes := totalNodes s + 1;
     stats_maxDepth := Nat.max (stats_maxDepth s) depth;
     arrays := arrays s; objects := objects s;
     primitives := primitives s; nulls := nulls s |}.
Definition count_null (s : Stats) : Stats :=
  {| totalNodes := totalNodes s; stats_maxDepth := stats_maxDepth s;
     arrays := arrays s; objects := objects s;
     primitives := primitives s; nulls := nulls s + 1 |}.
Definition count_array (s : Stats) : Stats :=
  {| totalNodes := totalNodes s; stats_maxDepth := stats_maxDepth s;
     arrays := arrays s + 1; objects := objects s;
     primitives := primitives s; nulls := nulls s |}.
Definition count_object (s : Stats) : Stats :=
  {| totalNodes := totalNodes s; stats_maxDepth := stats_maxDepth s;
     arrays := arrays s; objects := objects s + 1;
     primitives := primitives s; nulls := nulls s |}.
Definition count_primitive (s : Stats) : Stats :=
  {| totalNodes := totalNodes s; stats_maxDepth := stats_maxDepth s;
     arrays := arrays s; objects := objects s;
     primitives := primitives s + 1; nulls := nulls s |}.

(** The closure [traverse] of [getStatistics]; it updates the [stats]
    object, which is threaded here. *)
Fixpoint stats_traverse (obj : JsonValue) (depth : nat) (stats : Stats) : Stats :=
  if maxDepth <? depth then stats
  else
    let stats := count_node depth stats in
    match obj with
    | JNull => count_null stats
    | JArr items =>
        fold_left (fun st item => stats_traverse item (depth + 1) st) items
          (count_array stats)
    | JObj props =>
        fold_left (fun st kv => stats_traverse (snd kv) (depth + 1) st) props
          (count_object stats)
    | _ => count_primitive stats
    end.

Definition getStatistics (data : JsonValue) : Stats :=
  stats_traverse data 0
    {| totalNodes := 0; stats_maxDepth := 0; arrays := 0; objects := 0;
       primitives := 0; nulls := 0 |}.

Record FlatEntry := {
  path : AccessPath;
  value : JsonValue;
  type : jsstring
}.

(** The closure [traverse] of [flatten]; it pushes onto [flattened]. *)
Fixpoint flatten_traverse (limit : nat) (obj : JsonValue) (p : Path) (depth : nat)
  (flattened : list FlatEntry) : list FlatEntry :=
  if limit <? depth then flattened
  else
    match obj with
    | JArr items =>
        for_indexed
          (fun acc i v => flatten_traverse limit v (p ++ [Idx i]) (depth + 1) acc)
          0 items flattened
    | JObj props =>
        fold_left
          (fun acc kv => flatten_traverse limit (snd kv) (p ++ [Key (fst kv)]) (depth + 1) acc)
          props flattened
    | _ =>
        flattened ++ [{| path := generateAccessPath p; value := obj; type := getType obj |}]
    end.

(** [flatten(data, maxDepth = 10)]. *)
Definition flatten_with (data : JsonValue) (limit : nat) : list FlatEntry :=
  flatten_traverse limit data [] 0 [].
Definition flatten (data : JsonValue) : list FlatEntry := flatten_with data 10.

(** The objects [search] pushes: [{ path, value, type }]. *)
Module Hit.
Record t := {
  path : Path;
  value : JsonValue;
  type : jsstring
}.
End Hit.

(** [caseSensitive ? s : s.toLowerCase()]. *)
Definition compare_form `{Casing} (caseSensitive : bool) (s : jsstring) : jsstring :=
  if caseSensitive then s else toLowerCase s.

(** The closure [traverse] of [search]; it pushes onto [results]. *)
Fixpoint search_traverse `{Host} `{Casing} (term : jsstring) (caseSensitive : bool)
  (obj : JsonValue) (p : Path) (results : list Hit.t) : list Hit.t :=
  match obj with
  | JArr items =>
      for_indexed
        (fun results i v =>
           let results :=
             if includes (compare_form caseSensitive (decimal i)) term
             then results ++ [{| Hit.path := p ++ [Idx i]; Hit.value := v;
                                 Hit.type := lit "key" |}]
             else results in
           search_traverse term caseSensitive v (p ++ [Idx i]) results)
        0 items results
  | JObj props =>
      fold_left
        (fun results kv =>
           let results :=
             if includes (compare_form caseSensitive (fst kv)) term
             then results ++ [{| Hit.path := p ++ [Key (fst kv)]; Hit.value := snd kv;
                                 Hit.type := lit "key" |}]
             else results in
           search_traverse term caseSensitive (snd kv) (p ++ [Key (fst kv)]) results)
        props results
  | _ =>
      if includes (compare_form caseSensitive (String_of obj)) term
      then results ++ [{| Hit.path := p; Hit.value := obj; Hit.type := lit "value" |}]
      else results
  end.

(** [search(data, searchTerm, caseSensitive = false)]. *)
Definition search `{Host} `{Casing} (data : JsonValue) (searchTerm : jsstring)
  (caseSensitive : bool) : list Hit.t :=
  let term := compare_form caseSensitive searchTerm in
  search_traverse term caseSensitive data [] [].

End JSONParser.

(** ** json-visualizer.js: node identities and path resolution *)
Module Visualizer.

(** [nodeId] of [TreeVisualizer.buildTree] and of
    [GraphVisualizer.extractNodesLazy]:
    [path.length === 0 ? 'root' : path.join('.')]. *)
Definition nodeId (p : Path) : jsstring :=
  if length p =? 0 then lit "root"
  else join (lit ".") (map segment_string p).

(** The loop of [PrettierVisualizer.getValueAtPath]:
    [for (const key of path) current = current[key]]. *)
Fixpoint lookup_all (current : option JsonValue) (p : Path)
  : Completion (option JsonValue) :=
  match p with
  | [] => Return current
  | key :: rest =>
      match get current key with
      | Return next => lookup_all next rest
      | Throw e => Throw e
      end
  end.

Definition getValueAtPath (obj : JsonValue) (p : Path) : Completion (option JsonValue) :=
  lookup_all (Some obj) p.

(** [getType(value)] of the visualizers, on a parsed value. *)
Definition getType (value : JsonValue) : jsstring :=
  match value with
  | JNull => lit "null"
  | JArr _ => lit "array"
  | JObj _ => lit "object"
  | JBool _ => lit "boolean"
  | JNum _ => lit "number"
  | JStr _ => lit "string"
  end.

(** The test [type === 'object' || type === 'array']. *)
Definition is_container (value : JsonValue) : bool :=
  str_eqb (getType value) (lit "object") || str_eqb (getType value) (lit "array").

End Visualizer.

(** ** json-visualizer.js: the nodes and links of the graph *)
Module GraphVisualizer.
Import Visualizer.

Record Node := {
  id : jsstring;
  label : PathSegment;          (* the last segment, or the string ['root'] *)
  value : JsonValue;
  type : jsstring;
  path : Path;
  isExpandable : bool;
  isExpanded : bool
}.

Record Link := {
  source : jsstring;
  target : jsstring
}.

(** [extractNodesLazy(data, path, nodes, depth)], with the set
    [this.expandedNodes]. *)
Fixpoint extractNodesLazy (expandedNodes : gset jsstring) (data : JsonValue) (p : Path)
  (nodes : list Node) (depth : nat) : list Node :=
  let nodeId := nodeId p in
  let isExpanded := bool_decide (nodeId ∈ expandedNodes) in
  let nodes :=
    nodes ++ [{| id := nodeId;
                 label := match list.last p with
                          | Some key => key
                          | None => Key (lit "root")
                          end;
                 value := data;
                 type := getType data;
                 path := p;
                 isExpandable := is_container data;
                 isExpanded := isExpanded |}] in
  if is_container data && isExpanded && (depth <? 5) then
    match data with
    | JArr items =>
        for_indexed
          (fun nodes i v => extractNodesLazy expandedNodes v (p ++ [Idx i]) nodes (depth + 1))
          0 items nodes
    | JObj props =>
        fold_left
          (fun nodes kv =>
             extractNodesLazy expandedNodes (snd kv) (p ++ [Key (fst kv)]) nodes (depth + 1))
          props nodes
    | _ => nodes
    end
  else nodes.

(** [extractLinksLazy(data, path, links, depth)]. *)
Fixpoint extractLinksLazy (expandedNodes : gset jsstring) (data : JsonValue) (p : Path)
  (links : list Link) (depth : nat) : list Link :=
  let nodeId := nodeId p in
  let isExpanded := bool_decide (nodeId ∈ expandedNodes) in
  if is_container data && isExpanded && (depth <? 5) then
    let parentId := nodeId in
    match data with
    | JArr items =>
        for_indexed
          (fun links i v =>
             let childPath := p ++ [Idx i] in
             let childId := join (lit ".") (map segment_string childPath) in
             let links := links ++ [{| source := parentId; target := childId |}] in
             extractLinksLazy expandedNodes v childPath links (depth + 1))
          0 items links
    | JObj props =>
        fold_left
          (fun links kv =>
             let childPath := p ++ [Key (fst kv)] in
             let childId := join (lit ".") (map segment_string childPath) in
             let links := links ++ [{| source := parentId; target := childId |}] in
             extractLinksLazy expandedNodes (snd kv) childPath links (depth + 1))
          props links
    | _ => links
    end
  else links.

End GraphVisualizer.

(** ** json-visualizer.js: the rows and columns of the table *)
Module TableVisualizer.
Import Visualizer.

Record Row := {
  path : Path;
  key : jsstring;
  value : JsonValue;
  type : jsstring
}.

(** [extractRows(obj, path, rows)]; the calls share the array [rows]. *)
Fixpoint extractRows (obj : JsonValue) (p : Path) (rows : list Row) : list Row :=
  match obj with
  | JObj props =>
      fold_left
        (fun rows kv =>
           let newPath := p ++ [Key (fst kv)] in
           let rows := rows ++ [{| path := newPath; key := fst kv; value := snd kv;
                                   type := getType (snd kv) |}] in
           match snd kv with
           | JArr _ | JObj _ => extractRows (snd kv) newPath rows
           | _ => rows
           end)
        props rows
  | JArr items =>
      for_indexed
        (fun rows index v =>
           let newPath := p ++ [Idx index] in
           let rows := rows ++ [{| path := newPath; key := decimal index; value := v;
                                   type := getType v |}] in
           match v with
           | JArr _ | JObj _ => extractRows v newPath rows
           | _ => rows
           end)
        0 items rows
  | _ => rows
  end.

(** [columnsSet.add(key)] on a set that keeps the order of insertion. *)
Definition add_column (columns : list jsstring) (key : jsstring) : list jsstring :=
  if bool_decide (key ∈ columns) then columns else columns ++ [key].

(** [extractColumns(data)]. *)
Definition extractColumns (data : JsonValue) : list jsstring :=
  let items := match data with
               | JArr items => items
               | _ => [data]
               end in
  fold_left
    (fun columnsSet item =>
       match item with
       | JArr _ | JObj _ => fold_left add_column (own_keys item) columnsSet
       | _ => columnsSet
       end)
    items [].

(** [escapeCSV(value)] on a string, or on [null] or [undefined] ([None]). *)
Definition escapeCSV (value : option jsstring) : jsstring :=
  match value with
  | None => []
  | Some stringValue =>
      if includes stringValue (lit ",") || includes stringValue [dquote]
         || includes stringValue [newline]
      then [dquote]
             ++ replace_units (fun c => if (c =? dquote)%N then Some [dquote; dquote] else None)
                  stringValue
             ++ [dquote]
      else stringValue
  end.

End TableVisualizer.

(** ** json-repair.js *)
Module JSONRepair.

(** A regular expression is given by what it matches at the head of the
    remaining text: the length of the match (never zero for the patterns
    of this file) and the text that replaces it. *)
Definition matcher := jsstring -> option (nat * jsstring).

(** [text.match(/re/g)]: the number of matches, scanning left to right
    and resuming after each match; [skip] counts the code units of the
    current match still to pass. *)
Fixpoint count_matches (m : matcher) (skip : nat) (s : jsstring) : nat :=
  match s with
  | [] => 0
  | _ :: s' =>
      match skip with
      | S k => count_matches m k s'
      | 0 =>
          match m s with
          | Some (len, _) => 1 + count_matches m (len - 1) s'
          | None => count_matches m 0 s'
          end
      end
  end.

(** [text.replace(/re/g, replacement)]. *)
Fixpoint replace_all (m : matcher) (skip : nat) (s : jsstring) : jsstring :=
  match s with
  | [] => []
  | c :: s' =>
      match skip with
      | S k => replace_all m k s'
      | 0 =>
          match m s with
          | Some (len, rep) => rep ++ replace_all m (len - 1) s'
          | None => c :: replace_all m 0 s'
          end
      end
  end.

(** A pattern without operators, replaced by a fixed text. *)
Definition literal (pat rep : jsstring) : matcher :=
  fun s => if starts_with pat s then Some (length pat, rep) else None.

Definition object_marker : jsstring := lit "[Object]".
Definition array_object_marker : jsstring := lit "[[Object]]".
Definition quoted_object_marker : jsstring := [dquote] ++ lit "Object" ++ [dquote].

Fixpoint space_run (s : jsstring) : jsstring :=
  match s with
  | c :: s' => if is_space c then c :: space_run s' else []
  | [] => []
  end.

Definition is_closer (c : char16) : bool := ((c =? 93) || (c =? 125))%N.

(** [/,(\s*[\]}])/g] with replacement ['$1']: the comma goes, the
    captured blanks and bracket stay. *)
Definition trailing_comma : matcher :=
  fun s =>
    match s with
    | c :: s' =>
        if (c =? 44)%N then
          let ws := space_run s' in
          match drop (length ws) s' with
          | b :: _ => if is_closer b then Some (1 + length ws + 1, ws ++ [b]) else None
          | [] => None
          end
        else None
    | [] => None
    end.

(** One block of [fixCommonPatterns]: match, and when the match is not
    [null], replace and log. *)
Definition rewrite (m : matcher) (describe : nat -> jsstring)
  (st : jsstring * list jsstring) : jsstring * list jsstring :=
  let '(result, repairs) := st in
  match count_matches m 0 result with
  | 0 => (result, repairs)
  | n => (replace_all m 0 result, repairs ++ [describe n])
  end.

(** [fixCommonPatterns(str)], with [this.repairs] threaded. *)
Definition fixCommonPatterns (str : jsstring) (repairs : list jsstring)
  : jsstring * list jsstring :=
  let st := (str, repairs) in
  let st := rewrite (literal object_marker (lit "{}"))
              (fun n => lit "Replaced " ++ decimal n
                          ++ lit " instance(s) of [Object] with {}") st in
  let st := rewrite (literal array_object_marker (lit "[{}]"))
              (fun n => lit "Replaced " ++ decimal n
                          ++ lit " instance(s) of [[Object]] with [{}]") st in
  let st := rewrite (literal quoted_object_marker (lit "{}"))
              (fun n => lit "Replaced " ++ decimal n ++ lit " instance(s) of "
                          ++ quoted_object_marker ++ lit " with {}") st in
  rewrite trailing_comma
    (fun n => lit "Removed " ++ decimal n ++ lit " trailing comma(s)") st.

Record ErrorInfo := {
  position : nat;
  expected : option jsstring;
  message : jsstring
}.

(** [/Expected '(.+?)'/]: the capture is the shortest non-empty run
    without a line terminator that a single quote follows. *)
Definition is_line_terminator (c : char16) : bool :=
  ((c =? 10) || (c =? 13) || (c =? 8232) || (c =? 8233))%N.

Fixpoint until_quote (s : jsstring) : option jsstring :=
  match s with
  | [] => None
  | c :: s' =>
      if (c =? squote)%N then Some []
      else if is_line_terminator c then None
      else option_map (cons c) (until_quote s')
  end.

Definition expected_here (s : jsstring) : option jsstring :=
  if starts_with (lit "Expected '") s then
    match drop 10 s with
    | c :: rest =>
        if is_line_terminator c then None
        else option_map (cons c) (until_quote rest)
    | [] => None
    end
  else None.

Fixpoint match_expected (msg : jsstring) : option jsstring :=
  match expected_here msg with
  | Some e => Some e
  | None =>
      match msg with
      | [] => None
      | _ :: rest => match_expected rest
      end
  end.

(** [parseError(errorMessage)]; [None] is the [null] it returns. *)
Definition parseError (errorMessage : jsstring) : option ErrorInfo :=
  match match_position errorMessage with
  | Some ds =>
      Some {| position := parse_digits ds;
              expected := match_expected errorMessage;
              message := errorMessage |}
  | None => None
  end.

Record Context := {
  inString : bool;
  inObject : bool;
  inArray : bool;
  depth : Z
}.

(** The local variables of the loop of [getContext]. *)
Record Scan := {
  scan_inString : bool;
  scan_inObject : Z;
  scan_inArray : Z;
  scan_escaped : bool
}.

Definition is_char (c : option char16) (x : char16) : bool :=
  match c with
  | Some y => (y =? x)%N
  | None => false
  end.

(** The body of the loop, at index [i]. *)
Definition scan_step (str : jsstring) (st : Scan) (i : nat) : Scan :=
  let char := char_at str i in
  if scan_escaped st then
    {| scan_inString := scan_inString st; scan_inObject := scan_inObject st;
       scan_inArray := scan_inArray st; scan_escaped := false |}
  else if is_char char backslash then
    {| scan_inString := scan_inString st; scan_inObject := scan_inObject st;
       scan_inArray := scan_inArray st; scan_escaped := true |}
  else if is_char char dquote then
    {| scan_inString := negb (scan_inString st); scan_inObject := scan_inObject st;
       scan_inArray := scan_inArray st; scan_escaped := false |}
  else if negb (scan_inString st) then
    if is_char char 123%N then
      {| scan_inString := scan_inString st; scan_inObject := scan_inObject st + 1;
         scan_inArray := scan_inArray st; scan_escaped := false |}
    else if is_char char 125%N then
      {| scan_inString := scan_inString st; scan_inObject := scan_inObject st - 1;
         scan_inArray := scan_inArray st; scan_escaped := false |}
    else if is_char char 91%N then
      {| scan_inString := scan_inString st; scan_inObject := scan_inObject st;
         scan_inArray := scan_inArray st + 1; scan_escaped := false |}
    else if is_char char 93%N then
      {| scan_inString := scan_inString st; scan_inObject := scan_inObject st;
         scan_inArray := scan_inArray st - 1; scan_escaped := false |}
    else st
  else st.

(** [getContext(str, pos)]. *)
Definition getContext (str : jsstring) (pos : nat) : Context :=
  let st := fold_left (scan_step str) (seq 0 pos)
              {| scan_inString := false; scan_inObject := 0; scan_inArray := 0;
                 scan_escaped := false |} in
  {| inString := scan_inString st;
     inObject := (0 <? scan_inObject st)%Z;
     inArray := (0 <? scan_inArray st)%Z;
     depth := (scan_inObject st + scan_inArray st)%Z |}.

(** What [attemptFix] returns: [{ fixed: true, result, message }] or
    [{ fixed: false }]. *)
Inductive Fix :=
| Fixed (result message : jsstring)
| NotFixed.

(** A code unit in a template literal; [undefined] prints its name. *)
Definition show_char (c : option char16) : jsstring :=
  match c with
  | Some x => [x]
  | None => lit "undefined"
  end.

(** [attemptFix(str, errorInfo)]. *)
Definition attemptFix (str : jsstring) (errorInfo : ErrorInfo) : Fix :=
  let pos := position errorInfo in
  let char := char_at str pos in
  let context := getContext str pos in
  (* Strategy 1: missing colon after property name *)
  if includes (message errorInfo) (lit "Expected ':'")
     || includes (message errorInfo) (lit "after property name") then
    let before := substring_to str pos in
    let after := substring_from str pos in
    Fixed (before ++ lit ":" ++ after)
          (lit "Added missing ':' at position " ++ decimal pos)
  (* Strategy 2: missing comma between properties *)
  else if includes (message errorInfo) (lit "Expected ','")
          || includes (message errorInfo) (lit "after property value") then
    let before := substring_to str pos in
    let after := substring_from str pos in
    Fixed (before ++ lit "," ++ after)
          (lit "Added missing ',' at position " ++ decimal pos)
  (* Strategy 3: unexpected token that repeats the previous character *)
  else if includes (message errorInfo) (lit "Unexpected token")
          && ((0 <? pos) && bool_decide (char_at str (pos - 1) = char)) then
    Fixed (substring_to str pos ++ substring_from str (pos + 1))
          (lit "Removed duplicate '" ++ show_char char ++ lit "' at position "
             ++ decimal pos)
  (* Strategy 4: unescaped quote in a string *)
  else if is_char char dquote && inString context then
    let before := substring_to str pos in
    let after := substring_from str (pos + 1) in
    Fixed (before ++ [backslash; dquote] ++ after)
          (lit "Escaped quote at position " ++ decimal pos)
  else NotFixed.

Definition maxIterations : nat := 10.

(** The variables of the loop of [fixStructuralErrors], with
    [this.repairs]. *)
Record Loop := {
  result : jsstring;
  repairs : list jsstring;
  iteration : nat
}.

(** The [while (iteration < maxIterations)] loop; [remaining] is
    [maxIterations - iteration]. *)
Fixpoint structural_loop `{Host} (remaining : nat) (st : Loop) : Loop :=
  match remaining with
  | 0 => st
  | S remaining' =>
      match JSON_parse (result st) with
      | Parsed _ => st                                   (* break *)
      | Thrown msg =>
          match parseError msg with
          | None => st                                   (* break *)
          | Some errorInfo =>
              match attemptFix (result st) errorInfo with
              | NotFixed => st                           (* break *)
              | Fixed r m =>
                  structural_loop remaining'
                    {| result := r; repairs := repairs st ++ [m];
                       iteration := iteration st + 1 |}
              end
          end
      end
  end.

(** [fixStructuralErrors(str)], with [this.repairs] threaded. *)
Definition fixStructuralErrors_state `{Host} (str : jsstring) (log : list jsstring) : Loop :=
  structural_loop maxIterations {| result := str; repairs := log; iteration := 0 |}.

Definition fixStructuralErrors `{Host} (str : jsstring) (log : list jsstring)
  : jsstring * list jsstring :=
  let st := fixStructuralErrors_state str log in
  (result st, repairs st).

(** What [repair] returns: [{ repaired, repairs }]. *)
Record RepairOutcome := {
  repaired : jsstring;
  outcome_repairs : list jsstring    (* the [repairs] property *)
}.

(** [repair(jsonString)]. *)
Definition repair `{Host} (jsonString : jsstring) : RepairOutcome :=
  let '(repaired1, log1) := fixCommonPatterns jsonString [] in
  let '(repaired2, log2) := fixStructuralErrors repaired1 log1 in
  {| repaired := repaired2; outcome_repairs := log2 |}.


End JSONRepair.

(** ** The code helper *)
Module CodeHelper.
Import JSONParser.

(** The fields the constructor and [update] set.  [None] is [null] (or
    [undefined]) for the value, the key and the document. *)
Record State := {
  currentPath : Path;
  currentValue : option JsonValue;
  currentKey : option PathSegment;
  jsonData : option JsonValue
}.

(** [update(path, value, key, jsonData = null)]. *)
Definition update (st : State) (p : Path) (v : option JsonValue)
  (k : option PathSegment) (data : option JsonValue) : State :=
  {| currentPath := p; currentValue := v; currentKey := k;
     jsonData := match data with
                 | Some d => Some d
                 | None => jsonData st
                 end |}.

Record ArrayContext := {
  isInArray : bool;
  arrayPath : Path;
  propertyPath : Path;
  arrayData : list JsonValue;
  itemExample : JsonValue
}.

(** The loop of [detectArrayContext], at index [i] with the segments
    from [i] on in [rest]. *)
Fixpoint detect_loop (whole : Path) (current : option JsonValue) (i : nat) (rest : Path)
  : Completion (option ArrayContext) :=
  match rest with
  | [] => Return None
  | segment :: rest' =>
      match current with
      | None | Some JNull => Return None               (* break *)
      | Some (JArr items) =>
          Return (Some {| isInArray := true;
                          arrayPath := take i whole;
                          propertyPath := drop (i + 1) whole;
                          arrayData := items;
                          itemExample := match items with
                                         | first :: _ => first
                                         | [] => JNull
                                         end |})
      | Some _ =>
          match get current segment with
          | Return next => detect_loop whole next (i + 1) rest'
          | Throw e => Throw e
          end
      end
  end.

(** [detectArrayContext(jsonData)]. *)
Definition detectArrayContext (st : State) (data : JsonValue)
  : Completion (option ArrayContext) :=
  if length (currentPath st) =? 0 then Return None
  else detect_loop (currentPath st) (Some data) 0 (currentPath st).

Record Example := {
  title : jsstring;
  code : jsstring;
  description : jsstring
}.

(** A segment, or [undefined], in a template literal. *)
Definition show_segment (s : option PathSegment) : jsstring :=
  match s with
  | Some seg => segment_string seg
  | None => lit "undefined"
  end.

(** [ToBoolean] on a key. *)
Definition key_truthy (k : PathSegment) : bool :=
  match k with
  | Key s => negb (str_eqb s [])
  | Idx i => negb (i =? 0)
  end.

Definition decimal_Z (z : Z) : jsstring :=
  if (z <? 0)%Z then lit "-" ++ decimal (Z.to_nat (- z)) else decimal (Z.to_nat z).

(** [generateRootCode()]. *)
Definition generateRootCode : list Example :=
  [ {| title := [55357; 56516]%N ++ lit " Root Object";
       code := lit "const data = /* your JSON data */;";
       description := lit "Click on any key to see access examples" |} ].

(** [generateArrayExamples(pathInfo)]. *)
Definition generateArrayExamples (st : State) (pathInfo : AccessPath) : list Example :=
  let arrayLength := match currentValue st with
                     | Some (JArr items) => length items
                     | _ => 0
                     end in
  [ {| title := [55357; 56580]%N ++ lit " Map Over Array";
       code := lit "const mapped = " ++ dot pathInfo ++ lit ".map(item => {" ++ [newline]
                 ++ lit "  // Process each item" ++ [newline]
                 ++ lit "  return item;" ++ [newline] ++ lit "});";
       description := lit "Transform all " ++ decimal arrayLength ++ lit " items" |};
    {| title := [55357; 56589]%N ++ lit " Filter Array";
       code := lit "const filtered = " ++ dot pathInfo ++ lit ".filter(item => {" ++ [newline]
                 ++ lit "  // Return true to keep item" ++ [newline]
                 ++ lit "  return condition;" ++ [newline] ++ lit "});";
       description := lit "Filter items based on condition" |};
    {| title := [55357; 56522]%N ++ lit " Reduce Array";
       code := lit "const result = " ++ dot pathInfo ++ lit ".reduce((acc, item) => {" ++ [newline]
                 ++ lit "  // Accumulate values" ++ [newline]
                 ++ lit "  return acc + item;" ++ [newline] ++ lit "}, 0);";
       description := lit "Aggregate array values" |};
    {| title := [55356; 57266]%N ++ lit " Access First/Last";
       code := lit "const first = " ++ dot pathInfo ++ lit "[0];" ++ [newline]
                 ++ lit "const last = " ++ dot pathInfo ++ lit "["
                 ++ decimal_Z (Z.of_nat arrayLength - 1) ++ lit "];";
       description := lit "Get first or last element" |} ].

(** [generateObjectExamples(pathInfo)]. *)
Definition generateObjectExamples (st : State) (pathInfo : AccessPath) : list Example :=
  let keys := match currentValue st with
              | Some (JObj props) => map fst props
              | Some (JArr items) => map decimal (seq 0 (length items))
              | Some (JStr s) => map decimal (seq 0 (length s))
              | _ => []
              end in
  if 0 <? length keys then
    [ {| title := [55357; 56593]%N ++ lit " Get All Keys";
         code := lit "const keys = Object.keys(" ++ dot pathInfo ++ lit ");" ++ [newline]
                   ++ lit "// ["
                   ++ join (lit ", ") (map (fun k => [dquote] ++ k ++ [dquote]) (take 3 keys))
                   ++ (if 3 <? length keys then lit ", ..." else [])
                   ++ lit "]";
         description := lit "Extract all " ++ decimal (length keys) ++ lit " property names" |};
      {| title := [55357; 56523]%N ++ lit " Get All Values";
         code := lit "const values = Object.values(" ++ dot pathInfo ++ lit ");";
         description := lit "Extract all property values" |};
      {| title := [55357; 56580]%N ++ lit " Iterate Entries";
         code := lit "Object.entries(" ++ dot pathInfo ++ lit ").forEach(([key, value]) => {"
                   ++ [newline] ++ lit "  console.log(key, value);" ++ [newline] ++ lit "});";
         description := lit "Loop through key-value pairs" |} ]
  else [].

(** [generateDestructuringExample(pathInfo)]. *)
Definition generateDestructuringExample (st : State) (pathInfo : AccessPath) : Example :=
  let parentPath := take (length (currentPath st) - 1) (currentPath st) in
  let parentPathInfo := generateAccessPath parentPath in
  let key := list.last (currentPath st) in
  {| title := [55357; 56550]%N ++ lit " Destructuring";
     code := lit "const { " ++ show_segment key ++ lit " } = " ++ dot parentPathInfo ++ lit ";";
     description := lit "Extract property directly" |}.

(** The test of the property map on [String(p)], and its two renderings. *)
Definition property_access (p : PathSegment) : jsstring :=
  if is_identifier (segment_string p) then lit "." ++ segment_string p
  else lit "[" ++ [dquote] ++ segment_string p ++ [dquote] ++ lit "]".

(** [propertyAccessPath]: the access to the property within each item. *)
Definition propertyAccessPath (propertyPath : Path) : jsstring :=
  if 0 <? length propertyPath
  then join [] (map property_access propertyPath)
  else [].

(** [propertyName]:
    [this.currentKey || propertyPath[propertyPath.length - 1]]. *)
Definition propertyName (st : State) (propertyPath : Path) : option PathSegment :=
  match currentKey st with
  | Some k => if key_truthy k then Some k else list.last propertyPath
  | None => list.last propertyPath
  end.

(** [this.currentValue || 10] in a template literal, for a number. *)
Definition example_number `{Host} (n : number) : jsstring :=
  if number_truthy n then Number_toString n else lit "10".

(** [generatePropertyInArrayExamples(arrayContext, jsonData)]. *)
Definition generatePropertyInArrayExamples `{Host} (st : State) (arrayContext : ArrayContext)
  : list Example :=
  let arrayPathInfo := generateAccessPath (arrayPath arrayContext) in
  let arrayAccessPath :=
    if str_eqb (dot arrayPathInfo) [] then lit "data" else dot arrayPathInfo in
  let propertyAccessPath := propertyAccessPath (propertyPath arrayContext) in
  let name := show_segment (propertyName st (propertyPath arrayContext)) in
  let itemVar := lit "item" in
  let fullPropertyAccess := itemVar ++ propertyAccessPath in
  let indexExample := 0 in
  let arrow_item := lit "(" ++ itemVar ++ lit " => " in
  (* 1. direct access, 2. map *)
  [ {| title := [55356; 57263]%N ++ lit " Direct Access";
       code := lit "const value = " ++ arrayAccessPath ++ lit "[" ++ decimal indexExample
                 ++ lit "]" ++ propertyAccessPath ++ lit ";";
       description := lit "Access " ++ name ++ lit " from specific item" |};
    {| title := [55357; 56826; 65039]%N ++ lit " Map All Values";
       code := lit "const allValues = " ++ arrayAccessPath ++ lit ".map" ++ arrow_item
                 ++ fullPropertyAccess ++ lit ");";
       description := lit "Get array of all " ++ name ++ lit " values" |} ]
  (* 3. filter, by the type of the value *)
  ++ [ match currentValue st with
       | Some (JNum n) =>
           {| title := [55357; 56589]%N ++ lit " Filter by Property";
              code := lit "const filtered = " ++ arrayAccessPath ++ lit ".filter" ++ arrow_item
                        ++ fullPropertyAccess ++ lit " > " ++ example_number n ++ lit ");";
              description := lit "Filter items where " ++ name ++ lit " > " ++ example_number n |}
       | Some (JStr s) =>
           {| title := [55357; 56589]%N ++ lit " Filter by Property";
              code := lit "const filtered = " ++ arrayAccessPath ++ lit ".filter" ++ arrow_item
                        ++ fullPropertyAccess ++ lit " === "
                        ++ (if negb (str_eqb s []) then [dquote] ++ s ++ [dquote]
                            else [dquote] ++ lit "example" ++ [dquote])
                        ++ lit ");";
              description := lit "Filter items where " ++ name ++ lit " matches" |}
       | Some (JBool _) =>
           {| title := [55357; 56589]%N ++ lit " Filter by Property";
              code := lit "const filtered = " ++ arrayAccessPath ++ lit ".filter" ++ arrow_item
                        ++ fullPropertyAccess ++ lit ");";
              description := lit "Filter items where " ++ name ++ lit " is true" |}
       | _ =>
           {| title := [55357; 56589]%N ++ lit " Filter by Property";
              code := lit "const filtered = " ++ arrayAccessPath ++ lit ".filter" ++ arrow_item
                        ++ fullPropertyAccess ++ lit " !== null);";
              description := lit "Filter items where " ++ name ++ lit " exists" |}
       end ]
  (* 4. forEach *)
  ++ [ {| title := [55357; 56580]%N ++ lit " forEach Iteration";
          code := arrayAccessPath ++ lit ".forEach" ++ arrow_item ++ lit "{" ++ [newline]
                    ++ lit "  console.log(" ++ fullPropertyAccess ++ lit ");" ++ [newline]
                    ++ lit "});";
          description := lit "Loop through and access " ++ name |} ]
  (* 5. find *)
  ++ [ match currentValue st with
       | Some (JNum n) =>
           {| title := [55356; 57266]%N ++ lit " Find First Match";
              code := lit "const found = " ++ arrayAccessPath ++ lit ".find" ++ arrow_item
                        ++ fullPropertyAccess ++ lit " === " ++ example_number n ++ lit ");";
              description := lit "Find first item where " ++ name ++ lit " equals "
                               ++ example_number n |}
       | Some (JStr _) =>
           {| title := [55356; 57266]%N ++ lit " Find First Match";
              code := lit "const found = " ++ arrayAccessPath ++ lit ".find" ++ arrow_item
                        ++ fullPropertyAccess ++ lit ".includes(" ++ [dquote] ++ lit "search"
                        ++ [dquote] ++ lit "));";
              description := lit "Find first item where " ++ name ++ lit " contains text" |}
       | _ =>
           {| title := [55356; 57266]%N ++ lit " Find First Match";
              code := lit "const found = " ++ arrayAccessPath ++ lit ".find" ++ arrow_item
                        ++ fullPropertyAccess ++ lit ");";
              description := lit "Find first item where " ++ name ++ lit " is truthy" |}
       end ]
  (* 6. reduce and min/max, for numbers *)
  ++ match currentValue st with
     | Some (JNum _) =>
         [ {| title := [55357; 56522]%N ++ lit " Sum/Aggregate";
              code := lit "const total = " ++ arrayAccessPath ++ lit ".reduce((sum, " ++ itemVar
                        ++ lit ") => sum + " ++ fullPropertyAccess ++ lit ", 0);";
              description := lit "Calculate total of all " ++ name ++ lit " values" |};
           {| title := [55357; 56520]%N ++ lit " Min/Max Values";
              code := lit "const values = " ++ arrayAccessPath ++ lit ".map" ++ arrow_item
                        ++ fullPropertyAccess ++ lit ");" ++ [newline]
                        ++ lit "const min = Math.min(...values);" ++ [newline]
                        ++ lit "const max = Math.max(...values);";
              description := lit "Find minimum and maximum " ++ name |} ]
     | _ => []
     end
  (* 7. some/every *)
  ++ match currentValue st with
     | Some (JNum n) =>
         [ {| title := [9989]%N ++ lit " Check Conditions";
              code := lit "const hasAny = " ++ arrayAccessPath ++ lit ".some" ++ arrow_item
                        ++ fullPropertyAccess ++ lit " > " ++ example_number n ++ lit ");"
                        ++ [newline]
                        ++ lit "const hasAll = " ++ arrayAccessPath ++ lit ".every" ++ arrow_item
                        ++ fullPropertyAccess ++ lit " > 0);";
              description := lit "Check if some/all items meet condition" |} ]
     | Some (JBool _) =>
         [ {| title := [9989]%N ++ lit " Check Conditions";
              code := lit "const hasAny = " ++ arrayAccessPath ++ lit ".some" ++ arrow_item
                        ++ fullPropertyAccess ++ lit ");" ++ [newline]
                        ++ lit "const hasAll = " ++ arrayAccessPath ++ lit ".every" ++ arrow_item
                        ++ fullPropertyAccess ++ lit ");";
              description := lit "Check if some/all " ++ name ++ lit " are true" |} ]
     | _ => []
     end
  (* 8. sort *)
  ++ match currentValue st with
     | Some (JNum _) =>
         [ {| title := [55357; 56576]%N ++ lit " Sort by Property";
              code := lit "const sorted = [..." ++ arrayAccessPath ++ lit "].sort((a, b) => a"
                        ++ propertyAccessPath ++ lit " - b" ++ propertyAccessPath ++ lit ");";
              description := lit "Sort items by " ++ name ++ lit " (ascending)" |} ]
     | Some (JStr _) =>
         [ {| title := [55357; 56576]%N ++ lit " Sort by Property";
              code := lit "const sorted = [..." ++ arrayAccessPath ++ lit "].sort((a, b) => "
                        ++ [newline] ++ lit "  a" ++ propertyAccessPath ++ lit ".localeCompare(b"
                        ++ propertyAccessPath ++ lit ")" ++ [newline] ++ lit ");";
              description := lit "Sort items by " ++ name ++ lit " alphabetically" |} ]
     | _ => []
     end.

(** [this.parser.getType(this.currentValue)]. *)
Definition value_type (v : option JsonValue) : jsstring :=
  match v with
  | Some x => getType x
  | None => lit "undefined"
  end.

(** The standard access examples of [generateCode]. *)
Definition standard_examples (st : State) : list Example :=
  let pathInfo := generateAccessPath (currentPath st) in
  let valueType := value_type (currentValue st) in
  [ {| title := [55356; 57263]%N ++ lit " Dot Notation";
       code := lit "const value = " ++ dot pathInfo ++ lit ";";
       description := lit "Standard JavaScript property access" |};
    {| title := [55357; 56550]%N ++ lit " Bracket Notation";
       code := lit "const value = " ++ bracket pathInfo ++ lit ";";
       description := lit "Safe for keys with special characters" |};
    {| title := [9989]%N ++ lit " Optional Chaining (ES2020)";
       code := lit "const value = " ++ optional pathInfo ++ lit ";";
       description := lit "Prevents errors if path doesn't exist" |} ]
  ++ (if str_eqb valueType (lit "array") then generateArrayExamples st pathInfo
      else if str_eqb valueType (lit "object") then generateObjectExamples st pathInfo
      else [])
  ++ (if 1 <? length (currentPath st) then [generateDestructuringExample st pathInfo] else [])
  ++ [ {| title := [55357; 57057; 65039]%N ++ lit " With Default Value";
          code := lit "const value = " ++ optional pathInfo ++ lit " ?? 'default';";
          description := lit "Provide fallback if undefined/null" |} ].

(** [generateCode(jsonData = null)]. *)
Definition generateCode `{Host} (st : State) (data : option JsonValue)
  : Completion (list Example) :=
  if length (currentPath st) =? 0 then Return generateRootCode
  else
    let detected :=
      match data with
      | Some d => if truthy d then detectArrayContext st d else Return None
      | None => Return None
      end in
    match detected with
    | Throw e => Throw e
    | Return arrayContext =>
        match arrayContext with
        | Some ctx =>
            if 0 <? length (propertyPath ctx)
            then Return (generatePropertyInArrayExamples st ctx)
            else Return (standard_examples st)
        | None => Return (standard_examples st)
        end
    end.

(** The table [map] of [escapeHtml]. *)
Definition html_entity (c : char16) : option jsstring :=
  if (c =? 38)%N then Some (lit "&amp;")
  else if (c =? 60)%N then Some (lit "&lt;")
  else if (c =? 62)%N then Some (lit "&gt;")
  else if (c =? dquote)%N then Some (lit "&quot;")
  else if (c =? squote)%N then Some (lit "&#039;")
  else None.

(** [escapeHtml(text)] on a string; the pretty printer and the markdown
    parser carry the same method. *)
Definition escapeHtml (text : jsstring) : jsstring := replace_units html_entity text.

End CodeHelper.

(** ** A reference host

    A strict parser of the JSON grammar and a number printer, used to run
    the code on concrete texts.  Failures carry messages in the two styles
    the V8 engine has used: "Unexpected token X in JSON at position N" and
    "Expected ',' or '}' after property value in JSON at position N".
    Numerals are rounded to the nearest double.  Integers print as the host
    prints them; a fraction prints with the exact digits of the double
    (the host prints the shortest numeral that reads back). *)
Module RefHost.

Inductive Err :=
| EndOfInput
| Unexpected (pos : nat) (c : char16)
| ExpectedColon (pos : nat)
| ExpectedCommaBrace (pos : nat)
| ExpectedCommaBracket (pos : nat)
| TooDeep.

Definition error_message (e : Err) : jsstring :=
  match e with
  | EndOfInput => lit "Unexpected end of JSON input"
  | Unexpected pos c =>
      lit "Unexpected token " ++ [c] ++ lit " in JSON at position " ++ decimal pos
  | ExpectedColon pos =>
      lit "Expected ':' after property name in JSON at position " ++ decimal pos
  | ExpectedCommaBrace pos =>
      lit "Expected ',' or '}' after property value in JSON at position " ++ decimal pos
  | ExpectedCommaBracket pos =>
      lit "Expected ',' or ']' after array element in JSON at position " ++ decimal pos
  | TooDeep => lit "Maximum call stack size exceeded"
  end.

(** A parsed item, the text after it and the offset of that text. *)
Definition Res (A : Type) : Type := (A * jsstring * nat) + Err.

Definition is_json_space (c : char16) : bool :=
  ((c =? 32) || (c =? 9) || (c =? 10) || (c =? 13))%N.

Fixpoint skip_space (s : jsstring) (pos : nat) : jsstring * nat :=
  match s with
  | c :: s' => if is_json_space c then skip_space s' (S pos) else (s, pos)
  | [] => ([], pos)
  end.

Definition hex_value (c : char16) : option N :=
  if is_digit c then Some (c - 48)%N
  else if ((97 <=? c) && (c <=? 102))%N then Some (c - 87)%N
  else if ((65 <=? c) && (c <=? 70))%N then Some (c - 55)%N
  else None.

Definition escape_unit (c : char16) : option char16 :=
  if (c =? 34)%N then Some 34%N
  else if (c =? 92)%N then Some 92%N
  else if (c =? 47)%N then Some 47%N
  else if (c =? 98)%N then Some 8%N
  else if (c =? 102)%N then Some 12%N
  else if (c =? 110)%N then Some 10%N
  else if (c =? 114)%N then Some 13%N
  else if (c =? 116)%N then Some 9%N
  else None.

(** The code units of a string literal, after its opening quote. *)
Fixpoint string_body (s : jsstring) (pos : nat) (acc : jsstring) : Res jsstring :=
  match s with
  | [] => inr EndOfInput
  | c :: s' =>
      if (c =? dquote)%N then inl (reverse acc, s', S pos)
      else if (c =? backslash)%N then
        match s' with
        | [] => inr EndOfInput
        | e :: s'' =>
            if (e =? 117)%N then
              match s'' with
              | h1 :: h2 :: h3 :: h4 :: s3 =>
                  match hex_value h1, hex_value h2, hex_value h3, hex_value h4 with
                  | Some a, Some b, Some c', Some d =>
                      string_body s3 (pos + 6) ((a * 4096 + b * 256 + c' * 16 + d)%N :: acc)
                  | _, _, _, _ => inr (Unexpected (pos + 2) h1)
                  end
              | _ => inr EndOfInput
              end
            else
              match escape_unit e with
              | Some x => string_body s'' (pos + 2) (x :: acc)
              | None => inr (Unexpected (S pos) e)
              end
        end
      else if (c <? 32)%N then inr (Unexpected pos c)
      else string_body s' (S pos) (c :: acc)
  end.

Definition digits_Z (ds : jsstring) : Z :=
  fold_left (fun n c => (10 * n + Z.of_N (c - 48))%Z) ds 0%Z.

(** The double nearest to [m * 10^e]. *)
Definition to_double (neg : bool) (m e : Z) : number :=
  match m with
  | Zpos p =>
      match e with
      | Zneg k => SFdiv 53 1024 (S754_finite neg p 0) (S754_finite false (10 ^ k)%positive 0)
      | _ => binary_normalize 53 1024 (if neg then - (m * 10 ^ e) else m * 10 ^ e)%Z 0 neg
      end
  | _ => S754_zero neg
  end.

(** A run of digits that must not be empty. *)
Definition digits1 (s : jsstring) (pos : nat) : Res jsstring :=
  match digit_run s with
  | [] =>
      match s with
      | [] => inr EndOfInput
      | c :: _ => inr (Unexpected pos c)
      end
  | ds => inl (ds, drop (length ds) s, pos + length ds)
  end.

Definition number_literal (s : jsstring) (pos : nat) : Res JsonValue :=
  let '(neg, s, pos) :=
    match s with
    | c :: s' => if (c =? 45)%N then (true, s', S pos) else (false, s, pos)
    | [] => (false, s, pos)
    end in
  match digits1 s pos with
  | inr e => inr e
  | inl (ds, s1, p1) =>
      (* a leading zero stands alone *)
      let '(int_part, s1, p1) :=
        match ds with
        | d :: _ :: _ => if (d =? 48)%N then ([d], drop 1 s, S pos) else (ds, s1, p1)
        | _ => (ds, s1, p1)
        end in
      let fraction :=
        match s1 with
        | c :: s2 => if (c =? 46)%N then digits1 s2 (S p1) else inl ([], s1, p1)
        | [] => inl ([], s1, p1)
        end in
      match fraction with
      | inr e => inr e
      | inl (frac_part, s3, p3) =>
          let exponent : Res Z :=
            match s3 with
            | c :: s4 =>
                if ((c =? 101) || (c =? 69))%N then
                  let '(eneg, s5, p5) :=
                    match s4 with
                    | sg :: s4' =>
                        if (sg =? 45)%N then (true, s4', p3 + 2)
                        else if (sg =? 43)%N then (false, s4', p3 + 2)
                        else (false, s4, S p3)
                    | [] => (false, s4, S p3)
                    end in
                  match digits1 s5 p5 with
                  | inr e => inr e
                  | inl (eds, s6, p6) =>
                      inl (if eneg then (- digits_Z eds)%Z else digits_Z eds, s6, p6)
                  end
                else inl (0%Z, s3, p3)
            | [] => inl (0%Z, s3, p3)
            end in
          match exponent with
          | inr e => inr e
          | inl (ex, s7, p7) =>
              inl (JNum (to_double neg (digits_Z (int_part ++ frac_part))
                           (ex - Z.of_nat (length frac_part))%Z), s7, p7)
          end
      end
  end.

(** Defining a property: an existing key keeps its place and takes the
    new value; a new key that is an array index goes among the index
    keys, in ascending order; any other new key goes last. *)
Fixpoint replace_property (props : list (jsstring * JsonValue)) (k : jsstring) (v : JsonValue)
  : list (jsstring * JsonValue) :=
  match props with
  | [] => []
  | (k', v') :: rest =>
      if str_eqb k' k then (k, v) :: rest else (k', v') :: replace_property rest k v
  end.

Fixpoint insert_index (props : list (jsstring * JsonValue)) (i : nat) (k : jsstring)
  (v : JsonValue) : list (jsstring * JsonValue) :=
  match props with
  | [] => [(k, v)]
  | (k', v') :: rest =>
      match index_of_key k' with
      | Some j => if j <? i then (k', v') :: insert_index rest i k v
                  else (k, v) :: props
      | None => (k, v) :: props
      end
  end.

Definition define_property (props : list (jsstring * JsonValue)) (k : jsstring) (v : JsonValue)
  : list (jsstring * JsonValue) :=
  match own_property props k with
  | Some _ => replace_property props k v
  | None =>
      match index_of_key k with
      | Some i => insert_index props i k v
      | None => props ++ [(k, v)]
      end
  end.

Definition literal_value (s : jsstring) (pos : nat) (c : char16) : Res JsonValue :=
  if starts_with (lit "true") s then inl (JBool true, drop 4 s, pos + 4)
  else if starts_with (lit "false") s then inl (JBool false, drop 5 s, pos + 5)
  else if starts_with (lit "null") s then inl (JNull, drop 4 s, pos + 4)
  else inr (Unexpected pos c).

Fixpoint value (fuel : nat) (s : jsstring) (pos : nat) : Res JsonValue :=
  match fuel with
  | 0 => inr TooDeep
  | S fuel' =>
      let '(s, pos) := skip_space s pos in
      match s with
      | [] => inr EndOfInput
      | c :: s' =>
          if (c =? 123)%N then
            let '(s1, p1) := skip_space s' (S pos) in
            match s1 with
            | [] => inr EndOfInput
            | c1 :: s1' =>
                if (c1 =? 125)%N then inl (JObj [], s1', S p1)
                else members fuel' s1 p1 []
            end
          else if (c =? 91)%N then
            let '(s1, p1) := skip_space s' (S pos) in
            match s1 with
            | [] => inr EndOfInput
            | c1 :: s1' =>
                if (c1 =? 93)%N then inl (JArr [], s1', S p1)
                else elements fuel' s1 p1 []
            end
          else if (c =? dquote)%N then
            match string_body s' (S pos) [] with
            | inl (str, rest, p) => inl (JStr str, rest, p)
            | inr e => inr e
            end
          else if (c =? 45)%N || is_digit c then number_literal s pos
          else literal_value s pos c
      end
  end
with elements (fuel : nat) (s : jsstring) (pos : nat) (acc : list JsonValue)
  : Res JsonValue :=
  match fuel with
  | 0 => inr TooDeep
  | S fuel' =>
      match value fuel' s pos with
      | inr e => inr e
      | inl (v, s1, p1) =>
          let '(s2, p2) := skip_space s1 p1 in
          match s2 with
          | [] => inr EndOfInput
          | c :: s2' =>
              if (c =? 44)%N then elements fuel' s2' (S p2) (v :: acc)
              else if (c =? 93)%N then inl (JArr (reverse (v :: acc)), s2', S p2)
              else inr (ExpectedCommaBracket p2)
          end
      end
  end
with members (fuel : nat) (s : jsstring) (pos : nat) (acc : list (jsstring * JsonValue))
  : Res JsonValue :=
  match fuel with
  | 0 => inr TooDeep
  | S fuel' =>
      let '(s, pos) := skip_space s pos in
      match s with
      | [] => inr EndOfInput
      | c :: s' =>
          if (c =? dquote)%N then
            match string_body s' (S pos) [] with
            | inr e => inr e
            | inl (k, s1, p1) =>
                let '(s2, p2) := skip_space s1 p1 in
                match s2 with
                | [] => inr EndOfInput
                | c2 :: s2' =>
                    if (c2 =? 58)%N then
                      match value fuel' s2' (S p2) with
                      | inr e => inr e
                      | inl (v, s3, p3) =>
                          let '(s4, p4) := skip_space s3 p3 in
                          match s4 with
                          | [] => inr EndOfInput
                          | c4 :: s4' =>
                              if (c4 =? 44)%N then
                                members fuel' s4' (S p4) (define_property acc k v)
                              else if (c4 =? 125)%N then
                                inl (JObj (define_property acc k v), s4', S p4)
                              else inr (ExpectedCommaBrace p4)
                          end
                      end
                    else inr (ExpectedColon p2)
                end
            end
          else inr (Unexpected pos c)
      end
  end.

Definition JSON_parse (text : jsstring) : ParseAttempt :=
  match value (2 * length text + 2) text 0 with
  | inr e => Thrown (error_message e)
  | inl (v, rest, p) =>
      match skip_space rest p with
      | ([], _) => Parsed v
      | (c :: _, p') => Thrown (error_message (Unexpected p' c))
      end
  end.

Definition decimal_N (n : N) : jsstring := uint_units (N.to_uint n).

Fixpoint strip_zeros (rev_digits : jsstring) : jsstring :=
  match rev_digits with
  | c :: rest => if (c =? 48)%N then strip_zeros rest else rev_digits
  | [] => []
  end.

(** The digits of [m * 2^e]. *)
Definition magnitude (m : positive) (e : Z) : jsstring :=
  match e with
  | Zneg k =>
      let unit := (2 ^ Npos k)%N in
      let whole := (Npos m / unit)%N in
      let part := (Npos m mod unit)%N in
      if (part =? 0)%N then decimal_N whole
      else
        let ds := decimal_N (part * 5 ^ Npos k)%N in
        let padded := replicate (Pos.to_nat k - length ds) 48%N ++ ds in
        decimal_N whole ++ lit "." ++ reverse (strip_zeros (reverse padded))
  | _ => decimal_N (Npos m * 2 ^ Z.to_N e)%N
  end.

Definition Number_toString (n : number) : jsstring :=
  match n with
  | S754_zero _ => lit "0"
  | S754_nan => lit "NaN"
  | S754_infinity neg => if neg then lit "-Infinity" else lit "Infinity"
  | S754_finite neg m e => (if neg then lit "-" else []) ++ magnitude m e
  end.

Definition host : Host :=
  {| JS.JSON_parse := JSON_parse; JS.Number_toString := Number_toString |}.

(** Lower case for the letters of ASCII (the host maps the letters of
    the other alphabets as well). *)
Definition lower_unit (c : char16) : char16 :=
  if ((65 <=? c) && (c <=? 90))%N then (c + 32)%N else c.

Definition toLowerCase (s : jsstring) : jsstring := map lower_unit s.

Definition casing : Casing := {| JS.toLowerCase := toLowerCase |}.

End RefHost.

(** ** Notions the statements use *)

(** Structural induction on parsed values, through arrays and objects. *)
Section JsonValueInduction.
Variable P : JsonValue -> Prop.
Hypothesis Hnull : P JNull.
Hypothesis Hbool : forall b, P (JBool b).
Hypothesis Hnum : forall n, P (JNum n).
Hypothesis Hstr : forall s, P (JStr s).
Hypothesis Harr : forall items, Forall P items -> P (JArr items).
Hypothesis Hobj : forall props, Forall (fun kv => P (snd kv)) props -> P (JObj props).

Fixpoint JsonValue_nested_ind (v : JsonValue) : P v :=
  match v with
  | JNull => Hnull
  | JBool b => Hbool b
  | JNum n => Hnum n
  | JStr s => Hstr s
  | JArr items =>
      Harr items
        ((fix all (l : list JsonValue) : Forall P l :=
            match l with
            | [] => List.Forall_nil P
            | x :: l' => List.Forall_cons P x l' (JsonValue_nested_ind x) (all l')
            end) items)
  | JObj props =>
      Hobj props
        ((fix all (l : list (jsstring * JsonValue)) : Forall (fun kv => P (snd kv)) l :=
            match l with
            | [] => List.Forall_nil _
            | kv :: l' => List.Forall_cons _ kv l' (JsonValue_nested_ind (snd kv)) (all l')
            end) props)
  end.
End JsonValueInduction.

(** The nesting depth of a value: the depth of its deepest node, the root
    being at depth 0 (what [getStatistics] reports as [maxDepth]). *)
Fixpoint height (v : JsonValue) : nat :=
  match v with
  | JArr items => fold_right (fun x h => Nat.max (S (height x)) h) 0 items
  | JObj props => fold_right (fun kv h => Nat.max (S (height (snd kv))) h) 0 props
  | _ => 0
  end.

(** The keys of every object are distinct, as they are in any object of
    the host. *)
Fixpoint distinct_keys (v : JsonValue) : bool :=
  match v with
  | JArr items => forallb distinct_keys items
  | JObj props =>
      bool_decide (NoDup (map fst props))
      && forallb (fun kv => distinct_keys (snd kv)) props
  | _ => true
  end.

(** The leaves of a value (everything but arrays and objects), in
    pre-order, each with the path that leads to it from [p]. *)
Fixpoint leaves (v : JsonValue) (p : Path) : list (Path * JsonValue) :=
  match v with
  | JArr items =>
      for_indexed (fun acc i x => acc ++ leaves x (p ++ [Idx i])) 0 items []
  | JObj props =>
      fold_left (fun acc kv => acc ++ leaves (snd kv) (p ++ [Key (fst kv)])) props []
  | _ => [(p, v)]
  end.

(** The row [flatten] pushes for a leaf reached by a path. *)
Definition flat_entry (row : Path * JsonValue) : JSONParser.FlatEntry :=
  {| JSONParser.path := JSONParser.generateAccessPath (fst row);
     JSONParser.value := snd row;
     JSONParser.type := JSONParser.getType (snd row) |}.

(** A single-character edit of a text at an offset, told by what each
    index reads before and after. *)
Definition inserted (pos : nat) (c : char16) (before after : jsstring) : Prop :=
  length after = S (length before)
  /\ after !! pos = Some c
  /\ (forall i, i < pos -> after !! i = before !! i)
  /\ (forall i, pos <= i -> after !! S i = before !! i).

Definition deleted (pos : nat) (before after : jsstring) : Prop :=
  pos < length before
  /\ length before = S (length after)
  /\ (forall i, i < pos -> after !! i = before !! i)
  /\ (forall i, pos <= i -> after !! i = before !! S i).

Inductive Edit :=
| Insert (c : char16)     (* a colon or a comma, put at the offset *)
| Delete                  (* the character at the offset, taken out *)
| Escape.                 (* a backslash, put before the quote at the offset *)

Definition applies (e : Edit) (pos : nat) (before after : jsstring) : Prop :=
  match e with
  | Insert c => inserted pos c before after
  | Delete => deleted pos before after
  | Escape => before !! pos = Some dquote /\ inserted pos backslash before after
  end.

(** The wording [attemptFix] looks for in a message: the specification
    names what a message indicates and leaves the wording to the host. *)
Record Diagnosis := {
  missing_colon : bool;
  missing_comma : bool;
  unexpected_token : bool
}.

Definition diagnosis (msg : jsstring) : Diagnosis :=
  {| missing_colon :=
       includes msg (lit "Expected ':'") || includes msg (lit "after property name");
     missing_comma :=
       includes msg (lit "Expected ','") || includes msg (lit "after property value");
     unexpected_token := includes msg (lit "Unexpected token") |}.

(** Whether a walk over the text before an offset ends inside an open
    string, in the words of the specification: a quote opens or closes a
    string, and the character a backslash escapes is passed over. *)
Fixpoint open_string (inside : bool) (walked : jsstring) : bool :=
  match walked with
  | [] => inside
  | c :: rest =>
      if (c =? backslash)%N then
        match rest with
        | [] => inside
        | _ :: rest' => open_string inside rest'
        end
      else if (c =? dquote)%N then open_string (negb inside) rest
      else open_string inside rest
  end.

Definition inside_open_string (str : jsstring) (pos : nat) : bool :=
  open_string false (take pos str).

(** The character at the offset repeats the one before it. *)
Definition repeats_previous (str : jsstring) (pos : nat) : bool :=
  match pos, str !! pos with
  | S previous, Some c => bool_decide (str !! previous = Some c)
  | _, _ => false
  end.

(** The strategies of Phase B in the order the specification lists them:
    missing colon, missing comma, duplicate adjacent character, unescaped
    quote inside a string; the first that matches is taken. *)
Definition spec_strategy (d : Diagnosis) (str : jsstring) (pos : nat) : option Edit :=
  if missing_colon d then Some (Insert 58%N)
  else if missing_comma d then Some (Insert 44%N)
  else if unexpected_token d && repeats_previous str pos then Some Delete
  else if bool_decide (str !! pos = Some dquote) && inside_open_string str pos
  then Some Escape
  else None.

(** The 1-based line and column of an offset of a text, in the words of
    the specification: counted from the newlines before the offset. *)
Definition line_of (text : jsstring) (offset : nat) : nat :=
  1 + count_occ N.eq_dec (take offset text) newline.

Definition column_of (text : jsstring) (offset : nat) : nat :=
  1 + length (List.last (split_char newline (take offset text)) []).

(** One round of the loop of Phase B that applies an edit: the text does
    not parse, the message holds an offset, a strategy matches; the edit
    is logged once and counted. *)
Inductive applies_edit `{Host} : JSONRepair.Loop -> JSONRepair.Loop -> Prop :=
| edit_applied st msg info r m :
    JSON_parse (JSONRepair.result st) = Thrown msg ->
    JSONRepair.parseError msg = Some info ->
    JSONRepair.attemptFix (JSONRepair.result st) info = JSONRepair.Fixed r m ->
    applies_edit st
      {| JSONRepair.result := r;
         JSONRepair.repairs := JSONRepair.repairs st ++ [m];
         JSONRepair.iteration := JSONRepair.iteration st + 1 |}.

(** The loop has nothing more to do: the text parses, or the message holds
    no offset, or no strategy matches. *)
Definition stops `{Host} (st : JSONRepair.Loop) : Prop :=
  (exists v, JSON_parse (JSONRepair.result st) = Parsed v)
  \/ (exists msg, JSON_parse (JSONRepair.result st) = Thrown msg
                  /\ JSONRepair.parseError msg = None)
  \/ (exists msg info, JSON_parse (JSONRepair.result st) = Thrown msg
                       /\ JSONRepair.parseError msg = Some info
                       /\ JSONRepair.attemptFix (JSONRepair.result st) info
                          = JSONRepair.NotFixed).

(** A text without its trailing commas: the commas that only blanks
    separate from a closing bracket or brace. *)
Fixpoint closes_after_blanks (s : jsstring) : bool :=
  match s with
  | c :: s' =>
      if JSONRepair.is_closer c then true
      else if is_space c then closes_after_blanks s'
      else false
  | [] => false
  end.

Fixpoint without_trailing_commas (s : jsstring) : jsstring :=
  match s with
  | [] => []
  | c :: s' =>
      if (c =? 44)%N && closes_after_blanks s' then without_trailing_commas s'
      else c :: without_trailing_commas s'
  end.

(** The leaves [getStatistics] counts: primitives and nulls. *)
Definition leaf_total (st : JSONParser.Stats) : nat :=
  JSONParser.primitives st + JSONParser.nulls st.

(** The separator of node identities, and the strings that do not hold it. *)
Definition dot_unit : char16 := 46%N.
Definition dot_free (s : jsstring) : Prop := dot_unit ∉ s.


(** The nodes below a value, in pre-order, each with the path that leads
    to it from [p]. *)
Fixpoint descendants (v : JsonValue) (p : Path) : list (Path * JsonValue) :=
  match v with
  | JArr items =>
      for_indexed
        (fun acc i x => acc ++ (p ++ [Idx i], x) :: descendants x (p ++ [Idx i])) 0 items []
  | JObj props =>
      fold_left
        (fun acc kv =>
           acc ++ (p ++ [Key (fst kv)], snd kv) :: descendants (snd kv) (p ++ [Key (fst kv)]))
        props []
  | _ => []
  end.

(** Arrays and objects are branches; everything else is a leaf. *)
Definition is_leaf (v : JsonValue) : bool :=
  match v with
  | JArr _ | JObj _ => false
  | _ => true
  end.

(** The row [extractRows] pushes for a node reached by a path: its key
    is the last segment, as a string. *)
Definition table_row (node : Path * JsonValue) : TableVisualizer.Row :=
  {| TableVisualizer.path := fst node;
     TableVisualizer.key := match list.last (fst node) with
                            | Some seg => segment_string seg
                            | None => []
                            end;
     TableVisualizer.value := snd node;
     TableVisualizer.type := Visualizer.getType (snd node) |}.

(** How a reader of comma-separated values takes a field: a field in
    quotes stands for its body with every doubled quote read as one; a
    bare field stands for itself and holds no comma, quote or line
    feed. *)
Fixpoint csv_quoted_body (s : jsstring) : option jsstring :=
  match s with
  | [] => None
  | c :: s' =>
      if (c =? dquote)%N then
        match s' with
        | [] => Some []
        | d :: s'' =>
            if (d =? dquote)%N then option_map (cons dquote) (csv_quoted_body s'')
            else None
        end
      else option_map (cons c) (csv_quoted_body s')
  end.

Definition csv_special (c : char16) : bool :=
  ((c =? 44) || (c =? dquote) || (c =? newline))%N.

Definition csv_field_value (field : jsstring) : option jsstring :=
  match field with
  | c :: rest =>
      if (c =? dquote)%N then csv_quoted_body rest
      else if existsb csv_special field then None else Some field
  | [] => Some []
  end.

(** The four code units that open or close markup or an attribute value. *)
Definition html_markup (c : char16) : bool :=
  ((c =? 60) || (c =? 62) || (c =? dquote) || (c =? squote))%N.

(** The access to one more segment in dot notation: an index in
    brackets, an identifier after a dot, any other key quoted in
    brackets. *)
Definition member_access (seg : PathSegment) : jsstring :=
  match seg with
  | Idx i => lit "[" ++ decimal i ++ lit "]"
  | Key k =>
      if JSONParser.is_identifier k then lit "." ++ k
      else lit "[" ++ [squote] ++ k ++ [squote] ++ lit "]"
  end.

(** A key that can follow a dot. *)
Definition identifier_key (seg : PathSegment) : bool :=
  match seg with
  | Key k => JSONParser.is_identifier k
  | Idx _ => false
  end.

(** The hits [search] pushes: for a leaf whose text holds the term, and
    for a node whose key does. *)
Definition value_hit (node : Path * JsonValue) : JSONParser.Hit.t :=
  {| JSONParser.Hit.path := fst node;
     JSONParser.Hit.value := snd node;
     JSONParser.Hit.type := lit "value" |}.

Definition key_hit (node : Path * JsonValue) : JSONParser.Hit.t :=
  {| JSONParser.Hit.path := fst node;
     JSONParser.Hit.value := snd node;
     JSONParser.Hit.type := lit "key" |}.

Definition is_value_hit (h : JSONParser.Hit.t) : bool :=
  str_eqb (JSONParser.Hit.type h) (lit "value").

Definition is_key_hit (h : JSONParser.Hit.t) : bool :=
  str_eqb (JSONParser.Hit.type h) (lit "key").

(** ** Sample documents and selections *)

Definition one_two_three : JsonValue :=
  JArr [JNum (number_of_nat 1); JNum (number_of_nat 2); JNum (number_of_nat 3)].

Definition users_document : JsonValue :=
  JObj [ (lit "users",
          JArr [ JObj [ (lit "name", JStr (lit "Ann")); (lit "age", JNum (number_of_nat 30)) ];
                 JObj [ (lit "name", JStr (lit "Bob")); (lit "age", JNull) ] ]);
         (lit "ok", JBool true) ].

Definition age_path : Path := [Key (lit "users"); Idx 0; Key (lit "age")].

(** The selection of the [age] of the first user. *)
Definition age_selection : CodeHelper.State :=
  {| CodeHelper.currentPath := age_path;
     CodeHelper.currentValue := Some (JNum (number_of_nat 30));
     CodeHelper.currentKey := Some (Key (lit "age"));
     CodeHelper.jsonData := Some users_document |}.



(** A text that starts with an empty line and breaks at the start of its
    third line. *)
Definition shifted_lines : jsstring := [newline] ++ lit "[1" ++ [newline] ++ lit "2]".

(** A text that breaks after a key that spells an offset, and the message
    of a host that quotes the text it rejects. *)
Definition quoted_offset_text : jsstring :=
  lit "{" ++ [dquote] ++ lit "position 99" ++ [dquote] ++ lit ":x}".

Definition quoted_offset_message : jsstring :=
  lit "Unexpected token 'x', " ++ [dquote] ++ quoted_offset_text ++ [dquote]
    ++ lit " is not valid JSON".

Definition quoted_offset_report : JSONRepair.ErrorInfo :=
  {| JSONRepair.position := 99;
     JSONRepair.expected := None;
     JSONRepair.message := quoted_offset_message |}.

(** A valid text that holds the quoted marker. *)
Definition quoted_marker_text : jsstring :=
  lit "[" ++ JSONRepair.quoted_object_marker ++ lit "]".

(** A text with a quote after a backslash and a quote inside the string
    that the first quote opens, and a report at that second quote. *)
Definition quote_in_string_text : jsstring :=
  lit "[" ++ [backslash; dquote; dquote] ++ lit "a" ++ [dquote] ++ lit "b]".

Definition quote_in_string_report : JSONRepair.ErrorInfo :=
  {| JSONRepair.position := 5;
     JSONRepair.expected := None;
     JSONRepair.message := lit "Bad string in JSON at position 5" |}.

(** The set of expanded nodes a visualizer starts with. *)
Definition root_expanded : gset jsstring := {[ lit "root" ]}.

(** A message of the parser in the style that tells the line as well. *)
Definition located_message_start : jsstring := lit "Unexpected token } in JSON at ".
Definition located_message_end : jsstring := lit " (line 2 column 3)".

(** A text cut inside a string. *)
Definition open_string_text : jsstring := lit "[" ++ [dquote] ++ lit "a, b".


(* ===================================================================== *)
(** * Part II: properties                                                 *)
(* ===================================================================== *)

(** ** Statistics and the node counter *)
Section Statistics.
Import JSONParser.

Lemma countNodes_unfold obj depth :
  countNodes obj depth =
  if maxDepth <? depth then 1
  else match obj with
       | JArr items =>
           fold_left (fun count item => count + countNodes item (depth + 1)) items 1
       | JObj props =>
           fold_left (fun count kv => count + countNodes (snd kv) (depth + 1)) props 1
       | _ => 1
       end.
Proof. destruct obj; reflexivity. Qed.

Lemma stats_traverse_unfold obj depth stats :
  stats_traverse obj depth stats =
  if maxDepth <? depth then stats
  else
    let stats := count_node depth stats in
    match obj with
    | JNull => count_null stats
    | JArr items =>
        fold_left (fun st item => stats_traverse item (depth + 1) st) items
          (count_array stats)
    | JObj props =>
        fold_left (fun st kv => stats_traverse (snd kv) (depth + 1) st) props
          (count_object stats)
    | _ => count_primitive stats
    end.
Proof. destruct obj; reflexivity. Qed.

(** Heights of the children of a node. *)
Lemma height_items items :
  Forall (fun x => S (height x) <= height (JArr items)) items.
Proof.
  induction items as [|x items IH]; constructor; simpl in *.
  - lia.
  - eapply Forall_impl; [exact IH|]. simpl. intros y Hy. lia.
Qed.

Lemma height_props props :
  Forall (fun kv => S (height (snd kv)) <= height (JObj props)) props.
Proof.
  induction props as [|x props IH]; constructor; simpl in *.
  - lia.
  - eapply Forall_impl; [exact IH|]. simpl. intros y Hy. lia.
Qed.

(** A loop that adds to the node total what the counter adds. *)
Lemma fold_total {A} (f : A -> nat -> Stats -> Stats) (g : A -> nat -> nat)
    (d : nat) (l : list A) :
  Forall (fun x => forall st, totalNodes (f x d st) = totalNodes st + g x d) l ->
  forall st c,
    totalNodes (fold_left (fun st x => f x d st) l st) + c
    = totalNodes st + fold_left (fun count x => count + g x d) l c.
Proof.
  induction 1 as [|x l Hx _ IH]; intros st c; simpl; [lia|].
  specialize (IH (f x d st) (c + g x d)). rewrite Hx in IH. lia.
Qed.

Lemma total_counts v :
  forall depth st,
    depth + height v <= maxDepth ->
    totalNodes (stats_traverse v depth st) = totalNodes st + countNodes v depth.
Proof.
  induction v as [| | | |items IH|props IH] using JsonValue_nested_ind; intros depth st Hd;
    rewrite stats_traverse_unfold, countNodes_unfold;
    destruct (Nat.ltb_spec maxDepth depth) as [Hlt|Hge]; try lia; simpl; try lia.
  - pose proof (fold_total (fun x d st => stats_traverse x d st)
                  (fun x d => countNodes x d) (depth + 1) items) as HF.
    simpl in HF.
    assert (Hall : Forall (fun x => forall st0,
                totalNodes (stats_traverse x (depth + 1) st0)
                = totalNodes st0 + countNodes x (depth + 1)) items).
    { pose proof (height_items items) as Hh.
      rewrite Forall_forall in IH, Hh. rewrite Forall_forall.
      intros x Hx st0. apply IH; [exact Hx|]. specialize (Hh x Hx). lia. }
    specialize (HF Hall (count_array (count_node depth st)) 1). simpl in HF. lia.
  - pose proof (fold_total (fun kv d st => stats_traverse (snd kv) d st)
                  (fun kv d => countNodes (snd kv) d) (depth + 1) props) as HF.
    simpl in HF.
    assert (Hall : Forall (fun kv => forall st0,
                totalNodes (stats_traverse (snd kv) (depth + 1) st0)
                = totalNodes st0 + countNodes (snd kv) (depth + 1)) props).
    { pose proof (height_props props) as Hh.
      rewrite Forall_forall in IH, Hh. rewrite Forall_forall.
      intros x Hx st0. apply IH; [exact Hx|]. specialize (Hh x Hx). lia. }
    specialize (HF Hall (count_object (count_node depth st)) 1). simpl in HF. lia.
Qed.

(** A loop that raises the depth seen so far to the deepest child. *)
Lemma fold_depth {A} (f : A -> Stats -> Stats) (h : A -> nat) (d : nat) (l : list A) :
  Forall (fun x => forall st,
            stats_maxDepth (f x st) = Nat.max (stats_maxDepth st) (d + S (h x))) l ->
  forall st,
    d <= stats_maxDepth st ->
    stats_maxDepth (fold_left (fun st x => f x st) l st)
    = Nat.max (stats_maxDepth st) (d + fold_right (fun x m => Nat.max (S (h x)) m) 0 l).
Proof.
  induction 1 as [|x l Hx _ IH]; intros st Hd; simpl; [lia|].
  rewrite IH by (rewrite Hx; lia). rewrite Hx. lia.
Qed.

(** Within the bound, [getStatistics] reports the nesting depth. *)
Lemma depth_counts v :
  forall depth st,
    depth + height v <= maxDepth ->
    stats_maxDepth (stats_traverse v depth st)
    = Nat.max (stats_maxDepth st) (depth + height v).
Proof.
  induction v as [| | | |items IH|props IH] using JsonValue_nested_ind;
    intros depth st Hd;
    rewrite stats_traverse_unfold;
    destruct (Nat.ltb_spec maxDepth depth) as [Hlt|Hge]; try lia;
    try (simpl; lia).
  - cbv zeta.
    rewrite (fold_depth (fun x st => stats_traverse x (depth + 1) st) height depth items).
    + simpl. lia.
    + pose proof (height_items items) as Hh.
      rewrite Forall_forall in IH, Hh. rewrite Forall_forall.
      intros x Hx st0. rewrite IH; [lia|exact Hx|]. specialize (Hh x Hx). lia.
    + simpl. lia.
  - cbv zeta.
    rewrite (fold_depth (fun kv st => stats_traverse (snd kv) (depth + 1) st)
               (fun kv => height (snd kv)) depth props).
    + simpl. lia.
    + pose proof (height_props props) as Hh.
      rewrite Forall_forall in IH, Hh. rewrite Forall_forall.
      intros x Hx st0. rewrite IH; [lia|exact Hx|]. specialize (Hh x Hx). lia.
    + simpl. lia.
Qed.

(** X27: the depth [getStatistics] reports is the nesting depth of the
    value, for every value whose nesting depth is at most 100. *)
Lemma maxDepth_is_height v :
  height v <= 100 -> stats_maxDepth (getStatistics v) = height v.
Proof.
  intros Hh. unfold getStatistics. rewrite depth_counts; [simpl; lia|].
  unfold maxDepth. lia.
Qed.
(** C10: for every value whose nesting depth is at most 100, the
    standalone counter [countNodes] returns the [totalNodes] of
    [getStatistics]. *)
Theorem countNodes_is_totalNodes (v : JsonValue) :
  height v <= 100 ->
  countNodes v 0 = totalNodes (getStatistics v).
Proof.
  intros Hh. unfold getStatistics.
  rewrite total_counts; [reflexivity|]. unfold maxDepth. lia.
Qed.
End Statistics.

Lemma countNodes_is_totalNodes_witness :
  height users_document <= 100
  /\ JSONParser.countNodes users_document 0
     = JSONParser.totalNodes (JSONParser.getStatistics users_document).
Proof.
  assert (Hh : height users_document <= 100) by (vm_compute; lia).
  split; [exact Hh|]. exact (countNodes_is_totalNodes users_document Hh).
Defined.

(** ** Flatten *)
Section Flatten.
Import JSONParser.

Lemma flatten_traverse_unfold limit obj p depth flattened :
  flatten_traverse limit obj p depth flattened =
  if limit <? depth then flattened
  else
    match obj with
    | JArr items =>
        for_indexed
          (fun acc i v => flatten_traverse limit v (p ++ [Idx i]) (depth + 1) acc)
          0 items flattened
    | JObj props =>
        fold_left
          (fun acc kv => flatten_traverse limit (snd kv) (p ++ [Key (fst kv)]) (depth + 1) acc)
          props flattened
    | _ =>
        flattened ++ [{| path := generateAccessPath p; value := obj; type := getType obj |}]
    end.
Proof. destruct obj; reflexivity. Qed.

(** Loops whose body appends to the accumulator. *)
Lemma for_indexed_shift {A B} (g : nat -> A -> list B) (l : list A) :
  forall i acc,
    for_indexed (fun acc i x => acc ++ g i x) i l acc
    = acc ++ for_indexed (fun acc i x => acc ++ g i x) i l [].
Proof.
  induction l as [|x l IH]; intros i acc; simpl.
  - by rewrite app_nil_r.
  - rewrite IH, (IH (S i) (g i x)), app_assoc. reflexivity.
Qed.

Lemma fold_left_shift {A B} (g : A -> list B) (l : list A) :
  forall acc,
    fold_left (fun acc x => acc ++ g x) l acc
    = acc ++ fold_left (fun acc x => acc ++ g x) l [].
Proof.
  induction l as [|x l IH]; intros acc; simpl.
  - by rewrite app_nil_r.
  - rewrite IH, (IH (g x)), app_assoc. reflexivity.
Qed.

Lemma for_indexed_appends {A B C} (body : list C -> nat -> A -> list C)
    (g : nat -> A -> list B) (h : B -> C) (l : list A) :
  Forall (fun x => forall i acc, body acc i x = acc ++ map h (g i x)) l ->
  forall i acc,
    for_indexed body i l acc
    = acc ++ map h (for_indexed (fun acc i x => acc ++ g i x) i l []).
Proof.
  induction 1 as [|x l Hx _ IH]; intros i acc; simpl.
  - by rewrite app_nil_r.
  - rewrite IH, Hx, (for_indexed_shift g l (S i) (g i x)).
    rewrite map_app, !app_assoc. reflexivity.
Qed.

Lemma fold_left_appends {A B C} (body : list C -> A -> list C)
    (g : A -> list B) (h : B -> C) (l : list A) :
  Forall (fun x => forall acc, body acc x = acc ++ map h (g x)) l ->
  forall acc,
    fold_left body l acc
    = acc ++ map h (fold_left (fun acc x => acc ++ g x) l []).
Proof.
  induction 1 as [|x l Hx _ IH]; intros acc; simpl.
  - by rewrite app_nil_r.
  - rewrite IH, Hx, (fold_left_shift g l (g x)).
    rewrite map_app, !app_assoc. reflexivity.
Qed.

(** Within the depth bound, [flatten] pushes the leaves, in order. *)
Lemma flatten_traverse_leaves limit v :
  forall p depth acc,
    depth + height v <= limit ->
    flatten_traverse limit v p depth acc = acc ++ map flat_entry (leaves v p).
Proof.
  induction v as [| | | |items IH|props IH] using JsonValue_nested_ind;
    intros p depth acc Hd;
    rewrite flatten_traverse_unfold;
    destruct (Nat.ltb_spec limit depth) as [Hlt|Hge]; try lia; try reflexivity.
  - simpl leaves.
    apply (for_indexed_appends _ (fun i x => leaves x (p ++ [Idx i])) flat_entry).
    pose proof (height_items items) as Hh.
    rewrite Forall_forall in IH, Hh. rewrite Forall_forall.
    intros x Hx i acc0. apply IH; [exact Hx|]. specialize (Hh x Hx). lia.
  - simpl leaves.
    apply (fold_left_appends _ (fun kv => leaves (snd kv) (p ++ [Key (fst kv)])) flat_entry).
    pose proof (height_props props) as Hh.
    rewrite Forall_forall in IH, Hh. rewrite Forall_forall.
    intros x Hx acc0. apply IH; [exact Hx|]. specialize (Hh x Hx). lia.
Qed.
End Flatten.

Section FlattenCounts.
Import JSONParser.

Lemma leaf_total_indexed {A B} (f : A -> Stats -> Stats) (g : nat -> A -> list B)
    (l : list A) :
  Forall (fun x => forall i st, leaf_total (f x st) = leaf_total st + length (g i x)) l ->
  forall i st,
    leaf_total (fold_left (fun st x => f x st) l st)
    = leaf_total st + length (for_indexed (fun acc i x => acc ++ g i x) i l []).
Proof.
  induction 1 as [|x l Hx _ IH]; intros i st; simpl; [lia|].
  rewrite for_indexed_shift, length_app, (IH (S i)), (Hx i). simpl. lia.
Qed.

Lemma leaf_total_fold {A B} (f : A -> Stats -> Stats) (g : A -> list B) (l : list A) :
  Forall (fun x => forall st, leaf_total (f x st) = leaf_total st + length (g x)) l ->
  forall st,
    leaf_total (fold_left (fun st x => f x st) l st)
    = leaf_total st + length (fold_left (fun acc x => acc ++ g x) l []).
Proof.
  induction 1 as [|x l Hx _ IH]; intros st; simpl; [lia|].
  rewrite fold_left_shift, length_app, IH, Hx. simpl. lia.
Qed.

Lemma leaf_counts v :
  forall p depth st,
    depth + height v <= maxDepth ->
    leaf_total (stats_traverse v depth st) = leaf_total st + length (leaves v p).
Proof.
  induction v as [| | | |items IH|props IH] using JsonValue_nested_ind;
    intros p depth st Hd;
    rewrite stats_traverse_unfold;
    destruct (Nat.ltb_spec maxDepth depth) as [Hlt|Hge]; try lia;
    try (unfold leaf_total; simpl; lia).
  - simpl leaves. cbv zeta.
    assert (Hall : Forall (fun x => forall i st0,
               leaf_total (stats_traverse x (depth + 1) st0)
               = leaf_total st0 + length (leaves x (p ++ [Idx i]))) items).
    { pose proof (height_items items) as Hh.
      rewrite Forall_forall in IH, Hh. rewrite Forall_forall.
      intros x Hx i st0. apply IH; [exact Hx|]. specialize (Hh x Hx). lia. }
    rewrite (leaf_total_indexed (fun x st => stats_traverse x (depth + 1) st)
               (fun i x => leaves x (p ++ [Idx i])) items Hall 0).
    unfold leaf_total. simpl. lia.
  - simpl leaves. cbv zeta.
    assert (Hall : Forall (fun kv => forall st0,
               leaf_total (stats_traverse (snd kv) (depth + 1) st0)
               = leaf_total st0 + length (leaves (snd kv) (p ++ [Key (fst kv)]))) props).
    { pose proof (height_props props) as Hh.
      rewrite Forall_forall in IH, Hh. rewrite Forall_forall.
      intros x Hx st0. apply IH; [exact Hx|]. specialize (Hh x Hx). lia. }
    rewrite (leaf_total_fold (fun kv st => stats_traverse (snd kv) (depth + 1) st)
               (fun kv => leaves (snd kv) (p ++ [Key (fst kv)])) props Hall).
    unfold leaf_total. simpl. lia.
Qed.
End FlattenCounts.

Section Resolution.
Import Visualizer.

Lemma in_for_indexed {A B} (g : nat -> A -> list B) (l : list A) :
  forall i y,
    y ∈ for_indexed (fun acc i x => acc ++ g i x) i l [] ->
    exists k x, l !! k = Some x /\ y ∈ g (i + k) x.
Proof.
  induction l as [|x l IH]; intros i y; simpl.
  - intros Hy. by apply elem_of_nil in Hy.
  - rewrite for_indexed_shift. intros [Hy|Hy]%elem_of_app.
    + exists 0, x. rewrite Nat.add_0_r. auto.
    + destruct (IH _ _ Hy) as (k & x' & Hk & Hin).
      exists (S k), x'. split; [exact Hk|].
      by replace (i + S k) with (S i + k) by lia.
Qed.

Lemma in_fold_left_app {A B} (g : A -> list B) (l : list A) :
  forall y,
    y ∈ fold_left (fun acc x => acc ++ g x) l [] ->
    exists x, x ∈ l /\ y ∈ g x.
Proof.
  induction l as [|x l IH]; intros y; simpl.
  - intros Hy. by apply elem_of_nil in Hy.
  - rewrite fold_left_shift. intros [Hy|Hy]%elem_of_app.
    + exists x. split; [left|exact Hy].
    + destruct (IH _ Hy) as (x' & Hx' & Hin).
      exists x'. split; [by right|exact Hin].
Qed.

Lemma own_property_distinct props k v :
  NoDup (map fst props) -> (k, v) ∈ props -> own_property props k = Some v.
Proof.
  induction props as [|[k' v'] props IH]; simpl; intros Hnd Hin.
  - by apply elem_of_nil in Hin.
  - inversion Hnd as [|? ? Hnotin Hnd']; subst.
    unfold str_eqb. case_bool_decide as Hk.
    + subst k'. apply elem_of_cons in Hin as [Heq|Hin]; [congruence|].
      exfalso. apply Hnotin. apply list_elem_of_In in Hin.
      apply list_elem_of_In. exact (in_map fst _ _ Hin).
    + apply elem_of_cons in Hin as [Heq|Hin]; [congruence|]. by apply IH.
Qed.

(** The path of a leaf leads back to the leaf. *)
Lemma leaves_resolve v :
  distinct_keys v = true ->
  forall p q y,
    (q, y) ∈ leaves v p ->
    exists s, q = p ++ s /\ lookup_all (Some v) s = Return (Some y).
Proof.
  induction v as [| | | |items IH|props IH] using JsonValue_nested_ind;
    intros Hwf p q y Hin;
    try (apply list_elem_of_singleton in Hin; inversion Hin; subst;
         exists []; split; [by rewrite app_nil_r|reflexivity]).
  - simpl in Hin. apply in_for_indexed in Hin as (k & x & Hk & Hin).
    simpl in Hwf, Hin. rewrite forallb_forall in Hwf.
    rewrite Forall_forall in IH.
    assert (Hx : x ∈ items) by (eapply list_elem_of_lookup_2; eauto).
    destruct (IH x Hx (Hwf x (proj1 (list_elem_of_In _ _) Hx)) _ _ _ Hin) as (s & -> & Hs).
    exists (Idx k :: s). split; [by rewrite <- app_assoc|].
    simpl. rewrite Hk. exact Hs.
  - simpl in Hin. apply in_fold_left_app in Hin as ([k x] & Hkx & Hin).
    simpl in Hwf, Hin. apply andb_prop in Hwf as [Hnd Hwf].
    apply bool_decide_eq_true in Hnd.
    rewrite forallb_forall in Hwf. rewrite Forall_forall in IH.
    destruct (IH _ Hkx (Hwf _ (proj1 (list_elem_of_In _ _) Hkx)) _ _ _ Hin)
      as (s & -> & Hs).
    exists (Key k :: s). split; [by rewrite <- app_assoc|].
    simpl. rewrite (own_property_distinct _ _ _ Hnd Hkx). exact Hs.
Qed.
End Resolution.

(** C1 (amended): for every value whose nesting depth does not exceed the
    depth bound of [flatten] (10), [flatten] produces one entry per leaf
    (primitive or null), in pre-order; their number is the primitives plus
    the nulls of [getStatistics], not [totalNodes]; and the path of every
    entry, resolved against the value, yields the value of the entry. *)
Theorem flatten_lists_leaves (v : JsonValue) :
  height v <= 10 ->
  distinct_keys v = true ->
  JSONParser.flatten v = map flat_entry (leaves v [])
  /\ length (JSONParser.flatten v)
     = JSONParser.primitives (JSONParser.getStatistics v)
       + JSONParser.nulls (JSONParser.getStatistics v)
  /\ Forall (fun row => Visualizer.getValueAtPath v (fst row) = Return (Some (snd row)))
       (leaves v []).
Proof.
  intros Hh Hwf.
  assert (Hflat : JSONParser.flatten v = map flat_entry (leaves v [])).
  { unfold JSONParser.flatten, JSONParser.flatten_with.
    rewrite flatten_traverse_leaves by (simpl; lia). reflexivity. }
  split; [exact Hflat|split].
  - rewrite Hflat, length_map. unfold JSONParser.getStatistics.
    pose proof (leaf_counts v [] 0
                  {| JSONParser.totalNodes := 0; JSONParser.stats_maxDepth := 0;
                     JSONParser.arrays := 0; JSONParser.objects := 0;
                     JSONParser.primitives := 0; JSONParser.nulls := 0 |}) as Hc.
    unfold leaf_total in Hc. simpl in Hc. rewrite Hc; [reflexivity|].
    unfold JSONParser.maxDepth. lia.
  - apply Forall_forall. intros [q y] Hin. simpl.
    destruct (leaves_resolve v Hwf [] q y Hin) as (s & -> & Hs). exact Hs.
Qed.

Lemma flatten_lists_leaves_witness :
  height users_document <= 10
  /\ distinct_keys users_document = true
  /\ length (JSONParser.flatten users_document) = 5
  /\ Forall (fun row => Visualizer.getValueAtPath users_document (fst row)
                        = Return (Some (snd row)))
       (leaves users_document []).
Proof.
  assert (Hh : height users_document <= 10) by (vm_compute; lia).
  assert (Hk : distinct_keys users_document = true) by (vm_compute; reflexivity).
  split; [exact Hh|split; [exact Hk|split; [reflexivity|]]].
  exact (proj2 (proj2 (flatten_lists_leaves users_document Hh Hk))).
Defined.

(** C1, as stated, fails on [[1, 2, 3]]: three entries, four nodes. *)
Lemma flatten_skips_branches :
  height one_two_three <= 10
  /\ length (JSONParser.flatten one_two_three) = 3
  /\ JSONParser.totalNodes (JSONParser.getStatistics one_two_three) = 4.
Proof. split; [vm_compute; lia|split; reflexivity]. Qed.

(** ** Node identities *)
Section NodeIdentity.
Import Visualizer.

Lemma uint_units_dot_free d : dot_free (uint_units d).
Proof.
  unfold dot_free.
  induction d; simpl; try (apply not_elem_of_nil);
    (apply not_elem_of_cons; split; [by vm_compute|exact IHd]).
Qed.

Lemma decimal_dot_free n : dot_free (decimal n).
Proof. apply uint_units_dot_free. Qed.

(** Two texts that agree up to their first separator. *)
Lemma first_dot_unique (a b x y : jsstring) :
  dot_free a -> dot_free b ->
  a ++ dot_unit :: x = b ++ dot_unit :: y -> a = b /\ x = y.
Proof.
  unfold dot_free. revert b.
  induction a as [|c a IH]; intros [|d b] Ha Hb Heq; simpl in Heq.
  - by inversion Heq.
  - inversion Heq; subst. exfalso. apply Hb. left.
  - inversion Heq; subst. exfalso. apply Ha. left.
  - inversion Heq; subst.
    apply not_elem_of_cons in Ha as [_ Ha], Hb as [_ Hb].
    destruct (IH b Ha Hb H1) as [-> ->]. done.
Qed.

Lemma join_dot_cons a b rest :
  join [dot_unit] (a :: b :: rest) = a ++ dot_unit :: join [dot_unit] (b :: rest).
Proof. reflexivity. Qed.

(** Joining with the separator is injective on non-empty lists of
    separator-free parts. *)
Lemma join_dot_injective (l1 l2 : list jsstring) :
  l1 <> [] -> l2 <> [] ->
  Forall dot_free l1 -> Forall dot_free l2 ->
  join [dot_unit] l1 = join [dot_unit] l2 -> l1 = l2.
Proof.
  revert l2.
  induction l1 as [|a r1 IH]; intros l2 Hn1 Hn2 H1 H2 Heq; [done|].
  destruct l2 as [|b r2]; [done|].
  inversion H1 as [|? ? Ha Hr1]; inversion H2 as [|? ? Hb Hr2]; subst.
  destruct r1 as [|a' r1], r2 as [|b' r2].
  - simpl in Heq. by subst.
  - rewrite join_dot_cons in Heq. simpl in Heq. subst a.
    exfalso. apply Ha. apply elem_of_app. right. left.
  - rewrite join_dot_cons in Heq. simpl in Heq. subst b.
    exfalso. apply Hb. apply elem_of_app. right. left.
  - rewrite !join_dot_cons in Heq.
    destruct (first_dot_unique _ _ _ _ Ha Hb Heq) as [-> Hrest].
    f_equal. apply IH; done.
Qed.

(** C9 (amended): the key of a path is a function of its segments, and
    on non-empty paths whose keys hold no separator two paths have the
    same key exactly when their segments have the same string forms; a
    numeric segment and its string form, a key with a separator and the
    nested keys, and the root and the key [root] share a key. *)
Theorem nodeId_injective_on_dot_free_keys (p q : Path) :
  p <> [] -> q <> [] ->
  (forall k, Key k ∈ p ++ q -> dot_free k) ->
  (nodeId p = nodeId q <-> map segment_string p = map segment_string q).
Proof.
  intros Hp Hq Hfree.
  assert (Hid : forall r : Path, r <> [] -> nodeId r = join [dot_unit] (map segment_string r)).
  { intros [|x r] Hr; [done|reflexivity]. }
  rewrite (Hid p Hp), (Hid q Hq). split; [|by intros ->].
  assert (Hparts : forall r : Path,
             (forall k, Key k ∈ r -> dot_free k) -> Forall dot_free (map segment_string r)).
  { intros r Hr. apply Forall_forall. intros s Hs.
    apply list_elem_of_In, in_map_iff in Hs as ([k|i] & <- & Hin); simpl.
    - apply Hr. by apply list_elem_of_In.
    - apply decimal_dot_free. }
  apply join_dot_injective.
  - by destruct p.
  - by destruct q.
  - apply Hparts. intros k Hk. apply Hfree, elem_of_app. by left.
  - apply Hparts. intros k Hk. apply Hfree, elem_of_app. by right.
Qed.

Lemma nodeId_injective_witness :
  ([Key (lit "users"); Idx 0; Key (lit "age")] : Path) <> []
  /\ (nodeId [Key (lit "users"); Idx 0; Key (lit "age")]
        = nodeId [Key (lit "users"); Key (lit "0"); Key (lit "age")]
      <-> map segment_string [Key (lit "users"); Idx 0; Key (lit "age")]
          = map segment_string [Key (lit "users"); Key (lit "0"); Key (lit "age")]).
Proof.
  split; [discriminate|].
  apply nodeId_injective_on_dot_free_keys; [discriminate|discriminate|].
  intros k Hk. unfold dot_free. cbn [app] in Hk.
  repeat (apply elem_of_cons in Hk as [Hk|Hk];
          [first [ discriminate Hk
                 | (injection Hk as ->; apply (bool_decide_unpack _); vm_compute; exact I) ]|]).
  by apply elem_of_nil in Hk.
Defined.

(** C9, as stated, fails: distinct paths with one key. *)
Lemma nodeId_collisions :
  (nodeId [Idx 1] = nodeId [Key (lit "1")] /\ [Idx 1] <> [Key (lit "1")])
  /\ (nodeId [Key (lit "a.b")] = nodeId [Key (lit "a"); Key (lit "b")]
      /\ [Key (lit "a.b")] <> [Key (lit "a"); Key (lit "b")])
  /\ (nodeId [] = nodeId [Key (lit "root")] /\ ([] : Path) <> [Key (lit "root")]).
Proof. repeat split; (reflexivity || discriminate). Qed.
End NodeIdentity.

(** ** Path resolution *)
Section PathResolution.
Import Visualizer CodeHelper.

(** C2: a path whose intermediate lookup yields [null] or [undefined]
    must resolve to a miss; [getValueAtPath] throws there. *)
Theorem getValueAtPath_throws_through_null :
  getValueAtPath (JObj [(lit "a", JNull)]) [Key (lit "a"); Key (lit "b")] = Throw TypeError
  /\ getValueAtPath (JObj []) [Key (lit "a"); Key (lit "b")] = Throw TypeError.
Proof. split; reflexivity. Qed.

(** On the embedding, reading a property of a value other than [null]
    returns, and so does the guarded walk of the code helper. *)
Lemma get_defined (v : JsonValue) (seg : PathSegment) :
  v <> JNull -> exists next, get (Some v) seg = Return next.
Proof.
  intros Hv. destruct v as [| | |s|items|props]; simpl; try done; eauto.
  - destruct seg; eauto. destruct (str_eqb _ _); eauto. destruct (index_of_key _); eauto.
  - destruct seg; eauto. destruct (str_eqb _ _); eauto. destruct (index_of_key _); eauto.
Qed.

Lemma detect_loop_returns whole rest :
  forall current i, exists r, detect_loop whole current i rest = Return r.
Proof.
  induction rest as [|seg rest IH]; intros current i; simpl; [eauto|].
  destruct current as [v|]; [|eauto].
  destruct v as [| | |s|items|props]; eauto.
  - destruct (get_defined (JBool b) seg) as [next ->]; [done|]. apply IH.
  - destruct (get_defined (JNum n) seg) as [next ->]; [done|]. apply IH.
  - destruct (get_defined (JStr s) seg) as [next ->]; [done|]. apply IH.
  - destruct (get_defined (JObj props) seg) as [next ->]; [done|]. apply IH.
Qed.

Lemma detectArrayContext_returns st data :
  exists r, detectArrayContext st data = Return r.
Proof.
  unfold detectArrayContext. destruct (length (currentPath st) =? 0); [eauto|].
  apply detect_loop_returns.
Qed.
End PathResolution.

(** ** The structural parser *)
Section Numerals.
(** Reading back a printed offset. *)
Lemma parse_digits_units d acc :
  fold_left (fun n c => 10 * n + digit_value c) (uint_units d) acc = Nat.of_uint_acc d acc.
Proof.
  revert acc. induction d; intros acc; simpl; try reflexivity;
    rewrite IHd, Nat.tail_mul_spec; f_equal; unfold digit_value, digit_unit; simpl; lia.
Qed.

Lemma parse_digits_decimal n : parse_digits (decimal n) = n.
Proof.
  unfold parse_digits, decimal. rewrite parse_digits_units.
  exact (Unsigned.of_to n).
Qed.
End Numerals.

Section Lines.
Lemma split_char_length sep s :
  length (split_char sep s) = 1 + count_occ N.eq_dec s sep.
Proof.
  induction s as [|c s IH]; simpl; [reflexivity|].
  destruct (N.eqb_spec c sep) as [->|Hne].
  - destruct (N.eq_dec sep sep); [|done]. simpl. rewrite IH. reflexivity.
  - destruct (N.eq_dec c sep); [done|].
    destruct (split_char sep s) as [|first rest]; simpl in *; lia.
Qed.
End Lines.

(** ** The repair engine *)
Section Edits.
Import JSONRepair.

Lemma insert_is_inserted (str : jsstring) (pos : nat) (c : char16) :
  pos <= length str ->
  inserted pos c str (take pos str ++ c :: drop pos str).
Proof.
  intros Hpos.
  assert (Hlen : length (take pos str) = pos) by (rewrite length_take; lia).
  unfold inserted. split; [|split; [|split]].
  - rewrite length_app, Hlen. simpl. rewrite length_drop. lia.
  - rewrite lookup_app_r by lia. rewrite Hlen, Nat.sub_diag. reflexivity.
  - intros i Hi. rewrite lookup_app_l by lia. by apply lookup_take_lt.
  - intros i Hi. rewrite lookup_app_r by lia. rewrite Hlen.
    replace (S i - pos) with (S (i - pos)) by lia. simpl.
    rewrite lookup_drop. f_equal. lia.
Qed.

Lemma remove_is_deleted (str : jsstring) (pos : nat) :
  pos < length str ->
  deleted pos str (take pos str ++ drop (pos + 1) str).
Proof.
  intros Hpos.
  assert (Hlen : length (take pos str) = pos) by (rewrite length_take; lia).
  unfold deleted. split; [|split; [|split]].
  - exact Hpos.
  - rewrite length_app, Hlen, length_drop. lia.
  - intros i Hi. rewrite lookup_app_l by lia. by apply lookup_take_lt.
  - intros i Hi. rewrite lookup_app_r by lia. rewrite Hlen, lookup_drop.
    f_equal. lia.
Qed.

Lemma is_char_spec (o : option char16) (x : char16) :
  is_char o x = bool_decide (o = Some x).
Proof.
  destruct o as [y|]; unfold is_char.
  - destruct (N.eqb_spec y x) as [->|Hne]; case_bool_decide; congruence.
  - by case_bool_decide.
Qed.

End Edits.

Section Loop.
Import JSONRepair.
Context `{Host}.

Lemma structural_loop_steps (k : nat) :
  forall st,
  exists n, n <= k
    /\ nsteps applies_edit n st (structural_loop k st)
    /\ (n = k \/ stops (structural_loop k st))
    /\ iteration (structural_loop k st) = iteration st + n
    /\ length (repairs (structural_loop k st)) = length (repairs st) + n.
Proof.
  induction k as [|k IH]; intros st.
  - exists 0. simpl. split_and!; [lia|constructor|by left|lia|lia].
  - simpl.
    destruct (JSON_parse (result st)) as [v|msg] eqn:Hparse.
    { exists 0. split_and!; [lia|constructor| |lia|lia].
      right. left. eauto. }
    destruct (parseError msg) as [info|] eqn:Hinfo; cycle 1.
    { exists 0. split_and!; [lia|constructor| |lia|lia].
      right. right. left. eauto. }
    destruct (attemptFix (result st) info) as [r m|] eqn:Hfix; cycle 1.
    { exists 0. split_and!; [lia|constructor| |lia|lia].
      right. right. right. eauto. }
    destruct (IH {| result := r; repairs := repairs st ++ [m];
                    iteration := iteration st + 1 |})
      as (n & Hn & Hsteps & Hstop & Hiter & Hlog).
    exists (S n). split_and!.
    + lia.
    + eapply nsteps_l; [|exact Hsteps]. by econstructor.
    + destruct Hstop as [->|Hstop]; [by left|by right].
    + rewrite Hiter. simpl. lia.
    + rewrite Hlog. simpl. rewrite length_app. simpl. lia.
Qed.

Lemma structural_loop_parsed (k : nat) (st : Loop) (v : JsonValue) :
  JSON_parse (result st) = Parsed v -> structural_loop (S k) st = st.
Proof. intros Hp. simpl. by rewrite Hp. Qed.

(** C5: for every text, [repair] returns; Phase B applies at most 10
    edits, each logged once; it stops when the text parses, or the
    message holds no offset, or no strategy matches, or the tenth edit is
    done; and [repair] returns the last text with the log. *)
Theorem repair_applies_at_most_ten_edits (text : jsstring) :
  exists (n : nat) (final : Loop),
    n <= 10
    /\ nsteps applies_edit n
         {| result := fst (fixCommonPatterns text []);
            repairs := snd (fixCommonPatterns text []);
            iteration := 0 |} final
    /\ (n = 10 \/ stops final)
    /\ iteration final = n
    /\ length (repairs final) = length (snd (fixCommonPatterns text [])) + n
    /\ repair text = {| repaired := result final; outcome_repairs := repairs final |}.
Proof.
  destruct (structural_loop_steps maxIterations
              {| result := fst (fixCommonPatterns text []);
                 repairs := snd (fixCommonPatterns text []);
                 iteration := 0 |})
    as (n & Hn & Hsteps & Hstop & Hiter & Hlog).
  exists n. eexists. split_and!; try eassumption.
  unfold repair, fixStructuralErrors, fixStructuralErrors_state.
  destruct (fixCommonPatterns text []) as [text1 log1]. reflexivity.
Qed.
End Loop.

Section PhaseA.
Import JSONRepair.

Lemma no_match_no_change (m : matcher) (s : jsstring) :
  count_matches m 0 s = 0 -> replace_all m 0 s = s.
Proof.
  induction s as [|c s IH]; simpl; [reflexivity|].
  destruct (m (c :: s)) as [[len rep]|]; [discriminate|].
  intros Hc. by rewrite IH.
Qed.

Lemma rewrite_without_match m describe text log :
  count_matches m 0 text = 0 -> rewrite m describe (text, log) = (text, log).
Proof. intros Hc. unfold rewrite. by rewrite Hc. Qed.

(** Skipping the rest of a match. *)
Lemma replace_all_skip (m : matcher) (k : nat) (s : jsstring) :
  replace_all m k s = replace_all m 0 (drop k s).
Proof.
  revert s. induction k as [|k IH]; intros [|c s]; simpl; try reflexivity.
  apply IH.
Qed.

Lemma space_run_split (s : jsstring) :
  s = space_run s ++ drop (length (space_run s)) s.
Proof.
  induction s as [|c s IH]; simpl; [reflexivity|].
  destruct (is_space c); simpl; [by rewrite <- IH|reflexivity].
Qed.

Lemma closer_not_space c : is_closer c = true -> is_space c = false.
Proof.
  unfold is_closer. intros [Hc|Hc]%orb_prop; apply N.eqb_eq in Hc; by subst.
Qed.

Lemma space_not_comma c : is_space c = true -> (c =? 44)%N = false.
Proof.
  destruct (N.eqb_spec c 44) as [->|]; [discriminate|reflexivity].
Qed.

Lemma closer_not_comma c : is_closer c = true -> (c =? 44)%N = false.
Proof.
  destruct (N.eqb_spec c 44) as [->|]; [discriminate|reflexivity].
Qed.

Lemma closes_after_blanks_run (s : jsstring) :
  closes_after_blanks s
  = match drop (length (space_run s)) s with
    | b :: _ => is_closer b
    | [] => false
    end.
Proof.
  induction s as [|d s IH]; simpl; [reflexivity|].
  destruct (is_closer d) eqn:Hd.
  - rewrite (closer_not_space _ Hd). simpl. by rewrite Hd.
  - destruct (is_space d); simpl; [exact IH|by rewrite Hd].
Qed.

Lemma take_run (ws : jsstring) (b : char16) (rest : jsstring) :
  take (S (length ws)) (ws ++ b :: rest) = ws ++ [b].
Proof. induction ws as [|w ws IH]; simpl; [by rewrite take_0|by rewrite <- IH]. Qed.

(** The pattern matches at a comma exactly when only blanks separate the
    comma from a closer; the match is the comma, the blanks and the
    closer, and the blanks and the closer replace it. *)
Lemma trailing_comma_spec (c : char16) (s : jsstring) :
  trailing_comma (c :: s)
  = if (c =? 44)%N && closes_after_blanks s
    then Some (1 + length (space_run s) + 1, take (S (length (space_run s))) s)
    else None.
Proof.
  unfold trailing_comma. destruct (c =? 44)%N; simpl; [|reflexivity].
  rewrite closes_after_blanks_run.
  destruct (drop (length (space_run s)) s) as [|b rest] eqn:Hdrop; [reflexivity|].
  destruct (is_closer b); [|reflexivity].
  f_equal. f_equal.
  pose proof (space_run_split s) as Hs. rewrite Hdrop in Hs.
  transitivity (take (S (length (space_run s))) (space_run s ++ b :: rest)).
  - symmetry. apply take_run.
  - by rewrite <- Hs.
Qed.

Lemma without_closing_run (s : jsstring) :
  closes_after_blanks s = true ->
  without_trailing_commas s
  = take (S (length (space_run s))) s
      ++ without_trailing_commas (drop (S (length (space_run s))) s).
Proof.
  induction s as [|d s IH]; simpl; [discriminate|].
  destruct (is_closer d) eqn:Hd.
  - intros _. rewrite (closer_not_space _ Hd), (closer_not_comma _ Hd). simpl.
    by rewrite ?take_0, ?drop_0.
  - destruct (is_space d) eqn:Hs; [|discriminate].
    intros Hc. rewrite (space_not_comma _ Hs). simpl. by rewrite <- IH.
Qed.

(** The comma rewrite of Phase A removes every trailing comma. *)
Lemma trailing_commas_removed (s : jsstring) :
  replace_all trailing_comma 0 s = without_trailing_commas s.
Proof.
  remember (length s) as n eqn:Hn.
  assert (Hle : length s <= n) by lia. clear Hn. revert s Hle.
  induction n as [|n IH]; intros [|c s] Hle; try reflexivity; [simpl in Hle; lia|].
  cbn [replace_all without_trailing_commas]. rewrite trailing_comma_spec.
  destruct ((c =? 44)%N && closes_after_blanks s) eqn:Hc.
  - apply andb_prop in Hc as [_ Hc].
    rewrite replace_all_skip, (without_closing_run _ Hc).
    replace (1 + length (space_run s) + 1 - 1) with (S (length (space_run s))) by lia.
    f_equal. apply IH. rewrite length_drop. simpl in Hle. lia.
  - f_equal. apply IH. simpl in Hle. lia.
Qed.

Lemma starts_with_prefix (pat s : jsstring) :
  starts_with pat s = true <-> exists post, s = pat ++ post.
Proof.
  revert s. induction pat as [|p pat IH]; intros s; simpl.
  - split; [intros _; by exists s|done].
  - destruct s as [|c s].
    + split; [discriminate|intros [post Hpost]; discriminate].
    + rewrite andb_true_iff, N.eqb_eq, IH. split.
      * intros [-> [post ->]]. by exists post.
      * intros [post Hpost]. inversion Hpost; subst. eauto.
Qed.

(** [includes] finds exactly the occurrences of the pattern. *)
Lemma includes_occurs (s pat : jsstring) :
  includes s pat = true <-> exists pre post, s = pre ++ pat ++ post.
Proof.
  induction s as [|c s IH]; simpl.
  - rewrite orb_false_r, starts_with_prefix. split.
    + intros [post Hpost]. by exists [], post.
    + intros (pre & post & Heq). destruct pre; [by exists post|discriminate].
  - rewrite orb_true_iff, starts_with_prefix, IH. split.
    + intros [[post Hpost]|(pre & post & ->)].
      * by exists [], post.
      * by exists (c :: pre), post.
    + intros (pre & post & Heq). destruct pre as [|d pre].
      * left. by exists post.
      * right. inversion Heq; subst. eauto.
Qed.

Lemma includes_inner (s a pat b : jsstring) :
  includes s pat = false -> includes s (a ++ pat ++ b) = false.
Proof.
  intros Hnot. destruct (includes s (a ++ pat ++ b)) eqn:Hin; [|reflexivity].
  apply includes_occurs in Hin as (pre & post & ->).
  assert (Hpat : includes (pre ++ (a ++ pat ++ b) ++ post) pat = true).
  { apply includes_occurs. exists (pre ++ a), (b ++ post). by rewrite <- !app_assoc. }
  congruence.
Qed.

(** A text without the pattern gives the literal matcher nothing. *)
Lemma no_occurrence_no_match (pat rep s : jsstring) :
  includes s pat = false -> count_matches (literal pat rep) 0 s = 0.
Proof.
  induction s as [|c s IH]; [reflexivity|].
  cbn [includes count_matches]. intros [Hhere Hrest]%orb_false_elim.
  unfold literal at 1. rewrite Hhere. by apply IH.
Qed.

Lemma without_trailing_commas_length (s : jsstring) :
  length (without_trailing_commas s) <= length s.
Proof.
  induction s as [|c s IH]; simpl; [lia|].
  destruct ((c =? 44)%N && closes_after_blanks s); simpl; lia.
Qed.

(** A text that keeps all its commas gives the comma matcher nothing. *)
Lemma no_trailing_comma_no_match (s : jsstring) :
  without_trailing_commas s = s -> count_matches trailing_comma 0 s = 0.
Proof.
  induction s as [|c s IH]; [reflexivity|].
  cbn [without_trailing_commas count_matches]. rewrite trailing_comma_spec.
  destruct ((c =? 44)%N && closes_after_blanks s).
  - intros Heq. pose proof (without_trailing_commas_length s) as Hlen.
    rewrite Heq in Hlen. simpl in Hlen. lia.
  - intros Heq. apply IH. injection Heq as Heq. exact Heq.
Qed.
(** C3 (amended): for every text that parses and in which Phase A finds
    no match (no object marker, bare or quoted, and no trailing comma),
    [repair] returns the text unchanged, with an empty log, so the result
    parses to the same value. *)
Theorem repair_keeps_text_without_patterns `{Host} (text : jsstring) (v : JsonValue) :
  JSON_parse text = Parsed v ->
  includes text object_marker = false ->
  includes text quoted_object_marker = false ->
  without_trailing_commas text = text ->
  repair text = {| repaired := text; outcome_repairs := [] |}
  /\ JSON_parse (repaired (repair text)) = Parsed v.
Proof.
  intros Hparse Hobject Hquoted Hcommas.
  assert (Harray : includes text array_object_marker = false)
    by exact (includes_inner text (lit "[") object_marker (lit "]") Hobject).
  assert (Hrepair : repair text = {| repaired := text; outcome_repairs := [] |}).
  { unfold repair, fixCommonPatterns.
    rewrite (rewrite_without_match _ _ _ _ (no_occurrence_no_match _ _ _ Hobject)),
      (rewrite_without_match _ _ _ _ (no_occurrence_no_match _ _ _ Harray)),
      (rewrite_without_match _ _ _ _ (no_occurrence_no_match _ _ _ Hquoted)),
      (rewrite_without_match _ _ _ _ (no_trailing_comma_no_match _ Hcommas)).
    unfold fixStructuralErrors, fixStructuralErrors_state.
    change maxIterations with (S 9).
    by rewrite (structural_loop_parsed 9
                  {| result := text; repairs := []; iteration := 0 |} v Hparse). }
  rewrite Hrepair. split; [reflexivity|exact Hparse].
Qed.

(** C6: on the text [[1, 2, 3,]], [repair] removes the trailing comma
    (the comma rewrite of Phase A removes every comma that only blanks
    separate from a closing bracket or brace); the result parses, and
    the statistics of the parsed value are 4 nodes, depth 1, 1 array. *)
Theorem trailing_comma_scenario `{Host} (a b c : number) :
  JSON_parse (lit "[1, 2, 3]") = Parsed (JArr [JNum a; JNum b; JNum c]) ->
  repair (lit "[1, 2, 3,]")
  = {| repaired := lit "[1, 2, 3]";
       outcome_repairs := [lit "Removed 1 trailing comma(s)"] |}
  /\ JSONParser.parse (lit "[1, 2, 3]") = JSONParser.Success (JArr [JNum a; JNum b; JNum c])
  /\ JSONParser.totalNodes (JSONParser.getStatistics (JArr [JNum a; JNum b; JNum c])) = 4
  /\ JSONParser.stats_maxDepth (JSONParser.getStatistics (JArr [JNum a; JNum b; JNum c])) = 1
  /\ JSONParser.arrays (JSONParser.getStatistics (JArr [JNum a; JNum b; JNum c])) = 1
  /\ (forall (s : jsstring) (describe : nat -> jsstring) (log : list jsstring),
        fst (rewrite trailing_comma describe (s, log)) = without_trailing_commas s).
Proof.
  intros Hparse.
  assert (HA : fixCommonPatterns (lit "[1, 2, 3,]") []
               = (lit "[1, 2, 3]", [lit "Removed 1 trailing comma(s)"]))
    by (vm_compute; reflexivity).
  split_and!; try reflexivity.
  - unfold repair. rewrite HA.
    unfold fixStructuralErrors, fixStructuralErrors_state.
    change maxIterations with (S 9).
    by rewrite (structural_loop_parsed 9
                  {| result := lit "[1, 2, 3]";
                     repairs := [lit "Removed 1 trailing comma(s)"];
                     iteration := 0 |} _ Hparse).
  - unfold JSONParser.parse.
    replace (str_eqb (lit "[1, 2, 3]") []) with false by (vm_compute; reflexivity).
    replace (trim (lit "[1, 2, 3]")) with (lit "[1, 2, 3]") by (vm_compute; reflexivity).
    replace (length (lit "[1, 2, 3]") =? 0) with false by (vm_compute; reflexivity).
    rewrite Hparse. reflexivity.
  - intros s describe log. unfold rewrite.
    destruct (count_matches trailing_comma 0 s) eqn:Hc; simpl.
    + rewrite <- (no_match_no_change _ _ Hc) at 1. apply trailing_commas_removed.
    + apply trailing_commas_removed.
Qed.
End PhaseA.

Lemma trailing_comma_scenario_witness :
  @JSONRepair.repair RefHost.host (lit "[1, 2, 3,]")
  = {| JSONRepair.repaired := lit "[1, 2, 3]";
       JSONRepair.outcome_repairs := [lit "Removed 1 trailing comma(s)"] |}
  /\ @JSONParser.parse RefHost.host (lit "[1, 2, 3]") = JSONParser.Success one_two_three.
Proof.
  assert (Hparse : @JSON_parse RefHost.host (lit "[1, 2, 3]") = Parsed one_two_three)
    by (vm_compute; reflexivity).
  pose proof (@trailing_comma_scenario RefHost.host _ _ _ Hparse) as (Hr & Hp & _).
  split; [exact Hr|exact Hp].
Defined.

Lemma repair_keeps_text_without_patterns_witness :
  @JSONRepair.repair RefHost.host (lit "[1, 2, 3]")
  = {| JSONRepair.repaired := lit "[1, 2, 3]"; JSONRepair.outcome_repairs := [] |}
  /\ @JSON_parse RefHost.host
       (JSONRepair.repaired (@JSONRepair.repair RefHost.host (lit "[1, 2, 3]")))
     = Parsed one_two_three.
Proof.
  assert (Hparse : @JSON_parse RefHost.host (lit "[1, 2, 3]") = Parsed one_two_three)
    by (vm_compute; reflexivity).
  refine (@repair_keeps_text_without_patterns RefHost.host (lit "[1, 2, 3]") one_two_three
            Hparse _ _ _); vm_compute; reflexivity.
Defined.

(** C3, as stated, fails: a valid text that holds the quoted marker is
    rewritten, and parses to another value. *)
Lemma repair_rewrites_valid_text :
  @JSON_parse RefHost.host quoted_marker_text = Parsed (JArr [JStr (lit "Object")])
  /\ @JSONRepair.repair RefHost.host quoted_marker_text
     = {| JSONRepair.repaired := lit "[{}]";
          JSONRepair.outcome_repairs :=
            [lit "Replaced 1 instance(s) of " ++ JSONRepair.quoted_object_marker
               ++ lit " with {}"] |}
  /\ @JSON_parse RefHost.host (lit "[{}]") = Parsed (JArr [JObj []])
  /\ JArr [JStr (lit "Object")] <> JArr [JObj []].
Proof. split_and!; try (vm_compute; reflexivity). discriminate. Qed.

(** ** The code helper *)
Section ArrayContext.
Import Visualizer CodeHelper.


Lemma get_empty_string (seg : PathSegment) :
  get (Some (JStr [])) seg = Return None
  \/ exists n, get (Some (JStr [])) seg = Return (Some (JNum n)).
Proof.
  unfold get. destruct seg as [key|i].
  - destruct (str_eqb key (lit "length")); [right; eauto|].
    destruct (index_of_key key); left; by rewrite ?lookup_nil.
  - left. by rewrite lookup_nil.
Qed.

Lemma lookup_all_step (current : option JsonValue) (seg : PathSegment) (q : Path) :
  lookup_all current (seg :: q)
  = match get current seg with
    | Return next => lookup_all next q
    | Throw e => Throw e
    end.
Proof. reflexivity. Qed.

(** A falsy document leads to no array. *)
Lemma falsy_reaches_no_array (data : JsonValue) (p : Path) (items : list JsonValue) :
  truthy data = false ->
  lookup_all (Some data) p <> Return (Some (JArr items)).
Proof.
  intros Hfalsy.
  assert (Hundef : forall q, lookup_all None q <> Return (Some (JArr items))).
  { intros [|? ?]; simpl; discriminate. }
  assert (Hnum : forall n q, lookup_all (Some (JNum n)) q <> Return (Some (JArr items))).
  { intros n [|? q]; simpl; [discriminate|apply Hundef]. }
  destruct data as [|b|n|s|l|props]; simpl in Hfalsy; try discriminate.
  - destruct p; simpl; discriminate.
  - destruct p as [|? q]; simpl; [discriminate|apply Hundef].
  - apply Hnum.
  - unfold str_eqb in Hfalsy. case_bool_decide as Hs; [subst s|discriminate].
    destruct p as [|seg q]; [simpl; discriminate|].
    rewrite lookup_all_step.
    destruct (get_empty_string seg) as [->|[n ->]]; [apply Hundef|apply Hnum].
Qed.
End ArrayContext.

Section PropertyInArray.
Import Visualizer CodeHelper.
Context `{Host}.



End PropertyInArray.


(** The two examples of the scenario, as the code helper prints them. *)
Lemma age_examples :
  match @CodeHelper.generateCode RefHost.host age_selection (Some users_document) with
  | Return examples =>
      map CodeHelper.code
        (List.filter (fun e => includes (CodeHelper.code e) (lit ".filter(")
                               || includes (CodeHelper.code e) (lit ".reduce("))
           examples)
      = [ lit "const filtered = data.users.filter(item => item.age > 30);";
          lit "const total = data.users.reduce((sum, item) => sum + item.age, 0);" ]
  | Throw _ => False
  end.
Proof. vm_compute. reflexivity. Qed.



(** ** The rows of the flat table *)
Section TableRows.
Import Visualizer TableVisualizer.

Lemma extractRows_descendants v :
  forall p rows, extractRows v p rows = rows ++ map table_row (descendants v p).
Proof.
  induction v as [| | | |items IH|props IH] using JsonValue_nested_ind;
    intros p rows; try (simpl; by rewrite app_nil_r).
  - simpl extractRows. simpl descendants.
    apply (for_indexed_appends _
             (fun i x => (p ++ [Idx i], x) :: descendants x (p ++ [Idx i])) table_row).
    eapply Forall_impl; [exact IH|]. intros x Hx i acc.
    cbv beta zeta. rewrite map_cons.
    transitivity (extractRows x (p ++ [Idx i]) (acc ++ [table_row (p ++ [Idx i], x)])).
    + unfold table_row. cbn [fst snd]. rewrite last_snoc. by destruct x.
    + rewrite Hx. by rewrite <- app_assoc.
  - simpl extractRows. simpl descendants.
    apply (fold_left_appends _
             (fun kv => (p ++ [Key (fst kv)], snd kv)
                          :: descendants (snd kv) (p ++ [Key (fst kv)])) table_row).
    eapply Forall_impl; [exact IH|]. intros [k x] Hx acc.
    cbv beta zeta. cbn [fst snd] in *. rewrite map_cons.
    transitivity (extractRows x (p ++ [Key k]) (acc ++ [table_row (p ++ [Key k], x)])).
    + unfold table_row. cbn [fst snd]. rewrite last_snoc. by destruct x.
    + rewrite Hx. by rewrite <- app_assoc.
Qed.

Lemma length_for_indexed {A B} (g : nat -> A -> list B) (c : A -> nat) (l : list A) :
  Forall (fun x => forall i, length (g i x) = c x) l ->
  forall i n,
    n + length (for_indexed (fun acc i x => acc ++ g i x) i l [])
    = fold_left (fun count x => count + c x) l n.
Proof.
  induction 1 as [|x l Hx _ IH]; intros i n; simpl; [lia|].
  rewrite for_indexed_shift, length_app, (Hx i), <- (IH (S i) (n + c x)). simpl. lia.
Qed.

Lemma length_fold_left_app {A B} (g : A -> list B) (c : A -> nat) (l : list A) :
  Forall (fun x => length (g x) = c x) l ->
  forall n,
    n + length (fold_left (fun acc x => acc ++ g x) l [])
    = fold_left (fun count x => count + c x) l n.
Proof.
  induction 1 as [|x l Hx _ IH]; intros n; simpl; [lia|].
  rewrite fold_left_shift, length_app, Hx, <- (IH (n + c x)). simpl. lia.
Qed.

Lemma descendants_count v :
  forall p depth,
    depth + height v <= JSONParser.maxDepth ->
    1 + length (descendants v p) = JSONParser.countNodes v depth.
Proof.
  induction v as [| | | |items IH|props IH] using JsonValue_nested_ind;
    intros p depth Hd; rewrite countNodes_unfold;
    destruct (Nat.ltb_spec JSONParser.maxDepth depth) as [Hlt|Hge]; try lia;
    try reflexivity.
  - simpl descendants.
    apply (length_for_indexed
             (fun i x => (p ++ [Idx i], x) :: descendants x (p ++ [Idx i]))
             (fun x => JSONParser.countNodes x (depth + 1))).
    pose proof (height_items items) as Hh.
    rewrite Forall_forall in IH, Hh. rewrite Forall_forall.
    intros x Hx i. simpl. apply IH; [exact Hx|]. specialize (Hh x Hx). lia.
  - simpl descendants.
    apply (length_fold_left_app
             (fun kv => (p ++ [Key (fst kv)], snd kv)
                          :: descendants (snd kv) (p ++ [Key (fst kv)]))
             (fun kv => JSONParser.countNodes (snd kv) (depth + 1))).
    pose proof (height_props props) as Hh.
    rewrite Forall_forall in IH, Hh. rewrite Forall_forall.
    intros x Hx. simpl. apply IH; [exact Hx|]. specialize (Hh x Hx). lia.
Qed.

Lemma descendants_resolve v :
  distinct_keys v = true ->
  forall p q y,
    (q, y) ∈ descendants v p ->
    exists s, s <> [] /\ q = p ++ s /\ lookup_all (Some v) s = Return (Some y).
Proof.
  induction v as [| | | |items IH|props IH] using JsonValue_nested_ind;
    intros Hwf p q y Hin; try (by apply elem_of_nil in Hin).
  - simpl in Hin.
    apply (in_for_indexed
             (fun i x => (p ++ [Idx i], x) :: descendants x (p ++ [Idx i])))
      in Hin as (k & x & Hk & Hin).
    simpl in Hwf, Hin. rewrite forallb_forall in Hwf.
    rewrite Forall_forall in IH.
    assert (Hx : x ∈ items) by (eapply list_elem_of_lookup_2; eauto).
    apply elem_of_cons in Hin as [Heq|Hin].
    + inversion Heq; subst. exists [Idx k]. split_and!; [done|done|].
      simpl. by rewrite Hk.
    + destruct (IH x Hx (Hwf x (proj1 (list_elem_of_In _ _) Hx)) _ _ _ Hin)
        as (s & _ & -> & Hs).
      exists (Idx k :: s). split_and!; [done|by rewrite <- app_assoc|].
      simpl. rewrite Hk. exact Hs.
  - simpl in Hin.
    apply (in_fold_left_app
             (fun kv => (p ++ [Key (fst kv)], snd kv)
                          :: descendants (snd kv) (p ++ [Key (fst kv)])))
      in Hin as ([k x] & Hkx & Hin).
    simpl in Hwf, Hin. apply andb_prop in Hwf as [Hnd Hwf].
    apply bool_decide_eq_true in Hnd.
    rewrite forallb_forall in Hwf. rewrite Forall_forall in IH.
    apply elem_of_cons in Hin as [Heq|Hin].
    + inversion Heq; subst. exists [Key k]. split_and!; [done|done|].
      simpl. by rewrite (own_property_distinct _ _ _ Hnd Hkx).
    + destruct (IH _ Hkx (Hwf _ (proj1 (list_elem_of_In _ _) Hkx)) _ _ _ Hin)
        as (s & _ & -> & Hs).
      exists (Key k :: s). split_and!; [done|by rewrite <- app_assoc|].
      simpl. rewrite (own_property_distinct _ _ _ Hnd Hkx). exact Hs.
Qed.

Lemma filter_for_indexed {A B} (f : B -> bool) (g : nat -> A -> list B) (l : list A) :
  forall i,
    List.filter f (for_indexed (fun acc i x => acc ++ g i x) i l [])
    = for_indexed (fun acc i x => acc ++ List.filter f (g i x)) i l [].
Proof.
  induction l as [|x l IH]; intros i; simpl; [reflexivity|].
  rewrite for_indexed_shift, List.filter_app, IH.
  symmetry. apply (for_indexed_shift (fun i x => List.filter f (g i x))).
Qed.

Lemma filter_fold_left_app {A B} (f : B -> bool) (g : A -> list B) (l : list A) :
  List.filter f (fold_left (fun acc x => acc ++ g x) l [])
  = fold_left (fun acc x => acc ++ List.filter f (g x)) l [].
Proof.
  induction l as [|x l IH]; simpl; [reflexivity|].
  rewrite fold_left_shift, List.filter_app, IH.
  symmetry. apply (fold_left_shift (fun x => List.filter f (g x))).
Qed.

Lemma for_indexed_ext {A St} (f g : St -> nat -> A -> St) (l : list A) :
  Forall (fun x => forall i st, f st i x = g st i x) l ->
  forall i st, for_indexed f i l st = for_indexed g i l st.
Proof.
  induction 1 as [|x l Hx _ IH]; intros i st; simpl; [reflexivity|].
  by rewrite Hx, IH.
Qed.

Lemma fold_left_ext_Forall {A St} (f g : St -> A -> St) (l : list A) :
  Forall (fun x => forall st, f st x = g st x) l ->
  forall st, fold_left f l st = fold_left g l st.
Proof.
  induction 1 as [|x l Hx _ IH]; intros st; simpl; [reflexivity|].
  by rewrite Hx, IH.
Qed.

(** The leaves among the nodes below a branch are its leaves. *)
Lemma leaves_of_descendants v :
  forall p,
    leaves v p
    = if is_leaf v then [(p, v)]
      else List.filter (fun node => is_leaf (snd node)) (descendants v p).
Proof.
  induction v as [| | | |items IH|props IH] using JsonValue_nested_ind;
    intros p; try reflexivity.
  - simpl is_leaf. cbv iota. simpl descendants.
    rewrite (filter_for_indexed _
               (fun i x => (p ++ [Idx i], x) :: descendants x (p ++ [Idx i]))).
    simpl leaves. apply for_indexed_ext.
    eapply Forall_impl; [exact IH|]. intros x Hx i st. cbv beta.
    rewrite Hx. by destruct x.
  - simpl is_leaf. cbv iota. simpl descendants.
    rewrite (filter_fold_left_app _
               (fun kv => (p ++ [Key (fst kv)], snd kv)
                            :: descendants (snd kv) (p ++ [Key (fst kv)]))).
    simpl leaves. apply fold_left_ext_Forall.
    eapply Forall_impl; [exact IH|]. intros [k x] Hx st. cbn [fst snd] in *.
    rewrite Hx. by destruct x.
Qed.

(** X1: for every value whose nesting depth is at most 100, the flat
    table has one row for every node but the root: one less than
    [getStatistics] and [countNodes] count. *)
Theorem extractRows_counts_nodes (v : JsonValue) :
  height v <= 100 ->
  length (extractRows v [] []) + 1 = JSONParser.totalNodes (JSONParser.getStatistics v)
  /\ length (extractRows v [] []) + 1 = JSONParser.countNodes v 0.
Proof.
  intros Hh. rewrite extractRows_descendants. simpl. rewrite length_map.
  pose proof (descendants_count v [] 0 Hh) as Hc.
  unfold JSONParser.getStatistics. rewrite total_counts by exact Hh. simpl. lia.
Qed.

(** X2: for every value whose objects have distinct keys, every row of
    the flat table can be read back: its path leads to its value, its
    type is the type of the value, its key is the last segment of the
    path as a string. *)
Theorem extractRows_rows_resolve (v : JsonValue) :
  distinct_keys v = true ->
  Forall (fun row =>
            getValueAtPath v (path row) = Return (Some (value row))
            /\ type row = getType (value row)
            /\ exists seg, list.last (path row) = Some seg /\ key row = segment_string seg)
    (extractRows v [] []).
Proof.
  intros Hwf. rewrite extractRows_descendants. simpl.
  rewrite Forall_forall. intros row Hrow.
  apply list_elem_of_fmap in Hrow as ([q y] & -> & Hin).
  destruct (descendants_resolve v Hwf [] q y Hin) as (s & Hne & -> & Hs).
  unfold table_row. cbn [path key value type fst snd app].
  split_and!; [exact Hs|reflexivity|].
  destruct (list.last s) as [seg|] eqn:Hlast.
  - by exists seg.
  - apply last_None in Hlast. contradiction.
Qed.

(** X3: for every array or object whose nesting depth is at most 10,
    [flatten] gives, in the same order, the rows of the flat table whose
    value is a leaf. *)
Theorem flatten_is_leaf_rows (v : JsonValue) :
  height v <= 10 ->
  is_leaf v = false ->
  JSONParser.flatten v
  = map (fun row => flat_entry (path row, value row))
      (List.filter (fun row => is_leaf (value row)) (extractRows v [] [])).
Proof.
  intros Hh Hbranch. unfold JSONParser.flatten, JSONParser.flatten_with.
  rewrite flatten_traverse_leaves by (simpl; lia). simpl.
  rewrite leaves_of_descendants, Hbranch, extractRows_descendants. simpl.
  generalize (descendants v []). intros l.
  induction l as [|[q y] l IH]; simpl; [reflexivity|].
  destruct (is_leaf y); simpl; by rewrite IH.
Qed.

End TableRows.

Lemma extractRows_counts_nodes_witness :
  height users_document <= 100
  /\ length (TableVisualizer.extractRows users_document [] []) + 1
     = JSONParser.totalNodes (JSONParser.getStatistics users_document)
  /\ length (TableVisualizer.extractRows users_document [] []) + 1
     = JSONParser.countNodes users_document 0.
Proof.
  split; [vm_compute; lia|].
  apply (extractRows_counts_nodes users_document). vm_compute. lia.
Defined.

Lemma extractRows_rows_resolve_witness :
  distinct_keys users_document = true
  /\ Forall (fun row =>
               Visualizer.getValueAtPath users_document (TableVisualizer.path row)
               = Return (Some (TableVisualizer.value row))
               /\ TableVisualizer.type row = Visualizer.getType (TableVisualizer.value row)
               /\ exists seg, list.last (TableVisualizer.path row) = Some seg
                              /\ TableVisualizer.key row = segment_string seg)
       (TableVisualizer.extractRows users_document [] []).
Proof.
  split; [reflexivity|].
  apply (extractRows_rows_resolve users_document). reflexivity.
Defined.

Lemma flatten_is_leaf_rows_witness :
  height users_document <= 10
  /\ is_leaf users_document = false
  /\ JSONParser.flatten users_document
     = map (fun row => flat_entry (TableVisualizer.path row, TableVisualizer.value row))
         (List.filter (fun row => is_leaf (TableVisualizer.value row))
            (TableVisualizer.extractRows users_document [] [])).
Proof.
  split; [vm_compute; lia|]. split; [reflexivity|].
  apply (flatten_is_leaf_rows users_document); [vm_compute; lia|reflexivity].
Defined.

(** ** Escaping *)
Section Escaping.
Import CodeHelper TableVisualizer.

Lemma includes_unit (s : jsstring) (c : char16) :
  includes s [c] = existsb (N.eqb c) s.
Proof.
  induction s as [|x s IH]; [reflexivity|].
  simpl. by rewrite andb_true_r, IH.
Qed.

(** A replacement of single units can be undone when no replacement
    text is empty and the first unit's text tells the unit. *)
Lemma replace_units_injective (f : char16 -> option jsstring) :
  let text c := match f c with Some r => r | None => [c] end in
  (forall c, text c <> []) ->
  (forall c d x y, text c ++ x = text d ++ y -> c = d) ->
  forall a b, replace_units f a = replace_units f b -> a = b.
Proof.
  intros text Hne Hfirst. unfold replace_units. fold text.
  induction a as [|c a IH]; intros [|d b]; simpl; intros Heq.
  - reflexivity.
  - symmetry in Heq. apply app_eq_nil in Heq as [Heq _]. by apply Hne in Heq.
  - apply app_eq_nil in Heq as [Heq _]. by apply Hne in Heq.
  - pose proof (Hfirst _ _ _ _ Heq) as ->.
    apply app_inv_head in Heq. by rewrite (IH b Heq).
Qed.

Lemma html_entity_first (c d : char16) (x y : jsstring) :
  match html_entity c with Some r => r | None => [c] end ++ x
  = match html_entity d with Some r => r | None => [d] end ++ y ->
  c = d.
Proof.
  unfold html_entity, dquote, squote.
  repeat match goal with
         | |- context [(?a =? ?b)%N] => destruct (N.eqb_spec a b)
         end;
    vm_compute; intros Heq; try congruence; inversion Heq; congruence.
Qed.

(** X4: escaped text holds no markup character: no [<], no [>], no
    double and no single quote. *)
Theorem escapeHtml_leaves_no_markup (text : jsstring) :
  existsb html_markup (escapeHtml text) = false.
Proof.
  unfold escapeHtml, replace_units.
  induction text as [|c text IH]; [reflexivity|].
  simpl. rewrite existsb_app, IH, orb_false_r.
  unfold html_entity, html_markup, dquote, squote.
  repeat match goal with
         | |- context [(?a =? ?b)%N] =>
             lazymatch a with
             | c => destruct (N.eqb_spec a b)
             end
         end; subst; try reflexivity; cbn [existsb app orb];
    repeat match goal with
           | H : c <> ?n |- context [(c =? ?n)%N] =>
               rewrite (proj2 (N.eqb_neq c n) H)
           end; reflexivity.
Qed.

(** X5: escaping loses nothing: two texts escape to the same text only
    when they are the same. *)
Theorem escapeHtml_injective (a b : jsstring) :
  escapeHtml a = escapeHtml b <-> a = b.
Proof.
  split; [|by intros ->].
  apply replace_units_injective.
  - intros c. unfold html_entity.
    repeat match goal with
           | |- context [(?a =? ?b)%N] => destruct (a =? b)%N
           end; discriminate.
  - apply html_entity_first.
Qed.

Lemma csv_body_reads_back (s : jsstring) :
  csv_quoted_body
    (replace_units (fun c => if (c =? dquote)%N then Some [dquote; dquote] else None) s
       ++ [dquote])
  = Some s.
Proof.
  unfold replace_units.
  induction s as [|c s IH]; [reflexivity|].
  cbn [flat_map]. destruct (N.eqb_spec c dquote) as [->|Hc].
  - cbn [app csv_quoted_body]. rewrite N.eqb_refl. by rewrite IH.
  - cbn [app csv_quoted_body]. rewrite (proj2 (N.eqb_neq _ _) Hc). by rewrite IH.
Qed.

(** X6: a reader of comma-separated values gets every string back from
    its escaped field. *)
Theorem escapeCSV_reads_back (s : jsstring) :
  csv_field_value (escapeCSV (Some s)) = Some s.
Proof.
  unfold escapeCSV.
  destruct (includes s (lit ",") || includes s [dquote] || includes s [newline])
    eqn:Hspecial.
  - cbn [app csv_field_value]. rewrite N.eqb_refl. apply csv_body_reads_back.
  - destruct s as [|c s]; [reflexivity|].
    change (lit ",") with [44%N] in Hspecial.
    rewrite !includes_unit in Hspecial.
    apply orb_false_elim in Hspecial as [Hspecial Hnl].
    apply orb_false_elim in Hspecial as [Hcomma Hquote].
    assert (Hnone : existsb csv_special (c :: s) = false).
    { revert Hcomma Hquote Hnl. generalize (c :: s). intros l.
      induction l as [|x l IH]; [reflexivity|]. cbn [existsb].
      intros [Hx1 H1]%orb_false_elim [Hx2 H2]%orb_false_elim [Hx3 H3]%orb_false_elim.
      rewrite IH by assumption. unfold csv_special.
      rewrite (N.eqb_sym x 44), (N.eqb_sym x dquote), (N.eqb_sym x newline).
      by rewrite Hx1, Hx2, Hx3. }
    unfold csv_field_value. rewrite Hnone.
    cbn [existsb] in Hquote. apply orb_false_elim in Hquote as [Hc _].
    by rewrite N.eqb_sym, Hc.
Qed.

End Escaping.

(** ** Reading a path in stages *)
Section PathStages.
Import Visualizer CodeHelper.

Lemma lookup_all_app (current : option JsonValue) (p q : Path) :
  lookup_all current (p ++ q)
  = match lookup_all current p with
    | Return next => lookup_all next q
    | Throw e => Throw e
    end.
Proof.
  revert current. induction p as [|seg p IH]; intros current; [reflexivity|].
  simpl. destruct (get current seg) as [next|e]; [apply IH|reflexivity].
Qed.

(** X7: reading a path throws when a proper prefix of it reads [null]. *)
Theorem getValueAtPath_throws_below_null (obj : JsonValue) (p : Path) (k : nat) :
  k < length p ->
  getValueAtPath obj (take k p) = Return (Some JNull) ->
  getValueAtPath obj p = Throw TypeError.
Proof.
  unfold getValueAtPath. intros Hk Hnull.
  rewrite <- (take_drop k p) at 1. rewrite lookup_all_app, Hnull.
  destruct (drop k p) as [|seg rest] eqn:Hrest; [|reflexivity].
  apply (f_equal length) in Hrest. rewrite length_drop in Hrest. simpl in Hrest. lia.
Qed.


Lemma detect_loop_passes (whole : Path) (v : JsonValue) (i : nat) (seg : PathSegment)
    (rest : Path) :
  v <> JNull -> (forall items, v <> JArr items) ->
  detect_loop whole (Some v) i (seg :: rest)
  = match get (Some v) seg with
    | Return next => detect_loop whole next (i + 1) rest
    | Throw e => Throw e
    end.
Proof.
  intros Hnull Harr. destruct v; try reflexivity; [done|].
  by destruct (Harr items).
Qed.

(** The walk of [detectArrayContext] from index [i], where the segments
    before [i] lead from the document to [current]. *)
Lemma detect_loop_first_array (data : JsonValue) (whole rest : Path) :
  forall (pre : Path) (current : option JsonValue),
    whole = pre ++ rest ->
    lookup_all (Some data) pre = Return current ->
    match detect_loop whole current (length pre) rest with
    | Return (Some ctx) =>
        exists j items,
          length pre <= j < length whole
          /\ ctx = {| isInArray := true;
                      arrayPath := take j whole;
                      propertyPath := drop (j + 1) whole;
                      arrayData := items;
                      itemExample := match items with
                                     | first :: _ => first
                                     | [] => JNull
                                     end |}
          /\ lookup_all (Some data) (take j whole) = Return (Some (JArr items))
          /\ forall k found, length pre <= k < j ->
               lookup_all (Some data) (take k whole) <> Return (Some (JArr found))
    | Return None =>
        forall k found, length pre <= k < length whole ->
          lookup_all (Some data) (take k whole) <> Return (Some (JArr found))
    | Throw _ => False
    end.
Proof.
  induction rest as [|seg rest IH]; intros pre current Hwhole Hpre.
  - simpl. intros k found Hk. rewrite Hwhole, app_nil_r in Hk. lia.
  - assert (Hhere : take (length pre) whole = pre)
      by (rewrite Hwhole; apply take_app_length).
    assert (Hlen : length whole = length pre + S (length rest))
      by (rewrite Hwhole, length_app; reflexivity).
    assert (Hbeyond : forall k found,
               current = None \/ current = Some JNull ->
               length pre <= k < length whole ->
               lookup_all (Some data) (take k whole) <> Return (Some (JArr found))).
    { intros k found Hcur Hk.
      replace k with (length pre + (k - length pre)) by lia.
      rewrite Hwhole, take_app_add, lookup_all_app, Hpre.
      destruct (k - length pre) as [|d]; simpl.
      - destruct Hcur as [->| ->]; discriminate.
      - destruct Hcur as [->| ->]; discriminate. }
    assert (Hstep : forall next,
               get current seg = Return next ->
               (forall found, current <> Some (JArr found)) ->
               match detect_loop whole next (length pre + 1) rest with
               | Return (Some ctx) =>
                   exists j items,
                     length pre <= j < length whole
                     /\ ctx = {| isInArray := true;
                                 arrayPath := take j whole;
                                 propertyPath := drop (j + 1) whole;
                                 arrayData := items;
                                 itemExample := match items with
                                                | first :: _ => first
                                                | [] => JNull
                                                end |}
                     /\ lookup_all (Some data) (take j whole) = Return (Some (JArr items))
                     /\ forall k found, length pre <= k < j ->
                          lookup_all (Some data) (take k whole) <> Return (Some (JArr found))
               | Return None =>
                   forall k found, length pre <= k < length whole ->
                     lookup_all (Some data) (take k whole) <> Return (Some (JArr found))
               | Throw _ => False
               end).
    { intros next Hget Hnot.
      assert (Hat : forall found,
                 lookup_all (Some data) (take (length pre) whole)
                 <> Return (Some (JArr found))).
      { intros found. rewrite Hhere, Hpre. intros Heq. inversion Heq as [Hc].
        by apply (Hnot found). }
      specialize (IH (pre ++ [seg]) next).
      rewrite length_app in IH. simpl in IH.
      assert (H1 : whole = (pre ++ [seg]) ++ rest)
        by (rewrite Hwhole, <- app_assoc; reflexivity).
      assert (H2 : lookup_all (Some data) (pre ++ [seg]) = Return next).
      { rewrite lookup_all_app, Hpre. simpl. by rewrite Hget. }
      specialize (IH H1 H2).
      destruct (detect_loop whole next (length pre + 1) rest) as [[ctx|]|e];
        [| |exact IH].
      - destruct IH as (j & items & Hj & Hctx & Hread & Hfirst).
        exists j, items. split; [lia|]. split; [exact Hctx|]. split; [exact Hread|].
        intros k found Hk.
        destruct (decide (k = length pre)) as [->|Hne]; [apply Hat|].
        apply Hfirst. lia.
      - intros k found Hk.
        destruct (decide (k = length pre)) as [->|Hne]; [apply Hat|].
        apply IH. lia. }
    destruct current as [v|]; [|simpl; intros k found Hk; apply Hbeyond; auto].
    destruct v as [|b|n|s|items|props].
    + simpl. intros k found Hk. apply Hbeyond; auto.
    + destruct (get_defined (JBool b) seg) as [next Hget]; [done|].
      rewrite detect_loop_passes, Hget by done. by apply Hstep.
    + destruct (get_defined (JNum n) seg) as [next Hget]; [done|].
      rewrite detect_loop_passes, Hget by done. by apply Hstep.
    + destruct (get_defined (JStr s) seg) as [next Hget]; [done|].
      rewrite detect_loop_passes, Hget by done. by apply Hstep.
    + simpl. exists (length pre), items.
      split; [lia|]. split; [reflexivity|]. split; [by rewrite Hhere|]. intros k found Hk. lia.
    + destruct (get_defined (JObj props) seg) as [next Hget]; [done|].
      rewrite detect_loop_passes, Hget by done. by apply Hstep.
Qed.

Lemma detectArrayContext_cut (st : State) (data : JsonValue) (ctx : ArrayContext) :
  detectArrayContext st data = Return (Some ctx) ->
  exists j items,
    j < length (currentPath st)
    /\ arrayPath ctx = take j (currentPath st)
    /\ propertyPath ctx = drop (j + 1) (currentPath st)
    /\ lookup_all (Some data) (take j (currentPath st)) = Return (Some (JArr items)).
Proof.
  unfold detectArrayContext.
  destruct (length (currentPath st) =? 0); [discriminate|].
  intros Hdetect.
  pose proof (detect_loop_first_array data (currentPath st) (currentPath st) []
                (Some data) eq_refl eq_refl) as Hloop.
  simpl length in Hloop. rewrite Hdetect in Hloop.
  destruct Hloop as (j & items & Hj & -> & Hread & _).
  exists j, items. split; [lia|]. by split_and!.
Qed.

(** X9: for a selected path that leads to a value of the document,
    [detectArrayContext] returns; the context it returns is that of the
    first array on the path, with the path cut around the index into it;
    it returns [null] exactly when no proper prefix of the path leads to
    an array. *)
Theorem detectArrayContext_finds_first_array
    (st : State) (data selected : JsonValue) :
  getValueAtPath data (currentPath st) = Return (Some selected) ->
  match detectArrayContext st data with
  | Return (Some ctx) =>
      exists j items,
        j < length (currentPath st)
        /\ ctx = {| isInArray := true;
                    arrayPath := take j (currentPath st);
                    propertyPath := drop (j + 1) (currentPath st);
                    arrayData := items;
                    itemExample := match items with
                                   | first :: _ => first
                                   | [] => JNull
                                   end |}
        /\ getValueAtPath data (take j (currentPath st)) = Return (Some (JArr items))
        /\ forall k found, k < j ->
             getValueAtPath data (take k (currentPath st)) <> Return (Some (JArr found))
  | Return None =>
      forall k found, k < length (currentPath st) ->
        getValueAtPath data (take k (currentPath st)) <> Return (Some (JArr found))
  | Throw _ => False
  end.
Proof.
  intros _. unfold detectArrayContext.
  destruct (Nat.eqb_spec (length (currentPath st)) 0) as [Hz|Hnz].
  - intros k found Hk. lia.
  - pose proof (detect_loop_first_array data (currentPath st) (currentPath st) []
                  (Some data) eq_refl eq_refl) as Hloop.
    simpl length in Hloop.
    destruct (detect_loop (currentPath st) (Some data) 0 (currentPath st))
      as [[ctx|]|e]; [| |exact Hloop].
    + destruct Hloop as (j & items & Hj & Hctx & Hread & Hfirst).
      exists j, items. split; [lia|]. split; [exact Hctx|]. split; [exact Hread|].
      intros k found Hk. apply Hfirst. lia.
    + intros k found Hk. apply Hloop. lia.
Qed.

End PathStages.

Lemma getValueAtPath_throws_below_null_witness :
  Visualizer.getValueAtPath users_document
    [Key (lit "users"); Idx 1; Key (lit "age")] = Return (Some JNull)
  /\ Visualizer.getValueAtPath users_document
       [Key (lit "users"); Idx 1; Key (lit "age"); Key (lit "years")] = Throw TypeError.
Proof.
  assert (Hnull : Visualizer.getValueAtPath users_document
                    (take 3 [Key (lit "users"); Idx 1; Key (lit "age"); Key (lit "years")])
                  = Return (Some JNull)) by (vm_compute; reflexivity).
  split; [exact Hnull|].
  apply (getValueAtPath_throws_below_null users_document _ 3); [simpl; lia|exact Hnull].
Defined.

Lemma detectArrayContext_finds_first_array_witness :
  Visualizer.getValueAtPath users_document (CodeHelper.currentPath age_selection)
  = Return (Some (JNum (number_of_nat 30)))
  /\ match CodeHelper.detectArrayContext age_selection users_document with
     | Return (Some ctx) =>
         exists j items,
           j < length (CodeHelper.currentPath age_selection)
           /\ ctx = {| CodeHelper.isInArray := true;
                       CodeHelper.arrayPath := take j (CodeHelper.currentPath age_selection);
                       CodeHelper.propertyPath :=
                         drop (j + 1) (CodeHelper.currentPath age_selection);
                       CodeHelper.arrayData := items;
                       CodeHelper.itemExample := match items with
                                                 | first :: _ => first
                                                 | [] => JNull
                                                 end |}
           /\ Visualizer.getValueAtPath users_document
                (take j (CodeHelper.currentPath age_selection))
              = Return (Some (JArr items))
           /\ forall k found, k < j ->
                Visualizer.getValueAtPath users_document
                  (take k (CodeHelper.currentPath age_selection))
                <> Return (Some (JArr found))
     | Return None =>
         forall k found, k < length (CodeHelper.currentPath age_selection) ->
           Visualizer.getValueAtPath users_document
             (take k (CodeHelper.currentPath age_selection))
           <> Return (Some (JArr found))
     | Throw _ => False
     end.
Proof.
  assert (Hselected : Visualizer.getValueAtPath users_document
                        (CodeHelper.currentPath age_selection)
                      = Return (Some (JNum (number_of_nat 30))))
    by (vm_compute; reflexivity).
  split; [exact Hselected|].
  exact (detectArrayContext_finds_first_array age_selection users_document _ Hselected).
Defined.

(** ** The generated examples *)
Section Examples.
Import Visualizer CodeHelper.
Context `{Host}.

Lemma append_segment_member (acc : jsstring * jsstring * jsstring) (seg : PathSegment) :
  fst (fst (JSONParser.append_segment acc seg)) = fst (fst acc) ++ member_access seg.
Proof.
  destruct acc as [[d b] o]. unfold JSONParser.append_segment, member_access.
  destruct seg as [k|i]; [destruct (JSONParser.is_identifier k)|]; reflexivity.
Qed.

Lemma fold_append_segment_dot (q : Path) :
  forall acc : jsstring * jsstring * jsstring,
    fst (fst (fold_left JSONParser.append_segment q acc))
    = fst (fst acc) ++ concat (map member_access q).
Proof.
  induction q as [|seg q IH]; intros acc; cbn [fold_left map concat];
    [by rewrite app_nil_r|].
  by rewrite IH, append_segment_member, <- app_assoc.
Qed.

Lemma dot_of_path (p : Path) :
  JSONParser.dot (JSONParser.generateAccessPath p)
  = lit "data" ++ concat (map member_access p).
Proof.
  unfold JSONParser.generateAccessPath.
  destruct (Nat.eqb_spec (length p) 0) as [Hz|Hnz].
  - destruct p; [reflexivity|discriminate].
  - pose proof (fold_append_segment_dot p (lit "data", lit "data", lit "data")) as Hd.
    destruct (fold_left JSONParser.append_segment p (lit "data", lit "data", lit "data"))
      as [[d b] o]. exact Hd.
Qed.

(** X10: the dot notation of a path extends the dot notation of each of
    its prefixes, segment by segment. *)
Theorem generateAccessPath_extends (p q : Path) :
  JSONParser.dot (JSONParser.generateAccessPath (p ++ q))
  = JSONParser.dot (JSONParser.generateAccessPath p) ++ concat (map member_access q).
Proof.
  rewrite !dot_of_path, map_app, concat_app. by rewrite <- app_assoc.
Qed.

Lemma join_empty (parts : list jsstring) : join [] parts = concat parts.
Proof.
  induction parts as [|a [|b parts] IH]; [reflexivity|simpl; by rewrite app_nil_r|].
  change (join [] (a :: b :: parts)) with (a ++ [] ++ join [] (b :: parts)).
  rewrite IH. reflexivity.
Qed.

Lemma propertyAccessPath_members (props : Path) :
  forallb identifier_key props = true ->
  propertyAccessPath props = concat (map member_access props).
Proof.
  intros Hid. unfold propertyAccessPath.
  destruct props as [|seg props]; [reflexivity|].
  change (0 <? length (seg :: props)) with true. cbv iota.
  rewrite join_empty. f_equal.
  apply map_ext_in. intros s Hs.
  rewrite forallb_forall in Hid. specialize (Hid s Hs).
  destruct s as [k|i]; [|discriminate]. simpl in Hid.
  unfold property_access, member_access. simpl. by rewrite Hid.
Qed.

Lemma generatePropertyInArrayExamples_length (st : State) (ctx : ArrayContext) :
  5 <= length (generatePropertyInArrayExamples st ctx) <= 9.
Proof.
  unfold generatePropertyInArrayExamples.
  destruct (currentValue st) as [[| | | | |]|]; rewrite !length_app; cbn [length]; lia.
Qed.

Lemma standard_examples_length (st : State) :
  4 <= length (standard_examples st) <= 9.
Proof.
  unfold standard_examples. rewrite !length_app.
  set (extra := if str_eqb _ _ then _ else _).
  assert (Hextra : length extra <= 4).
  { subst extra. destruct (str_eqb _ (lit "array")); [cbn [generateArrayExamples length]; lia|].
    destruct (str_eqb _ (lit "object")); [|simpl; lia].
    unfold generateObjectExamples. destruct (0 <? _); cbn [length]; lia. }
  destruct (1 <? length (currentPath st)); cbn [length]; lia.
Qed.

(** X11: for a selected path that leads to a value of the document, and
    without a document, generating the examples returns between one and
    nine of them. *)
Theorem generateCode_returns_examples (st : State) (data : option JsonValue) :
  (forall d, data = Some d ->
     exists selected, getValueAtPath d (currentPath st) = Return (Some selected)) ->
  exists examples,
    generateCode st data = Return examples /\ 1 <= length examples <= 9.
Proof.
  intros _. unfold generateCode.
  destruct (length (currentPath st) =? 0).
  { eexists. split; [reflexivity|]. cbn [generateRootCode length]. lia. }
  assert (Hdetected : exists r,
             match data with
             | Some d => if truthy d then detectArrayContext st d else Return None
             | None => Return None
             end = Return r).
  { destruct data as [d|]; [|eauto]. destruct (truthy d); [|eauto].
    apply detectArrayContext_returns. }
  destruct Hdetected as [r ->].
  pose proof (standard_examples_length st) as Hstd.
  destruct r as [ctx|]; [|eexists; split; [reflexivity|lia]].
  pose proof (generatePropertyInArrayExamples_length st ctx) as Hprop.
  destruct (0 <? length (propertyPath ctx)); eexists; (split; [reflexivity|lia]).
Qed.

(** X12: for a property of the first item of an array that identifiers
    lead to, the first example is the dot notation of the selected
    path, as it is outside arrays. *)
Theorem first_item_access_is_dot_notation
    (st : State) (data : JsonValue) (ctx : ArrayContext) :
  detectArrayContext st data = Return (Some ctx) ->
  currentPath st !! length (arrayPath ctx) = Some (Idx 0) ->
  propertyPath ctx <> [] ->
  forallb identifier_key (propertyPath ctx) = true ->
  exists first rest,
    generateCode st (Some data) = Return (first :: rest)
    /\ code first
       = lit "const value = " ++ JSONParser.dot (JSONParser.generateAccessPath (currentPath st))
           ++ lit ";"
    /\ Some (code first) = option_map code (head (standard_examples st)).
Proof.
  intros Hdetect Hzero Hne Hid.
  destruct (detectArrayContext_cut st data ctx Hdetect)
    as (j & items & Hj & Harr & Hprop & Hread).
  assert (Htruthy : truthy data = true).
  { destruct (truthy data) eqn:Ht; [reflexivity|].
    exfalso. exact (falsy_reaches_no_array _ _ _ Ht Hread). }
  assert (Hlenj : length (arrayPath ctx) = j).
  { rewrite Harr, length_take. lia. }
  rewrite Hlenj in Hzero.
  assert (Hpath : currentPath st = arrayPath ctx ++ Idx 0 :: propertyPath ctx).
  { rewrite Harr, Hprop. rewrite <- (take_drop_middle _ _ _ Hzero) at 1.
    by replace (j + 1) with (S j) by lia. }
  assert (Hgen : generateCode st (Some data)
                 = Return (generatePropertyInArrayExamples st ctx)).
  { unfold generateCode.
    destruct (Nat.eqb_spec (length (currentPath st)) 0) as [Hz|_]; [lia|].
    rewrite Htruthy, Hdetect.
    destruct (Nat.ltb_spec 0 (length (propertyPath ctx))) as [_|Hp]; [reflexivity|].
    destruct (propertyPath ctx); [done|simpl in Hp; lia]. }
  assert (Hcode : lit "const value = "
                    ++ JSONParser.dot (JSONParser.generateAccessPath (arrayPath ctx))
                    ++ lit "[" ++ decimal 0 ++ lit "]"
                    ++ propertyAccessPath (propertyPath ctx) ++ lit ";"
                  = lit "const value = "
                      ++ JSONParser.dot (JSONParser.generateAccessPath (currentPath st))
                      ++ lit ";").
  { rewrite Hpath. rewrite propertyAccessPath_members by exact Hid.
    rewrite (dot_of_path (_ ++ _)), dot_of_path, map_app, concat_app.
    cbn [map concat member_access]. by rewrite <- !app_assoc. }
  rewrite Hgen. unfold generatePropertyInArrayExamples, standard_examples.
  replace (str_eqb (JSONParser.dot (JSONParser.generateAccessPath (arrayPath ctx))) [])
    with false by (rewrite dot_of_path; reflexivity).
  set (A := JSONParser.dot (JSONParser.generateAccessPath (arrayPath ctx))) in *.
  set (P := propertyAccessPath (propertyPath ctx)) in *.
  set (D := JSONParser.dot (JSONParser.generateAccessPath (currentPath st))) in *.
  clearbody A P D.
  eexists _, _. split; [reflexivity|]. cbn [code].
  split; [exact Hcode|]. cbn [head app option_map code].
  f_equal. exact Hcode.
Qed.

End Examples.

Lemma generateCode_returns_examples_witness :
  exists examples,
    @CodeHelper.generateCode RefHost.host age_selection (Some users_document)
    = Return examples
    /\ 1 <= length examples <= 9.
Proof.
  apply (@generateCode_returns_examples RefHost.host age_selection (Some users_document)).
  intros d [= <-]. exists (JNum (number_of_nat 30)). vm_compute. reflexivity.
Defined.

Lemma first_item_access_is_dot_notation_witness :
  exists first rest,
    @CodeHelper.generateCode RefHost.host age_selection (Some users_document)
    = Return (first :: rest)
    /\ CodeHelper.code first
       = lit "const value = "
           ++ JSONParser.dot
                (JSONParser.generateAccessPath (CodeHelper.currentPath age_selection))
           ++ lit ";"
    /\ Some (CodeHelper.code first)
       = option_map CodeHelper.code (head (CodeHelper.standard_examples age_selection)).
Proof.
  eapply (@first_item_access_is_dot_notation RefHost.host age_selection users_document).
  - vm_compute. reflexivity.
  - vm_compute. reflexivity.
  - vm_compute. discriminate.
  - vm_compute. reflexivity.
Defined.

(** ** Search *)
Section Search.
Import Visualizer JSONParser.
Context `{Host} `{Casing}.

(** A loop whose body appends to a part of its state. *)
Lemma for_indexed_measure {A St B} (q : St -> list B) (body : St -> nat -> A -> St)
    (g : nat -> A -> list B) (l : list A) :
  Forall (fun x => forall i st, q (body st i x) = q st ++ g i x) l ->
  forall i st,
    q (for_indexed body i l st)
    = q st ++ for_indexed (fun acc i x => acc ++ g i x) i l [].
Proof.
  induction 1 as [|x l Hx _ IH]; intros i st; simpl; [by rewrite app_nil_r|].
  rewrite IH, Hx, (for_indexed_shift g l (S i) (g i x)). by rewrite <- app_assoc.
Qed.

Lemma fold_left_measure {A St B} (q : St -> list B) (body : St -> A -> St)
    (g : A -> list B) (l : list A) :
  Forall (fun x => forall st, q (body st x) = q st ++ g x) l ->
  forall st,
    q (fold_left body l st) = q st ++ fold_left (fun acc x => acc ++ g x) l [].
Proof.
  induction 1 as [|x l Hx _ IH]; intros st; simpl; [by rewrite app_nil_r|].
  rewrite IH, Hx, (fold_left_shift g l (g x)). by rewrite <- app_assoc.
Qed.

Lemma map_for_indexed {A B C} (h : B -> C) (g : nat -> A -> list B) (l : list A) :
  forall i,
    map h (for_indexed (fun acc i x => acc ++ g i x) i l [])
    = for_indexed (fun acc i x => acc ++ map h (g i x)) i l [].
Proof.
  induction l as [|x l IH]; intros i; simpl; [reflexivity|].
  rewrite for_indexed_shift, map_app, IH.
  symmetry. apply (for_indexed_shift (fun i x => map h (g i x))).
Qed.

Lemma map_fold_left_app {A B C} (h : B -> C) (g : A -> list B) (l : list A) :
  map h (fold_left (fun acc x => acc ++ g x) l [])
  = fold_left (fun acc x => acc ++ map h (g x)) l [].
Proof.
  induction l as [|x l IH]; simpl; [reflexivity|].
  rewrite fold_left_shift, map_app, IH.
  symmetry. apply (fold_left_shift (fun x => map h (g x))).
Qed.


Lemma search_traverse_unfold term cs obj p results :
  search_traverse term cs obj p results =
  match obj with
  | JArr items =>
      for_indexed
        (fun results i v =>
           let results :=
             if includes (compare_form cs (decimal i)) term
             then results ++ [key_hit (p ++ [Idx i], v)]
             else results in
           search_traverse term cs v (p ++ [Idx i]) results)
        0 items results
  | JObj props =>
      fold_left
        (fun results kv =>
           let results :=
             if includes (compare_form cs (fst kv)) term
             then results ++ [key_hit (p ++ [Key (fst kv)], snd kv)]
             else results in
           search_traverse term cs (snd kv) (p ++ [Key (fst kv)]) results)
        props results
  | _ =>
      if includes (compare_form cs (String_of obj)) term
      then results ++ [value_hit (p, obj)]
      else results
  end.
Proof. destruct obj; reflexivity. Qed.

Lemma value_hits_traverse term cs v :
  forall p results,
    List.filter is_value_hit (search_traverse term cs v p results)
    = List.filter is_value_hit results
        ++ map value_hit
             (List.filter
                (fun node => includes (compare_form cs (String_of (snd node))) term)
                (leaves v p)).
Proof.
  assert (Hleaf : forall x p results,
             is_leaf x = true ->
             List.filter is_value_hit
               (if includes (compare_form cs (String_of x)) term
                then results ++ [value_hit (p, x)] else results)
             = List.filter is_value_hit results
                 ++ map value_hit
                      (List.filter
                         (fun node => includes (compare_form cs (String_of (snd node))) term)
                         [(p, x)])).
  { intros x p results _. cbn [List.filter snd].
    destruct (includes _ term); [|by rewrite app_nil_r].
    by rewrite List.filter_app. }
  assert (Hkey : forall (b : bool) node results,
             List.filter is_value_hit (if b then results ++ [key_hit node] else results)
             = List.filter is_value_hit results).
  { intros [] node results; [|reflexivity].
    rewrite List.filter_app. cbn [List.filter]. by rewrite app_nil_r. }
  induction v as [| | | |items IH|props IH] using JsonValue_nested_ind;
    intros p results; rewrite search_traverse_unfold; try (by apply Hleaf).
  - rewrite (for_indexed_measure (List.filter is_value_hit) _
               (fun i x =>
                  map value_hit
                    (List.filter
                       (fun node => includes (compare_form cs (String_of (snd node))) term)
                       (leaves x (p ++ [Idx i]))))).
    + f_equal. cbn [leaves].
      rewrite (filter_for_indexed _ (fun i x => leaves x (p ++ [Idx i]))).
      by rewrite map_for_indexed.
    + eapply Forall_impl; [exact IH|]. intros x Hx i st. cbv beta zeta.
      by rewrite Hx, Hkey.
  - rewrite (fold_left_measure (List.filter is_value_hit) _
               (fun kv =>
                  map value_hit
                    (List.filter
                       (fun node => includes (compare_form cs (String_of (snd node))) term)
                       (leaves (snd kv) (p ++ [Key (fst kv)]))))).
    + f_equal. cbn [leaves].
      rewrite (filter_fold_left_app _ (fun kv => leaves (snd kv) (p ++ [Key (fst kv)]))).
      by rewrite map_fold_left_app.
    + eapply Forall_impl; [exact IH|]. intros kv Hx st. cbv beta zeta.
      by rewrite Hx, Hkey.
Qed.

Lemma table_row_key_snoc (p : Path) (seg : PathSegment) (x : JsonValue) :
  TableVisualizer.key (table_row (p ++ [seg], x)) = segment_string seg.
Proof. unfold table_row. cbn [TableVisualizer.key fst]. by rewrite last_snoc. Qed.

Lemma key_hits_traverse term cs v :
  forall p results,
    List.filter is_key_hit (search_traverse term cs v p results)
    = List.filter is_key_hit results
        ++ map key_hit
             (List.filter
                (fun node =>
                   includes (compare_form cs (TableVisualizer.key (table_row node))) term)
                (descendants v p)).
Proof.
  assert (Hleaf : forall (b : bool) node results,
             List.filter is_key_hit (if b then results ++ [value_hit node] else results)
             = List.filter is_key_hit results ++ []).
  { intros [] node results; [|by rewrite app_nil_r].
    rewrite List.filter_app. reflexivity. }
  assert (Hkey : forall (b : bool) node results,
             List.filter is_key_hit (if b then results ++ [key_hit node] else results)
             = List.filter is_key_hit results ++ (if b then [key_hit node] else [])).
  { intros [] node results; [|by rewrite app_nil_r].
    rewrite List.filter_app. reflexivity. }
  induction v as [| | | |items IH|props IH] using JsonValue_nested_ind;
    intros p results; rewrite search_traverse_unfold; try (by apply Hleaf).
  - rewrite (for_indexed_measure (List.filter is_key_hit) _
               (fun i x =>
                  map key_hit
                    (List.filter
                       (fun node =>
                          includes (compare_form cs (TableVisualizer.key (table_row node)))
                            term)
                       ((p ++ [Idx i], x) :: descendants x (p ++ [Idx i]))))).
    + f_equal. cbn [descendants].
      rewrite (filter_for_indexed _
                 (fun i x => (p ++ [Idx i], x) :: descendants x (p ++ [Idx i]))).
      by rewrite map_for_indexed.
    + eapply Forall_impl; [exact IH|]. intros x Hx i st. cbv beta zeta.
      rewrite Hx, Hkey. rewrite <- app_assoc. f_equal.
      cbn [List.filter]. rewrite table_row_key_snoc. cbn [segment_string].
      by destruct (includes (compare_form cs (decimal i)) term).
  - rewrite (fold_left_measure (List.filter is_key_hit) _
               (fun kv =>
                  map key_hit
                    (List.filter
                       (fun node =>
                          includes (compare_form cs (TableVisualizer.key (table_row node)))
                            term)
                       ((p ++ [Key (fst kv)], snd kv)
                          :: descendants (snd kv) (p ++ [Key (fst kv)]))))).
    + f_equal. cbn [descendants].
      rewrite (filter_fold_left_app _
                 (fun kv => (p ++ [Key (fst kv)], snd kv)
                              :: descendants (snd kv) (p ++ [Key (fst kv)]))).
      by rewrite map_fold_left_app.
    + eapply Forall_impl; [exact IH|]. intros kv Hx st. cbv beta zeta.
      rewrite Hx, Hkey. rewrite <- app_assoc. f_equal.
      cbn [List.filter]. rewrite table_row_key_snoc. cbn [segment_string].
      by destruct (includes (compare_form cs (fst kv)) term).
Qed.

Lemma other_hits_traverse term cs v :
  forall p results,
    List.filter (fun h => negb (is_value_hit h) && negb (is_key_hit h))
      (search_traverse term cs v p results)
    = List.filter (fun h => negb (is_value_hit h) && negb (is_key_hit h)) results.
Proof.
  set (other := fun h => negb (is_value_hit h) && negb (is_key_hit h)).
  assert (Hleaf : forall (b : bool) node results,
             List.filter other (if b then results ++ [value_hit node] else results)
             = List.filter other results).
  { intros [] node results; [|reflexivity].
    rewrite List.filter_app. cbn [List.filter]. by rewrite app_nil_r. }
  assert (Hkey : forall (b : bool) node results,
             List.filter other (if b then results ++ [key_hit node] else results)
             = List.filter other results).
  { intros [] node results; [|reflexivity].
    rewrite List.filter_app. cbn [List.filter]. by rewrite app_nil_r. }
  induction v as [| | | |items IH|props IH] using JsonValue_nested_ind;
    intros p results; rewrite search_traverse_unfold; try (by apply Hleaf).
  - rewrite (for_indexed_measure (List.filter other) _ (fun _ _ => [])).
    + assert (Hnil : forall (l : list JsonValue) i,
                 for_indexed (fun (acc : list Hit.t) (_ : nat) (_ : JsonValue) => acc ++ [])
                   i l [] = []).
      { induction l as [|x l IHl]; intros i; [reflexivity|]. simpl. apply IHl. }
      by rewrite Hnil, app_nil_r.
    + eapply Forall_impl; [exact IH|]. intros x Hx i st. cbv beta zeta.
      by rewrite Hx, Hkey, app_nil_r.
  - rewrite (fold_left_measure (List.filter other) _ (fun _ => [])).
    + assert (Hnil : forall (l : list (jsstring * JsonValue)),
                 fold_left (fun (acc : list Hit.t) (_ : jsstring * JsonValue) => acc ++ [])
                   l [] = []).
      { induction l as [|x l IHl]; [reflexivity|]. simpl. apply IHl. }
      by rewrite Hnil, app_nil_r.
    + eapply Forall_impl; [exact IH|]. intros kv Hx st. cbv beta zeta.
      by rewrite Hx, Hkey, app_nil_r.
Qed.

(** X13: the value hits of a search are the leaves whose text holds the
    term, in the order of the document. *)
Theorem search_value_hits_are_matching_leaves
    (data : JsonValue) (searchTerm : jsstring) (caseSensitive : bool) :
  List.filter is_value_hit (search data searchTerm caseSensitive)
  = map value_hit
      (List.filter
         (fun node =>
            includes (compare_form caseSensitive (String_of (snd node)))
              (compare_form caseSensitive searchTerm))
         (leaves data [])).
Proof. unfold search. by rewrite value_hits_traverse. Qed.

(** X14: the key hits of a search are the rows of the flat table whose key
    holds the term, in the same order. *)
Theorem search_key_hits_are_matching_rows
    (data : JsonValue) (searchTerm : jsstring) (caseSensitive : bool) :
  map (fun h => (Hit.path h, Hit.value h))
    (List.filter is_key_hit (search data searchTerm caseSensitive))
  = map (fun row => (TableVisualizer.path row, TableVisualizer.value row))
      (List.filter
         (fun row =>
            includes (compare_form caseSensitive (TableVisualizer.key row))
              (compare_form caseSensitive searchTerm))
         (TableVisualizer.extractRows data [] [])).
Proof.
  unfold search. rewrite key_hits_traverse, extractRows_descendants.
  cbn [List.filter app].
  generalize (descendants data []). intros l.
  induction l as [|node l IH]; [reflexivity|].
  cbn [List.filter map].
  destruct (includes (compare_form caseSensitive (TableVisualizer.key (table_row node))) _);
    cbn [map]; rewrite IH; [|reflexivity].
  by destruct node.
Qed.

(** X15: for every value whose objects have distinct keys, every hit of a
    search can be read back at its path. *)
Theorem search_hits_resolve
    (data : JsonValue) (searchTerm : jsstring) (caseSensitive : bool) :
  distinct_keys data = true ->
  Forall (fun h => getValueAtPath data (Hit.path h) = Return (Some (Hit.value h)))
    (search data searchTerm caseSensitive).
Proof.
  intros Hwf. rewrite Forall_forall. intros h Hin.
  apply list_elem_of_In in Hin.
  destruct (is_value_hit h) eqn:Hv.
  - assert (Hf : h ∈ List.filter is_value_hit (search data searchTerm caseSensitive)).
    { apply list_elem_of_In, filter_In. by split. }
    unfold search in Hf. rewrite value_hits_traverse in Hf.
    apply list_elem_of_fmap in Hf as ([q y] & -> & Hnode).
    apply list_elem_of_In, filter_In in Hnode as [Hnode _].
    apply list_elem_of_In in Hnode.
    destruct (leaves_resolve data Hwf [] q y Hnode) as (s & -> & Hs). exact Hs.
  - destruct (is_key_hit h) eqn:Hk.
    + assert (Hf : h ∈ List.filter is_key_hit (search data searchTerm caseSensitive)).
      { apply list_elem_of_In, filter_In. by split. }
      unfold search in Hf. rewrite key_hits_traverse in Hf.
      apply list_elem_of_fmap in Hf as ([q y] & -> & Hnode).
      apply list_elem_of_In, filter_In in Hnode as [Hnode _].
      apply list_elem_of_In in Hnode.
      destruct (descendants_resolve data Hwf [] q y Hnode) as (s & _ & -> & Hs). exact Hs.
    + exfalso.
      assert (Hf : h ∈ List.filter (fun h => negb (is_value_hit h) && negb (is_key_hit h))
                     (search data searchTerm caseSensitive)).
      { apply list_elem_of_In, filter_In. split; [exact Hin|]. by rewrite Hv, Hk. }
      unfold search in Hf. rewrite other_hits_traverse in Hf.
      by apply elem_of_nil in Hf.
Qed.

End Search.

Lemma search_hits_resolve_witness :
  distinct_keys users_document = true
  /\ Forall (fun h =>
               Visualizer.getValueAtPath users_document (JSONParser.Hit.path h)
               = Return (Some (JSONParser.Hit.value h)))
       (@JSONParser.search RefHost.host RefHost.casing users_document (lit "A") false).
Proof.
  split; [reflexivity|].
  apply (@search_hits_resolve RefHost.host RefHost.casing). reflexivity.
Defined.

(** ** The graph *)
Section Graph.
Import Visualizer GraphVisualizer.
Variable expandedNodes : gset jsstring.

Lemma fold_left_for_indexed {A St} (f : St -> A -> St) (l : list A) :
  forall i st, fold_left f l st = for_indexed (fun st _ x => f st x) i l st.
Proof. induction l as [|x l IH]; intros i st; simpl; [reflexivity|apply IH]. Qed.

Lemma nodeId_snoc (p : Path) (seg : PathSegment) :
  join (lit ".") (map segment_string (p ++ [seg])) = nodeId (p ++ [seg]).
Proof.
  unfold nodeId. rewrite length_app. simpl.
  by replace (length p + 1 =? 0) with false by (symmetry; apply Nat.eqb_neq; lia).
Qed.

Lemma is_container_branch (v : JsonValue) : is_container v = negb (is_leaf v).
Proof. by destruct v. Qed.

Lemma extractNodesLazy_unfold data p nodes depth :
  extractNodesLazy expandedNodes data p nodes depth =
  let isExpanded := bool_decide (nodeId p ∈ expandedNodes) in
  let nodes :=
    nodes ++ [{| id := nodeId p;
                 label := match list.last p with
                          | Some key => key
                          | None => Key (lit "root")
                          end;
                 value := data;
                 type := getType data;
                 path := p;
                 isExpandable := is_container data;
                 isExpanded := isExpanded |}] in
  if is_container data && isExpanded && (depth <? 5) then
    match data with
    | JArr items =>
        for_indexed
          (fun nodes i v => extractNodesLazy expandedNodes v (p ++ [Idx i]) nodes (depth + 1))
          0 items nodes
    | JObj props =>
        fold_left
          (fun nodes kv =>
             extractNodesLazy expandedNodes (snd kv) (p ++ [Key (fst kv)]) nodes (depth + 1))
          props nodes
    | _ => nodes
    end
  else nodes.
Proof. destruct data; reflexivity. Qed.

Lemma extractLinksLazy_unfold data p links depth :
  extractLinksLazy expandedNodes data p links depth =
  if is_container data && bool_decide (nodeId p ∈ expandedNodes) && (depth <? 5) then
    match data with
    | JArr items =>
        for_indexed
          (fun links i v =>
             extractLinksLazy expandedNodes v (p ++ [Idx i])
               (links ++ [{| source := nodeId p;
                             target := join (lit ".") (map segment_string (p ++ [Idx i])) |}])
               (depth + 1))
          0 items links
    | JObj props =>
        fold_left
          (fun links kv =>
             extractLinksLazy expandedNodes (snd kv) (p ++ [Key (fst kv)])
               (links ++ [{| source := nodeId p;
                             target := join (lit ".")
                                         (map segment_string (p ++ [Key (fst kv)])) |}])
               (depth + 1))
          props links
    | _ => links
    end
  else links.
Proof. destruct data; reflexivity. Qed.

(** The two walks over the children of a node. *)
Lemma graph_children {A} (seg : nat -> A -> PathSegment) (val : A -> JsonValue)
    (p : Path) (d : nat) (l : list A) :
  Forall (fun x =>
            forall q d', exists root N L,
              (forall nodes,
                 extractNodesLazy expandedNodes (val x) q nodes d' = nodes ++ root :: N)
              /\ (forall links,
                    extractLinksLazy expandedNodes (val x) q links d' = links ++ L)
              /\ id root = nodeId q
              /\ map target L = map id N
              /\ Forall (fun lk => source lk ∈ nodeId q :: map id N) L) l ->
  forall i, exists N L,
    (forall nodes,
       for_indexed
         (fun nodes i x => extractNodesLazy expandedNodes (val x) (p ++ [seg i x]) nodes (d + 1))
         i l nodes = nodes ++ N)
    /\ (forall links,
          for_indexed
            (fun links i x =>
               extractLinksLazy expandedNodes (val x) (p ++ [seg i x])
                 (links ++ [{| source := nodeId p;
                               target := join (lit ".")
                                           (map segment_string (p ++ [seg i x])) |}])
                 (d + 1))
            i l links = links ++ L)
    /\ map target L = map id N
    /\ Forall (fun lk => source lk ∈ nodeId p :: map id N) L.
Proof.
  induction 1 as [|x l Hx _ IH]; intros i.
  - exists [], []. split_and!; [intros; by rewrite app_nil_r|intros; by rewrite app_nil_r|done|done].
  - destruct (Hx (p ++ [seg i x]) (d + 1)) as (root & N1 & L1 & Hn1 & Hl1 & Hid & Ht1 & Hs1).
    destruct (IH (S i)) as (N2 & L2 & Hn2 & Hl2 & Ht2 & Hs2).
    exists (root :: N1 ++ N2),
           ({| source := nodeId p;
               target := join (lit ".") (map segment_string (p ++ [seg i x])) |}
              :: L1 ++ L2).
    split_and!.
    + intros nodes. simpl. rewrite Hn1, Hn2. by rewrite <- app_assoc.
    + intros links. simpl. rewrite Hl1, Hl2. by rewrite <- !app_assoc.
    + cbn [map target]. rewrite nodeId_snoc, Hid. f_equal.
      by rewrite !map_app, Ht1, Ht2.
    + apply Forall_cons. split; [cbn [source]; apply list_elem_of_here|].
      apply Forall_app. split.
      * eapply Forall_impl; [exact Hs1|]. intros lk Hlk. cbv beta in *. cbn [map].
        rewrite Hid. apply list_elem_of_further. rewrite map_app.
        apply elem_of_cons in Hlk as [->|Hlk]; [apply list_elem_of_here|].
        apply list_elem_of_further, elem_of_app. by left.
      * eapply Forall_impl; [exact Hs2|]. intros lk Hlk. cbv beta in *. cbn [map].
        apply elem_of_cons in Hlk as [->|Hlk]; [apply list_elem_of_here|].
        do 2 apply list_elem_of_further. rewrite map_app. apply elem_of_app. by right.
Qed.

Lemma graph_below (v : JsonValue) :
  forall p d, exists root N L,
    (forall nodes, extractNodesLazy expandedNodes v p nodes d = nodes ++ root :: N)
    /\ (forall links, extractLinksLazy expandedNodes v p links d = links ++ L)
    /\ id root = nodeId p
    /\ map target L = map id N
    /\ Forall (fun lk => source lk ∈ nodeId p :: map id N) L.
Proof.
  assert (Hstop : forall v p d,
             is_container v && bool_decide (nodeId p ∈ expandedNodes) && (d <? 5) = false ->
             exists root N L,
               (forall nodes, extractNodesLazy expandedNodes v p nodes d = nodes ++ root :: N)
               /\ (forall links, extractLinksLazy expandedNodes v p links d = links ++ L)
               /\ id root = nodeId p
               /\ map target L = map id N
               /\ Forall (fun lk => source lk ∈ nodeId p :: map id N) L).
  { intros v0 p d Hc. eexists _, [], [].
    split; [intros nodes; rewrite extractNodesLazy_unfold; cbv zeta; rewrite Hc;
            reflexivity|].
    split; [intros links; rewrite extractLinksLazy_unfold, Hc; by rewrite app_nil_r|].
    split; [reflexivity|]. split; done. }
  induction v as [| | | |items IH|props IH] using JsonValue_nested_ind; intros p d;
    try (apply Hstop; reflexivity).
  - destruct (is_container (JArr items) && bool_decide (nodeId p ∈ expandedNodes) && (d <? 5))
      eqn:Hc; [|by apply Hstop].
    destruct (graph_children (fun i _ => Idx i) (fun x => x) p d items IH 0)
      as (N & L & Hn & Hl & Ht & Hs).
    eexists _, N, L.
    split; [intros nodes; rewrite extractNodesLazy_unfold; cbv zeta; rewrite Hc;
            rewrite Hn; by rewrite <- app_assoc|].
    split; [intros links; rewrite extractLinksLazy_unfold, Hc; apply Hl|].
    split; [reflexivity|]. split; [exact Ht|exact Hs].
  - destruct (is_container (JObj props) && bool_decide (nodeId p ∈ expandedNodes) && (d <? 5))
      eqn:Hc; [|by apply Hstop].
    destruct (graph_children (fun _ kv => Key (fst kv)) snd p d props IH 0)
      as (N & L & Hn & Hl & Ht & Hs).
    eexists _, N, L.
    split; [intros nodes; rewrite extractNodesLazy_unfold; cbv zeta; rewrite Hc;
            rewrite (fold_left_for_indexed _ _ 0); rewrite Hn; by rewrite <- app_assoc|].
    split; [intros links; rewrite extractLinksLazy_unfold, Hc;
            rewrite (fold_left_for_indexed _ _ 0); apply Hl|].
    split; [reflexivity|]. split; [exact Ht|exact Hs].
Qed.

(** X16: whatever nodes are expanded, the links of the graph join the
    nodes of the graph: the first node is the root, link by link the
    targets are the nodes after it, and every source is a node. *)
Theorem graph_links_join_nodes (data : JsonValue) :
  let nodes := extractNodesLazy expandedNodes data [] [] 0 in
  let links := extractLinksLazy expandedNodes data [] [] 0 in
  head (map id nodes) = Some (lit "root")
  /\ map target links = tail (map id nodes)
  /\ Forall (fun lk => source lk ∈ map id nodes) links.
Proof.
  destruct (graph_below data [] 0) as (root & N & L & Hn & Hl & Hid & Ht & Hs).
  cbv zeta. rewrite Hn, Hl. cbn [app map head tail]. rewrite Hid.
  split_and!; [reflexivity|exact Ht|exact Hs].
Qed.

Lemma elem_of_for_indexed {A B} (body : list B -> nat -> A -> list B)
    (Q : nat -> A -> B -> Prop) (l : list A) :
  Forall (fun x => forall i st y, y ∈ body st i x -> y ∈ st \/ Q i x y) l ->
  forall i st y,
    y ∈ for_indexed body i l st ->
    y ∈ st \/ exists k x, l !! k = Some x /\ Q (i + k) x y.
Proof.
  induction 1 as [|x l Hx _ IH]; intros i st y Hy; simpl in Hy; [by left|].
  destruct (IH _ _ _ Hy) as [Hin|(k & x' & Hk & HQ)].
  - destruct (Hx _ _ _ Hin) as [Hst|HQ]; [by left|].
    right. exists 0, x. rewrite Nat.add_0_r. by split.
  - right. exists (S k), x'. split; [exact Hk|].
    by replace (i + S k) with (S i + k) by lia.
Qed.

Lemma graph_nodes_below (v : JsonValue) :
  distinct_keys v = true ->
  forall p d nodes n,
    d <= 5 ->
    n ∈ extractNodesLazy expandedNodes v p nodes d ->
    n ∈ nodes
    \/ exists s, path n = p ++ s
         /\ d + length s <= 5
         /\ id n = nodeId (path n)
         /\ lookup_all (Some v) s = Return (Some (value n)).
Proof.
  assert (Hroot : forall v p d (nodes : list Node) n,
             d <= 5 ->
             n ∈ nodes ++ [{| id := nodeId p;
                              label := match list.last p with
                                       | Some key => key
                                       | None => Key (lit "root")
                                       end;
                              value := v;
                              type := getType v;
                              path := p;
                              isExpandable := is_container v;
                              isExpanded := bool_decide (nodeId p ∈ expandedNodes) |}] ->
             n ∈ nodes
             \/ exists s, path n = p ++ s
                  /\ d + length s <= 5
                  /\ id n = nodeId (path n)
                  /\ lookup_all (Some v) s = Return (Some (value n))).
  { intros v0 p d nodes n Hd [Hin|Hin]%elem_of_app; [by left|].
    apply list_elem_of_singleton in Hin as ->. right. exists [].
    cbn [path id value]. rewrite app_nil_r. simpl. split_and!; [done|lia|done|done]. }
  induction v as [| | | |items IH|props IH] using JsonValue_nested_ind;
    intros Hwf p d nodes nd Hd; rewrite extractNodesLazy_unfold; cbv zeta;
    try (rewrite is_container_branch; cbn [is_leaf negb andb]; by apply Hroot).
  - destruct (is_container (JArr items) && bool_decide (nodeId p ∈ expandedNodes) && (d <? 5))
      eqn:Hc; [|by apply Hroot].
    apply andb_prop in Hc as [_ Hlt]. apply Nat.ltb_lt in Hlt.
    simpl in Hwf. rewrite forallb_forall in Hwf.
    intros Hin.
    apply (elem_of_for_indexed _
             (fun i x n =>
                exists s, path n = (p ++ [Idx i]) ++ s
                  /\ d + 1 + length s <= 5
                  /\ id n = nodeId (path n)
                  /\ lookup_all (Some x) s = Return (Some (value n)))) in Hin.
    + destruct Hin as [Hin|(k & x & Hk & s & Hp & Hlen & Hid & Hs)]; [by apply Hroot|].
      right. exists (Idx k :: s). rewrite Hp, <- app_assoc. simpl.
      split_and!; [done|lia|by rewrite Hid, Hp, <- app_assoc|by rewrite Hk].
    + rewrite Forall_forall in IH. rewrite Forall_forall. intros x Hx i st y Hy.
      apply (IH x Hx (Hwf x (proj1 (list_elem_of_In _ _) Hx))) in Hy; [exact Hy|lia].
  - destruct (is_container (JObj props) && bool_decide (nodeId p ∈ expandedNodes) && (d <? 5))
      eqn:Hc; [|by apply Hroot].
    apply andb_prop in Hc as [_ Hlt]. apply Nat.ltb_lt in Hlt.
    simpl in Hwf. apply andb_prop in Hwf as [Hnd Hwf]. apply bool_decide_eq_true in Hnd.
    rewrite forallb_forall in Hwf.
    rewrite (fold_left_for_indexed _ _ 0). intros Hin.
    apply (elem_of_for_indexed _
             (fun (_ : nat) kv n =>
                exists s, path n = (p ++ [Key (fst kv)]) ++ s
                  /\ d + 1 + length s <= 5
                  /\ id n = nodeId (path n)
                  /\ lookup_all (Some (snd kv)) s = Return (Some (value n)))) in Hin.
    + destruct Hin as [Hin|(k & [key x] & Hk & s & Hp & Hlen & Hid & Hs)]; [by apply Hroot|].
      right. exists (Key key :: s). rewrite Hp, <- app_assoc. simpl in *.
      assert (Hkx : (key, x) ∈ props) by (eapply list_elem_of_lookup_2; eauto).
      split_and!; [done|lia|by rewrite Hid, Hp, <- app_assoc|].
      by rewrite (own_property_distinct _ _ _ Hnd Hkx).
    + rewrite Forall_forall in IH. rewrite Forall_forall. intros kv Hx i st y Hy.
      apply (IH kv Hx (Hwf kv (proj1 (list_elem_of_In _ _) Hx))) in Hy; [exact Hy|lia].
Qed.

(** X17: for every value whose objects have distinct keys, the graph holds
    no node below depth five, the id of every node is the key of its
    path, and every node can be read back at its path. *)
Theorem graph_nodes_are_shallow (data : JsonValue) :
  distinct_keys data = true ->
  Forall (fun n =>
            length (path n) <= 5
            /\ id n = nodeId (path n)
            /\ getValueAtPath data (path n) = Return (Some (value n)))
    (extractNodesLazy expandedNodes data [] [] 0).
Proof.
  intros Hwf. rewrite Forall_forall. intros n Hn.
  destruct (graph_nodes_below data Hwf [] 0 [] n ltac:(lia) Hn)
    as [Hnil|(s & Hp & Hlen & Hid & Hs)]; [by apply elem_of_nil in Hnil|].
  simpl in Hp. rewrite Hp. split_and!; [lia|by rewrite Hid, Hp|exact Hs].
Qed.

End Graph.

Lemma graph_nodes_are_shallow_witness :
  distinct_keys users_document = true
  /\ Forall (fun n =>
               length (GraphVisualizer.path n) <= 5
               /\ GraphVisualizer.id n = Visualizer.nodeId (GraphVisualizer.path n)
               /\ Visualizer.getValueAtPath users_document (GraphVisualizer.path n)
                  = Return (Some (GraphVisualizer.value n)))
       (GraphVisualizer.extractNodesLazy root_expanded users_document [] [] 0).
Proof.
  split; [reflexivity|].
  apply (graph_nodes_are_shallow root_expanded users_document). reflexivity.
Defined.

(** ** The rules of Phase A *)
Section PhaseARules.
Import JSONRepair.

(** What the rewriting of [[Object]] copies unchanged is in the text. *)
Lemma copied_prefix (w : jsstring) :
  Forall (fun c => c <> 123%N) w ->
  forall s,
    starts_with w (replace_all (literal object_marker (lit "{}")) 0 s) = true ->
    starts_with w s = true.
Proof.
  induction 1 as [|x w Hx _ IH]; intros s Hs; [by destruct s|].
  destruct s as [|c s]; [discriminate|].
  cbn [replace_all] in Hs. unfold literal at 1 in Hs.
  destruct (starts_with object_marker (c :: s)).
  - cbn [lit app starts_with] in Hs. apply andb_prop in Hs as [Hc _].
    apply N.eqb_eq in Hc. by destruct Hx.
  - cbn [starts_with] in *. apply andb_prop in Hs as [Hc Hs].
    rewrite Hc. by rewrite (IH _ Hs).
Qed.

Lemma no_marker_left (s : jsstring) :
  includes (replace_all (literal object_marker (lit "{}")) 0 s) object_marker = false.
Proof.
  remember (length s) as n eqn:Hn.
  assert (Hle : length s <= n) by lia. clear Hn. revert s Hle.
  induction n as [|n IH]; intros [|c s] Hle; try reflexivity; [simpl in Hle; lia|].
  cbn [replace_all]. unfold literal at 1.
  destruct (starts_with object_marker (c :: s)) eqn:Hhere.
  - rewrite replace_all_skip.
    change (lit "{}" ++ ?r) with (123%N :: 125%N :: r).
    cbn [includes]. rewrite IH by (rewrite length_drop; simpl in Hle; lia).
    reflexivity.
  - cbn [includes]. rewrite IH by (simpl in Hle; lia). rewrite orb_false_r.
    destruct (starts_with object_marker
                (c :: replace_all (literal object_marker (lit "{}")) 0 s)) eqn:Hout;
      [|reflexivity].
    exfalso. change object_marker with (91%N :: lit "Object]") in Hout, Hhere.
    cbn [starts_with] in Hout, Hhere. apply andb_prop in Hout as [Hc Hrest].
    rewrite Hc in Hhere. cbn [andb] in Hhere.
    rewrite (copied_prefix (lit "Object]")) in Hhere; [discriminate| |exact Hrest].
    repeat constructor; discriminate.
Qed.

(** X18: the rule for [[[Object]]] never fires: the rule for [[Object]]
    runs first and leaves it nothing to match. *)
Theorem array_marker_rule_is_dead (str : jsstring) (repairs : list jsstring) :
  fixCommonPatterns str repairs
  = rewrite trailing_comma
      (fun n => lit "Removed " ++ decimal n ++ lit " trailing comma(s)")
      (rewrite (literal quoted_object_marker (lit "{}"))
         (fun n => lit "Replaced " ++ decimal n ++ lit " instance(s) of "
                     ++ quoted_object_marker ++ lit " with {}")
         (rewrite (literal object_marker (lit "{}"))
            (fun n => lit "Replaced " ++ decimal n
                        ++ lit " instance(s) of [Object] with {}")
            (str, repairs))).
Proof.
  unfold fixCommonPatterns. cbv zeta. f_equal. f_equal.
  set (first := rewrite (literal object_marker (lit "{}")) _ (str, repairs)).
  assert (Hclean : includes (fst first) object_marker = false).
  { subst first. unfold rewrite.
    destruct (count_matches (literal object_marker (lit "{}")) 0 str) eqn:Hcount.
    - cbn [fst]. rewrite <- (no_match_no_change _ _ Hcount). apply no_marker_left.
    - cbn [fst]. apply no_marker_left. }
  destruct first as [text log]. cbn [fst] in Hclean.
  apply rewrite_without_match, no_occurrence_no_match.
  change array_object_marker with ([91%N] ++ object_marker ++ [93%N]).
  by apply includes_inner.
Qed.

Lemma count_matches_skip (m : matcher) (k : nat) (s : jsstring) :
  count_matches m k s = count_matches m 0 (drop k s).
Proof.
  revert s. induction k as [|k IH]; intros [|c s]; simpl; try reflexivity.
  apply IH.
Qed.

Lemma trailing_comma_count (s : jsstring) :
  length (without_trailing_commas s) + count_matches trailing_comma 0 s = length s.
Proof.
  assert (Hle : length s <= length s) by lia. revert Hle.
  generalize (length s) at 2. intros n. revert s.
  induction n as [|n IH]; intros [|c s] Hle; try reflexivity; [simpl in Hle; lia|].
  cbn [count_matches]. rewrite trailing_comma_spec.
  cbn [without_trailing_commas].
  destruct ((c =? 44)%N && closes_after_blanks s) eqn:Hc.
  - apply andb_prop in Hc as [_ Hc].
    rewrite count_matches_skip, (without_closing_run _ Hc).
    replace (1 + length (space_run s) + 1 - 1) with (S (length (space_run s))) by lia.
    rewrite length_app.
    pose proof (IH (drop (S (length (space_run s))) s)) as Hrest.
    rewrite length_drop in Hrest. specialize (Hrest ltac:(simpl in Hle; lia)).
    pose proof (take_drop (S (length (space_run s))) s) as Hsplit.
    apply (f_equal length) in Hsplit. rewrite length_app, length_drop in Hsplit.
    cbn [length]. lia.
  - cbn [length]. pose proof (IH s ltac:(simpl in Hle; lia)). lia.
Qed.

Lemma only_commas_removed (s : jsstring) :
  List.filter (fun c => negb (c =? 44)%N) (without_trailing_commas s)
  = List.filter (fun c => negb (c =? 44)%N) s.
Proof.
  induction s as [|c s IH]; [reflexivity|].
  cbn [without_trailing_commas List.filter].
  destruct (N.eqb_spec c 44) as [->|Hc]; cbn [andb negb].
  - destruct (closes_after_blanks s); [exact IH|].
    cbn [List.filter]. rewrite N.eqb_refl. exact IH.
  - cbn [List.filter]. rewrite (proj2 (N.eqb_neq _ _) Hc). cbn [negb]. by rewrite IH.
Qed.

(** X19: the count the log gives for the trailing commas is the number of
    code units that were removed, and only commas were removed. *)
Theorem trailing_comma_count_is_exact (s : jsstring) :
  length (replace_all trailing_comma 0 s) + count_matches trailing_comma 0 s = length s
  /\ List.filter (fun c => negb (c =? 44)%N) (replace_all trailing_comma 0 s)
     = List.filter (fun c => negb (c =? 44)%N) s.
Proof.
  rewrite trailing_commas_removed. split; [apply trailing_comma_count|apply only_commas_removed].
Qed.

End PhaseARules.

(** ** A repair that logs nothing *)
Section SilentRepair.
Import JSONRepair.
Context `{Host}.

Lemma rewrite_grows (m : matcher) (describe : nat -> jsstring)
    (st : jsstring * list jsstring) :
  rewrite m describe st = st
  \/ length (snd (rewrite m describe st)) = S (length (snd st)).
Proof.
  destruct st as [text log]. unfold rewrite.
  destruct (count_matches m 0 text); [by left|].
  right. cbn [snd]. rewrite length_app. simpl. lia.
Qed.

Lemma rewrites_silent (m1 m2 m3 m4 : matcher) (d1 d2 d3 d4 : nat -> jsstring)
    (text : jsstring) :
  snd (rewrite m4 d4 (rewrite m3 d3 (rewrite m2 d2 (rewrite m1 d1 (text, []))))) = [] ->
  rewrite m4 d4 (rewrite m3 d3 (rewrite m2 d2 (rewrite m1 d1 (text, [])))) = (text, []).
Proof.
  intros Hlog. apply (f_equal length) in Hlog. cbn [length] in Hlog.
  destruct (rewrite_grows m1 d1 (text, [])) as [H1|H1];
    destruct (rewrite_grows m2 d2 (rewrite m1 d1 (text, []))) as [H2|H2];
    destruct (rewrite_grows m3 d3 (rewrite m2 d2 (rewrite m1 d1 (text, [])))) as [H3|H3];
    destruct (rewrite_grows m4 d4
                (rewrite m3 d3 (rewrite m2 d2 (rewrite m1 d1 (text, []))))) as [H4|H4];
    first
      [ rewrite H4, H3, H2, H1; reflexivity
      | exfalso;
        repeat match goal with
               | Heq : rewrite ?m ?d ?st = ?st |- _ =>
                   apply (f_equal (fun x => length (snd x))) in Heq
               end;
        cbn [snd length] in *; lia ].
Qed.

Lemma fixCommonPatterns_silent (text : jsstring) :
  snd (fixCommonPatterns text []) = [] -> fixCommonPatterns text [] = (text, []).
Proof. unfold fixCommonPatterns. cbv zeta. apply rewrites_silent. Qed.

Lemma structural_loop_silent (k : nat) (st : Loop) :
  length (repairs (structural_loop k st)) = length (repairs st) ->
  structural_loop k st = st.
Proof.
  intros Hlen.
  destruct (structural_loop_steps k st) as (n & _ & Hsteps & _ & _ & Hlog).
  assert (n = 0) as -> by lia.
  inversion Hsteps; subst. congruence.
Qed.

(** X20: a repair that logs nothing has changed nothing. *)
Theorem repair_without_log_keeps_text (text : jsstring) :
  outcome_repairs (repair text) = [] -> repaired (repair text) = text.
Proof.
  unfold repair, fixStructuralErrors, fixStructuralErrors_state.
  destruct (fixCommonPatterns text []) as [text1 log1] eqn:Hphase.
  cbn [repaired outcome_repairs]. intros Hlog.
  destruct (structural_loop_steps maxIterations
              {| result := text1; repairs := log1; iteration := 0 |})
    as (n & _ & _ & _ & _ & Hlen).
  rewrite Hlog in Hlen. cbn [repairs length] in Hlen.
  assert (Hlog1 : log1 = []) by (destruct log1; [reflexivity|simpl in Hlen; lia]).
  subst log1.
  rewrite structural_loop_silent by (rewrite Hlog; reflexivity).
  cbn [result].
  pose proof (fixCommonPatterns_silent text) as Hsilent.
  rewrite Hphase in Hsilent. specialize (Hsilent eq_refl). congruence.
Qed.

End SilentRepair.

Lemma repair_without_log_keeps_text_witness :
  JSONRepair.outcome_repairs (@JSONRepair.repair RefHost.host (lit "[1, 2, 3]")) = []
  /\ JSONRepair.repaired (@JSONRepair.repair RefHost.host (lit "[1, 2, 3]"))
     = lit "[1, 2, 3]".
Proof.
  split; [vm_compute; reflexivity|].
  apply (@repair_without_log_keeps_text RefHost.host). vm_compute. reflexivity.
Defined.

(** ** The offset in a message *)
Section Offsets.
Import JSONRepair.

Lemma uint_units_digits (d : Decimal.uint) : forallb is_digit (uint_units d) = true.
Proof. induction d; cbn [uint_units forallb]; rewrite ?IHd; reflexivity. Qed.

Lemma decimal_nonempty (n : nat) : decimal n <> [].
Proof.
  unfold decimal. destruct (Nat.to_uint n) eqn:E; try discriminate.
  pose proof (Unsigned.of_to n) as Hn. rewrite E in Hn. simpl in Hn. subst n.
  vm_compute in E. discriminate.
Qed.

Lemma digit_run_app (ds post : jsstring) :
  forallb is_digit ds = true -> digit_run post = [] -> digit_run (ds ++ post) = ds.
Proof.
  intros Hds Hpost. induction ds as [|d ds IH]; [exact Hpost|].
  cbn [forallb] in Hds. apply andb_prop in Hds as [Hd Hds].
  cbn [app digit_run]. rewrite Hd. by rewrite IH.
Qed.

Lemma starts_with_long (pat s t : jsstring) :
  length pat <= length s -> starts_with pat (s ++ t) = starts_with pat s.
Proof.
  revert s. induction pat as [|p pat IH]; intros [|c s] Hlen; try reflexivity.
  - simpl in Hlen. lia.
  - cbn [app starts_with]. rewrite IH by (simpl in Hlen; lia). reflexivity.
Qed.

Lemma starts_with_lookup (pat s : jsstring) (i : nat) (c : char16) :
  starts_with pat s = true -> pat !! i = Some c -> s !! i = Some c.
Proof.
  intros [post ->]%starts_with_prefix Hc. by apply lookup_app_l_Some.
Qed.

(** The word of the pattern does not overlap itself. *)
Lemma position_word_no_border (pre rest : jsstring) :
  pre <> [] -> length pre < 9 ->
  starts_with (lit "position ") (pre ++ lit "position " ++ rest) = false.
Proof.
  intros Hne Hlen.
  destruct (starts_with (lit "position ") (pre ++ lit "position " ++ rest)) eqn:Hs;
    [exfalso|reflexivity].
  assert (Hk : is_Some (lit "position " !! length pre)).
  { apply lookup_lt_is_Some. exact Hlen. }
  destruct Hk as [c Hc].
  pose proof (starts_with_lookup _ _ _ _ Hs Hc) as Hat.
  rewrite lookup_app_r in Hat by lia. rewrite Nat.sub_diag in Hat.
  change (lit "position " ++ rest) with (112%N :: lit "osition " ++ rest) in Hat.
  cbn [lookup list_lookup] in Hat. injection Hat as <-.
  destruct pre as [|c1 pre]; [done|]. simpl in Hlen, Hc.
  do 8 (destruct pre as [|? pre]; [vm_compute in Hc; discriminate|simpl in Hlen]).
  lia.
Qed.

Lemma match_position_unfold (message : jsstring) :
  match_position message
  = match position_here message with
    | Some ds => Some ds
    | None =>
        match message with
        | [] => None
        | _ :: rest => match_position rest
        end
    end.
Proof. by destruct message. Qed.

Lemma match_position_found (pre ds post : jsstring) :
  includes pre (lit "position ") = false ->
  ds <> [] -> forallb is_digit ds = true -> digit_run post = [] ->
  match_position (pre ++ lit "position " ++ ds ++ post) = Some ds.
Proof.
  intros Hpre Hne Hds Hpost.
  induction pre as [|c pre IH].
  - rewrite match_position_unfold. unfold position_here.
    cbn [app].
    replace (starts_with (lit "position ") (lit "position " ++ ds ++ post)) with true
      by (symmetry; apply starts_with_prefix; eauto).
    change 9 with (length (lit "position ")). rewrite drop_app_length.
    rewrite digit_run_app by assumption. by destruct ds.
  - cbn [includes] in Hpre. apply orb_false_elim in Hpre as [Hhere Hpre].
    rewrite match_position_unfold. unfold position_here.
    assert (Hno : starts_with (lit "position ")
                    ((c :: pre) ++ lit "position " ++ ds ++ post) = false).
    { destruct (Nat.le_gt_cases 9 (length (c :: pre))) as [Hlong|Hshort].
      - rewrite starts_with_long by exact Hlong. exact Hhere.
      - by apply position_word_no_border. }
    rewrite Hno. cbn [app]. by apply IH.
Qed.

(** X21: both readers of the offset get the number the message gives
    after the word [position]. *)
Theorem offset_is_read_from_message (pre post : jsstring) (n : nat) :
  includes pre (lit "position ") = false ->
  digit_run post = [] ->
  let message := pre ++ lit "position " ++ decimal n ++ post in
  parseError message
  = Some {| position := n; expected := match_expected message; message := message |}
  /\ forall text,
       JSONParser.getErrorLine message text
       = Some (length (split_char newline (substring_to text n))).
Proof.
  intros Hpre Hpost message.
  assert (Hfound : match_position message = Some (decimal n)).
  { apply match_position_found;
      [exact Hpre|apply decimal_nonempty|apply uint_units_digits|exact Hpost]. }
  unfold parseError, JSONParser.getErrorLine. rewrite Hfound, parse_digits_decimal.
  split; [reflexivity|]. intros text. reflexivity.
Qed.

Lemma count_occ_take (s : jsstring) (n : nat) (c : char16) :
  count_occ N.eq_dec (take n s) c <= count_occ N.eq_dec s c.
Proof.
  rewrite <- (take_drop n s) at 2. rewrite count_occ_app. lia.
Qed.

Lemma digit_run_head (s : jsstring) :
  digit_run s <> [] <-> exists d post, is_digit d = true /\ s = d :: post.
Proof.
  destruct s as [|c s]; simpl.
  - split; [done|]. by intros (d & post & _ & ?).
  - destruct (is_digit c) eqn:Hc.
    + split; [by eauto|done].
    + split; [done|]. intros (d & post & Hd & [= -> ->]). congruence.
Qed.

Lemma position_here_found (s : jsstring) :
  position_here s <> None
  <-> exists d post, is_digit d = true /\ s = lit "position " ++ d :: post.
Proof.
  unfold position_here.
  destruct (starts_with (lit "position ") s) eqn:Hs.
  - apply starts_with_prefix in Hs as [rest ->].
    change 9 with (length (lit "position ")). rewrite drop_app_length.
    pose proof (digit_run_head rest) as Hrun.
    destruct (digit_run rest) as [|d ds].
    + split; [done|]. intros (d & post & Hd & Heq).
      apply app_inv_head in Heq. exfalso. apply Hrun; [|reflexivity]. eauto.
    + split; [|done]. intros _.
      destruct Hrun as [(d' & post & Hd & ->) _]; [done|]. eauto.
  - split; [done|]. intros (d & post & _ & ->).
    assert (Ht : starts_with (lit "position ") (lit "position " ++ d :: post) = true)
      by (apply starts_with_prefix; eauto).
    congruence.
Qed.

(** The pattern finds an offset exactly when the word is somewhere
    followed by a digit. *)
Lemma match_position_occurs (message : jsstring) :
  match_position message <> None
  <-> exists pre d post,
        is_digit d = true /\ message = pre ++ lit "position " ++ d :: post.
Proof.
  induction message as [|c message IH].
  - split; [done|]. intros (pre & d & post & _ & Heq).
    apply (f_equal length) in Heq. rewrite !length_app in Heq. simpl in Heq. lia.
  - rewrite match_position_unfold.
    pose proof (position_here_found (c :: message)) as Hhere.
    destruct (position_here (c :: message)) as [ds|].
    + split; [|done]. intros _.
      destruct Hhere as [(d & post & Hd & Heq) _]; [done|].
      exists [], d, post. by split.
    + rewrite IH. split.
      * intros (pre & d & post & Hd & ->).
        exists (c :: pre), d, post. by split.
      * intros (pre & d & post & Hd & Heq). destruct pre as [|c' pre].
        -- exfalso. apply Hhere; [|reflexivity]. eauto.
        -- injection Heq as _ Heq. exists pre, d, post. by split.
Qed.

(** X22: the line reported for a failure is a line of the text, and a
    line is reported exactly when the message holds the word [position]
    followed by a digit. *)
Theorem getErrorLine_within_text (message text : jsstring) :
  match JSONParser.getErrorLine message text with
  | Some line =>
      1 <= line <= length (split_char newline text)
      /\ exists pre d post,
           is_digit d = true /\ message = pre ++ lit "position " ++ d :: post
  | None =>
      ~ exists pre d post,
          is_digit d = true /\ message = pre ++ lit "position " ++ d :: post
  end.
Proof.
  unfold JSONParser.getErrorLine.
  pose proof (match_position_occurs message) as Hoccurs.
  destruct (match_position message) as [ds|].
  - split; [|by apply Hoccurs].
    unfold substring_to. rewrite !split_char_length.
    pose proof (count_occ_take text (parse_digits ds) newline). lia.
  - intros Hyes. by apply Hoccurs in Hyes.
Qed.

Lemma scan_next (str : jsstring) (pos : nat) (st : Scan) :
  fold_left (scan_step str) (seq 0 (S pos)) st
  = scan_step str (fold_left (scan_step str) (seq 0 pos) st) pos.
Proof. by rewrite seq_S, fold_left_app. Qed.

Lemma scan_quote_parity (str : jsstring) (pos : nat) :
  forallb (fun c => negb (c =? backslash)%N) (take pos str) = true ->
  let st := fold_left (scan_step str) (seq 0 pos)
              {| scan_inString := false; scan_inObject := 0; scan_inArray := 0;
                 scan_escaped := false |} in
  scan_escaped st = false
  /\ scan_inString st = Nat.odd (count_occ N.eq_dec (take pos str) dquote).
Proof.
  induction pos as [|pos IH]; intros Hfree; [by rewrite take_0|].
  cbv zeta. rewrite scan_next.
  destruct (str !! pos) as [c|] eqn:Hc.
  - rewrite (take_S_r _ _ _ Hc) in Hfree |- *.
    rewrite forallb_app in Hfree. apply andb_prop in Hfree as [Hfree Hlast].
    cbn [forallb] in Hlast. rewrite andb_true_r in Hlast.
    apply negb_true_iff in Hlast.
    destruct (IH Hfree) as [Hesc Hin].
    set (st := fold_left _ _ _) in *. clearbody st.
    rewrite count_occ_app. cbn [count_occ].
    unfold scan_step, char_at. rewrite Hesc, Hc. cbn [is_char]. rewrite Hlast.
    destruct (N.eqb_spec c dquote) as [->|Hq].
    + cbn [scan_escaped scan_inString]. split; [reflexivity|].
      destruct (N.eq_dec dquote dquote) as [_|Hne]; [|done].
      rewrite Hin, Nat.add_1_r, Nat.odd_succ, <- Nat.negb_odd. reflexivity.
    + destruct (N.eq_dec c dquote) as [Heq|_]; [done|]. rewrite Nat.add_0_r, <- Hin.
      destruct (scan_inString st) eqn:Hstr; cbn [negb].
      * by rewrite Hesc, Hstr.
      * repeat match goal with
               | |- context [(c =? ?x)%N] => destruct (c =? x)%N
               end; cbn [scan_escaped scan_inString]; by rewrite ?Hesc, ?Hstr.
  - assert (Hlen : length str <= pos) by (by apply lookup_ge_None).
    replace (take (S pos) str) with (take pos str) in Hfree |- *
      by (rewrite !take_ge by lia; reflexivity).
    destruct (IH Hfree) as [Hesc Hin].
    set (st := fold_left _ _ _) in *. clearbody st.
    unfold scan_step, char_at. rewrite Hesc, Hc. cbn [is_char]. rewrite <- Hin.
    destruct (scan_inString st) eqn:Hstr; cbn [negb]; by rewrite ?Hesc, ?Hstr.
Qed.

(** X23: where no backslash comes before an offset, the offset is inside
    a string exactly when an odd number of quotes comes before it. *)
Theorem getContext_counts_quotes (str : jsstring) (pos : nat) :
  forallb (fun c => negb (c =? backslash)%N) (take pos str) = true ->
  inString (getContext str pos)
  = Nat.odd (count_occ N.eq_dec (take pos str) dquote).
Proof.
  intros Hfree. unfold getContext. cbn [inString].
  exact (proj2 (scan_quote_parity str pos Hfree)).
Qed.

End Offsets.

Lemma offset_is_read_from_message_witness :
  let message :=
    located_message_start ++ lit "position " ++ decimal 17 ++ located_message_end in
  JSONRepair.parseError message
  = Some {| JSONRepair.position := 17;
            JSONRepair.expected := JSONRepair.match_expected message;
            JSONRepair.message := message |}
  /\ forall text,
       JSONParser.getErrorLine message text
       = Some (length (split_char newline (substring_to text 17))).
Proof.
  apply (offset_is_read_from_message located_message_start located_message_end 17);
    vm_compute; reflexivity.
Defined.

Lemma getContext_counts_quotes_witness :
  forallb (fun c => negb (c =? backslash)%N) (take 4 open_string_text) = true
  /\ JSONRepair.inString (JSONRepair.getContext open_string_text 4)
     = Nat.odd (count_occ N.eq_dec (take 4 open_string_text) dquote).
Proof.
  split; [reflexivity|].
  apply (getContext_counts_quotes open_string_text 4). reflexivity.
Defined.

(** ** The kinds of nodes *)
Section Kinds.
Import JSONParser.

Lemma fold_kinds {A} (f : A -> Stats -> Stats) (l : list A) :
  Forall (fun x => forall st,
            totalNodes (f x st) + (arrays st + objects st + primitives st + nulls st)
            = totalNodes st
              + (arrays (f x st) + objects (f x st) + primitives (f x st) + nulls (f x st))
            /\ (stats_maxDepth st <= maxDepth -> stats_maxDepth (f x st) <= maxDepth)) l ->
  forall st,
    totalNodes (fold_left (fun st x => f x st) l st)
      + (arrays st + objects st + primitives st + nulls st)
    = totalNodes st
      + (arrays (fold_left (fun st x => f x st) l st)
         + objects (fold_left (fun st x => f x st) l st)
         + primitives (fold_left (fun st x => f x st) l st)
         + nulls (fold_left (fun st x => f x st) l st))
    /\ (stats_maxDepth st <= maxDepth ->
        stats_maxDepth (fold_left (fun st x => f x st) l st) <= maxDepth).
Proof.
  induction 1 as [|x l Hx _ IH]; intros st; simpl; [split; [lia|auto]|].
  destruct (Hx st) as [H1 H2]. destruct (IH (f x st)) as [H3 H4].
  split; [lia|auto].
Qed.

Lemma traverse_kinds (v : JsonValue) :
  forall depth st,
    totalNodes (stats_traverse v depth st)
      + (arrays st + objects st + primitives st + nulls st)
    = totalNodes st
      + (arrays (stats_traverse v depth st) + objects (stats_traverse v depth st)
         + primitives (stats_traverse v depth st) + nulls (stats_traverse v depth st))
    /\ (stats_maxDepth st <= maxDepth ->
        stats_maxDepth (stats_traverse v depth st) <= maxDepth).
Proof.
  induction v as [| | | |items IH|props IH] using JsonValue_nested_ind; intros depth st;
    rewrite stats_traverse_unfold;
    destruct (Nat.ltb_spec maxDepth depth) as [Hlt|Hge];
    try (split; [lia|auto]); cbv zeta; try (simpl; split; lia).
  - destruct (fold_kinds (fun x st => stats_traverse x (depth + 1) st) items
                ltac:(eapply Forall_impl; [exact IH|]; intros x Hx st0; apply Hx)
                (count_array (count_node depth st))) as [H1 H2].
    simpl in H1, H2. split; [lia|]. intros Hd. apply H2. lia.
  - destruct (fold_kinds (fun kv st => stats_traverse (snd kv) (depth + 1) st) props
                ltac:(eapply Forall_impl; [exact IH|]; intros x Hx st0; apply Hx)
                (count_object (count_node depth st))) as [H1 H2].
    simpl in H1, H2. split; [lia|]. intros Hd. apply H2. lia.
Qed.

(** X24: every node that is counted is counted once by its kind, and the
    depth that is reported never passes the limit. *)
Theorem getStatistics_partitions_nodes (data : JsonValue) :
  totalNodes (getStatistics data)
  = arrays (getStatistics data) + objects (getStatistics data)
    + primitives (getStatistics data) + nulls (getStatistics data)
  /\ stats_maxDepth (getStatistics data) <= maxDepth.
Proof.
  unfold getStatistics.
  destruct (traverse_kinds data 0
              {| totalNodes := 0; stats_maxDepth := 0; arrays := 0; objects := 0;
                 primitives := 0; nulls := 0 |}) as [H1 H2].
  simpl in H1, H2. split; [lia|]. apply H2. unfold maxDepth. lia.
Qed.

End Kinds.

(** ** Blank input *)
Section Blank.
Import JSONParser.
Context `{Host}.

Lemma trim_start_blank (s : jsstring) :
  trim_start s = [] <-> forallb is_space s = true.
Proof.
  induction s as [|c s IH]; [done|].
  cbn [trim_start forallb]. destruct (is_space c); [exact IH|].
  split; discriminate.
Qed.

Lemma trim_start_head (s : jsstring) :
  match trim_start s with
  | c :: _ => is_space c = false
  | [] => True
  end.
Proof.
  induction s as [|c s IH]; [done|].
  cbn [trim_start]. destruct (is_space c) eqn:Hc; [exact IH|exact Hc].
Qed.

Lemma forallb_reverse {A} (f : A -> bool) (l : list A) :
  forallb f (reverse l) = forallb f l.
Proof.
  induction l as [|x l IH]; [reflexivity|].
  rewrite reverse_cons, forallb_app, IH. simpl. rewrite andb_true_r. apply andb_comm.
Qed.

Lemma trim_blank (s : jsstring) : trim s = [] <-> forallb is_space s = true.
Proof.
  unfold trim, trim_end. split.
  - intros Ht. apply (f_equal reverse) in Ht. rewrite reverse_involutive in Ht.
    change (reverse []) with (@nil N) in Ht.
    apply trim_start_blank in Ht. rewrite forallb_reverse in Ht.
    pose proof (trim_start_head s) as Hhead.
    destruct (trim_start s) as [|c t] eqn:Hs; [by apply trim_start_blank|].
    cbn [forallb] in Ht. rewrite Hhead in Ht. discriminate.
  - intros Hs. apply trim_start_blank in Hs. rewrite Hs. reflexivity.
Qed.

(** X25: a text is rejected as empty exactly when it is not the empty
    string and holds nothing but blanks, whatever the host's parser. *)
Theorem parse_rejects_blank_text (text : jsstring) :
  parse text = Rejected (lit "Empty JSON string")
  <-> text <> [] /\ forallb is_space text = true.
Proof.
  unfold parse, str_eqb. case_bool_decide as Ht.
  - subst text. split; [discriminate|]. by intros [Hne _].
  - rewrite <- trim_blank.
    destruct (trim text) as [|c t] eqn:Htrim; cbn [length Nat.eqb].
    + split; [done|reflexivity].
    + destruct (JSON_parse (c :: t)); split; try discriminate; by intros [_ Hnil].
Qed.

End Blank.

(** ** The columns of the grid *)
Section Columns.
Import TableVisualizer.

Lemma add_columns (keys : list jsstring) :
  forall columns,
    NoDup columns ->
    NoDup (fold_left add_column keys columns)
    /\ forall k, k ∈ fold_left add_column keys columns <-> k ∈ columns \/ k ∈ keys.
Proof.
  induction keys as [|key keys IH]; intros columns Hnd; simpl.
  - split; [exact Hnd|]. intros k. rewrite elem_of_nil. tauto.
  - assert (Hadd : NoDup (add_column columns key)
                   /\ forall k, k ∈ add_column columns key <-> k ∈ columns \/ k = key).
    { unfold add_column. case_bool_decide as Hin.
      - split; [exact Hnd|]. intros k. split; [tauto|]. by intros [Hk| ->].
      - split.
        + apply NoDup_app. split_and!; [exact Hnd| |apply NoDup_singleton].
          intros x Hx Hx'. apply list_elem_of_singleton in Hx'. by subst.
        + intros k. rewrite elem_of_app, list_elem_of_singleton. tauto. }
    destruct Hadd as [Hnd' Hmem]. destruct (IH _ Hnd') as [Hnd'' Hmem'].
    split; [exact Hnd''|]. intros k. rewrite Hmem', Hmem, elem_of_cons. tauto.
Qed.

Lemma columns_of_items (items : list JsonValue) :
  forall columns,
    NoDup columns ->
    let result :=
      fold_left
        (fun columnsSet item =>
           match item with
           | JArr _ | JObj _ => fold_left add_column (own_keys item) columnsSet
           | _ => columnsSet
           end) items columns in
    NoDup result
    /\ forall k, k ∈ result
         <-> k ∈ columns \/ exists item, item ∈ items /\ k ∈ own_keys item.
Proof.
  induction items as [|item items IH]; intros columns Hnd; cbv zeta; cbn [fold_left].
  - split; [exact Hnd|]. intros k. split; [tauto|].
    intros [Hk|(item & Hin & _)]; [exact Hk|by apply elem_of_nil in Hin].
  - assert (Hstep : NoDup (match item with
                           | JArr _ | JObj _ => fold_left add_column (own_keys item) columns
                           | _ => columns
                           end)
                    /\ forall k, k ∈ match item with
                                     | JArr _ | JObj _ =>
                                         fold_left add_column (own_keys item) columns
                                     | _ => columns
                                     end
                         <-> k ∈ columns \/ k ∈ own_keys item).
    { destruct item; try (split; [exact Hnd|]; intros k; cbn [own_keys];
                          rewrite elem_of_nil; tauto);
        by apply add_columns. }
    destruct Hstep as [Hnd' Hmem]. destruct (IH _ Hnd') as [Hnd'' Hmem'].
    split; [exact Hnd''|]. intros k. rewrite Hmem', Hmem. split.
    + intros [[Hk|Hk]|(x & Hx & Hk)]; [by left| |].
      * right. exists item. split; [apply list_elem_of_here|exact Hk].
      * right. exists x. split; [by apply list_elem_of_further|exact Hk].
    + intros [Hk|(x & Hx & Hk)]; [by left; left|].
      apply elem_of_cons in Hx as [->|Hx]; [by left; right|].
      right. by exists x.
Qed.

(** X26: the columns of the grid are the keys of the items, each once. *)
Theorem extractColumns_lists_each_key_once (data : JsonValue) :
  NoDup (extractColumns data)
  /\ forall k,
       k ∈ extractColumns data
       <-> exists item,
             item ∈ match data with
                    | JArr items => items
                    | _ => [data]
                    end
             /\ k ∈ own_keys item.
Proof.
  unfold extractColumns.
  destruct (columns_of_items
              match data with
              | JArr items => items
              | _ => [data]
              end [] (NoDup_nil_2)) as [Hnd Hmem].
  split; [exact Hnd|]. intros k. rewrite (Hmem k). split.
  - intros [Hk|Hk]; [by apply elem_of_nil in Hk|exact Hk].
  - intros Hk. by right.
Qed.

End Columns.

Lemma maxDepth_is_height_witness :
  height users_document <= 100
  /\ JSONParser.stats_maxDepth (JSONParser.getStatistics users_document)
     = height users_document.
Proof.
  split; [vm_compute; lia|].
  apply (maxDepth_is_height users_document). vm_compute. lia.
Defined.

(** ** The length of a repaired text *)
Section RepairLength.
Import JSONRepair.
Context `{Host}.

Lemma starts_with_length (pat s : jsstring) :
  starts_with pat s = true -> length pat <= length s.
Proof.
  intros [post ->]%starts_with_prefix. rewrite length_app. lia.
Qed.

Lemma literal_replace_shrinks (pat rep : jsstring) (s : jsstring) :
  length rep <= length pat ->
  length (replace_all (literal pat rep) 0 s) <= length s.
Proof.
  intros Hrep.
  assert (Hle : length s <= length s) by lia. revert Hle.
  generalize (length s) at 2. intros n. revert s.
  induction n as [|n IH]; intros [|c s] Hle; try (simpl; lia); [simpl in Hle; lia|].
  cbn [replace_all]. unfold literal at 1.
  destruct (starts_with pat (c :: s)) eqn:Hhere.
  - apply starts_with_length in Hhere. cbn [length] in Hhere.
    rewrite replace_all_skip, length_app.
    pose proof (IH (drop (length pat - 1) s)) as Hrest.
    rewrite length_drop in Hrest. specialize (Hrest ltac:(simpl in Hle; lia)).
    cbn [length]. lia.
  - cbn [length]. pose proof (IH s ltac:(simpl in Hle; lia)). lia.
Qed.

Lemma rewrite_shrinks (m : matcher) (describe : nat -> jsstring)
    (st : jsstring * list jsstring) :
  (forall s, length (replace_all m 0 s) <= length s) ->
  length (fst (rewrite m describe st)) <= length (fst st).
Proof.
  intros Hm. destruct st as [text log]. unfold rewrite.
  destruct (count_matches m 0 text); cbn [fst]; [lia|apply Hm].
Qed.

Lemma fixCommonPatterns_shrinks (text : jsstring) (log : list jsstring) :
  length (fst (fixCommonPatterns text log)) <= length text.
Proof.
  unfold fixCommonPatterns. cbv zeta.
  etransitivity; [apply rewrite_shrinks|].
  { intros s. rewrite trailing_commas_removed. apply without_trailing_commas_length. }
  etransitivity; [apply rewrite_shrinks|].
  { intros s. apply literal_replace_shrinks. vm_compute. lia. }
  etransitivity; [apply rewrite_shrinks|].
  { intros s. apply literal_replace_shrinks. vm_compute. lia. }
  etransitivity; [apply rewrite_shrinks|].
  { intros s. apply literal_replace_shrinks. vm_compute. lia. }
  reflexivity.
Qed.

Lemma attemptFix_adds_at_most_one (str : jsstring) (info : ErrorInfo) (r m : jsstring) :
  attemptFix str info = Fixed r m -> length r <= length str + 1.
Proof.
  unfold attemptFix, substring_to, substring_from.
  pose proof (take_drop (position info) str) as Hsplit.
  apply (f_equal length) in Hsplit. rewrite length_app in Hsplit.
  destruct (includes (message info) (lit "Expected ':'")
            || includes (message info) (lit "after property name")).
  { intros [= <- _]. rewrite !length_app. simpl. lia. }
  destruct (includes (message info) (lit "Expected ','")
            || includes (message info) (lit "after property value")).
  { intros [= <- _]. rewrite !length_app. simpl. lia. }
  destruct (includes (message info) (lit "Unexpected token")
            && ((0 <? position info)
                && bool_decide (char_at str (position info - 1)
                                = char_at str (position info)))).
  { intros [= <- _]. rewrite length_app, length_take, length_drop. lia. }
  destruct (is_char (char_at str (position info)) dquote
            && inString (getContext str (position info))) eqn:Hquote; [|discriminate].
  apply andb_prop in Hquote as [Hquote _].
  rewrite is_char_spec in Hquote. apply bool_decide_eq_true in Hquote.
  apply lookup_lt_Some in Hquote.
  intros [= <- _]. rewrite !length_app. cbn [length].
  rewrite length_take, length_drop. lia.
Qed.

Lemma structural_loop_length (k : nat) :
  forall st, length (result (structural_loop k st)) <= length (result st) + k.
Proof.
  induction k as [|k IH]; intros st; simpl; [lia|].
  destruct (JSON_parse (result st)) as [v|msg]; [lia|].
  destruct (parseError msg) as [info|]; [|lia].
  destruct (attemptFix (result st) info) as [r m|] eqn:Hfix; [|lia].
  apply attemptFix_adds_at_most_one in Hfix.
  etransitivity; [apply IH|]. cbn [result]. lia.
Qed.

(** X28: a repair never lengthens a text by more than ten code units:
    the patterns of the first phase only shorten it, and each of the at
    most ten edits of the second phase adds at most one. *)
Theorem repair_adds_at_most_ten (text : jsstring) :
  length (fst (fixCommonPatterns text [])) <= length text
  /\ length (repaired (repair text)) <= length (fst (fixCommonPatterns text [])) + 10
  /\ length (repaired (repair text)) <= length text + 10.
Proof.
  pose proof (fixCommonPatterns_shrinks text []) as Hphase.
  unfold repair, fixStructuralErrors, fixStructuralErrors_state.
  destruct (fixCommonPatterns text []) as [text1 log1]. cbn [fst repaired] in *.
  pose proof (structural_loop_length maxIterations
                {| result := text1; repairs := log1; iteration := 0 |}) as Hloop.
  cbn [result] in Hloop. unfold maxIterations in *. lia.
Qed.

End RepairLength.

(** ** The strategies of Phase B, for offsets in the text *)
Section Strategies.
Import JSONRepair.

Lemma open_string_escape (inside : bool) (walked : jsstring) :
  open_string inside (backslash :: walked) = open_string inside (drop 1 walked).
Proof. by destruct walked. Qed.

(** The loop of [getContext] from index [i] on, against the walk over
    the characters it reads. *)
Lemma scan_walks (str : jsstring) (n : nat) :
  forall (i : nat) (st : Scan),
    scan_inString (fold_left (scan_step str) (seq i n) st)
    = open_string (scan_inString st)
        (if scan_escaped st then drop 1 (take n (drop i str))
         else take n (drop i str)).
Proof.
  induction n as [|n IH]; intros i st.
  - cbn [seq fold_left]. rewrite take_0. by destruct (scan_escaped st).
  - cbn [seq fold_left]. rewrite IH. unfold scan_step, char_at.
    destruct (str !! i) as [c|] eqn:Hc.
    + rewrite (drop_S _ _ _ Hc). cbn [take drop is_char].
      destruct (scan_escaped st) eqn:He; [reflexivity|].
      destruct (c =? backslash)%N eqn:Hb.
      { apply N.eqb_eq in Hb as ->. cbn [scan_escaped scan_inString].
        by rewrite open_string_escape. }
      destruct (c =? dquote)%N eqn:Hq.
      { cbn [scan_escaped scan_inString open_string]. by rewrite Hb, Hq. }
      cbn [open_string]. rewrite Hb, Hq.
      destruct (scan_inString st) eqn:Hin; cbn [negb]; [by rewrite He, Hin|].
      destruct (c =? 123)%N; [reflexivity|].
      destruct (c =? 125)%N; [reflexivity|].
      destruct (c =? 91)%N; [reflexivity|].
      destruct (c =? 93)%N; [reflexivity|].
      by rewrite He, Hin.
    + apply lookup_ge_None in Hc.
      rewrite (drop_ge str i), (drop_ge str (S i)) by lia.
      cbn [is_char]. rewrite !take_nil.
      destruct (scan_escaped st) eqn:He; [reflexivity|].
      destruct (scan_inString st) eqn:Hin; cbn [negb]; by rewrite ?He, ?Hin.
Qed.

(** The scan of [getContext] tells what the walk of the specification
    tells. *)
Lemma getContext_inString (str : jsstring) (pos : nat) :
  inString (getContext str pos) = inside_open_string str pos.
Proof.
  unfold getContext, inside_open_string. cbn [inString].
  rewrite scan_walks. reflexivity.
Qed.

Lemma duplicate_test_repeats (str : jsstring) (pos : nat) :
  pos <= length str ->
  (0 <? pos) && bool_decide (char_at str (pos - 1) = char_at str pos)
  = repeats_previous str pos.
Proof.
  intros Hpos. unfold repeats_previous, char_at.
  destruct pos as [|p]; [reflexivity|].
  replace (S p - 1) with p by lia. cbn [Nat.ltb Nat.leb andb].
  destruct (str !! S p) as [c|] eqn:Hc; [reflexivity|].
  apply lookup_ge_None in Hc.
  destruct (str !! p) as [b|] eqn:Hb; [by case_bool_decide|].
  apply lookup_ge_None in Hb. lia.
Qed.

(** X29: for every text and every error report whose offset lies in the
    text, [attemptFix] takes the first strategy that matches, in the
    order missing colon, missing comma, duplicate adjacent character,
    unescaped quote inside an open string, and its result is the text
    with one character put at the offset (a colon, a comma, or a
    backslash before the quote there) or with the character at the
    offset taken out, all other characters unchanged. *)
Theorem attemptFix_follows_strategies (str : jsstring) (info : ErrorInfo) :
  position info <= length str ->
  match attemptFix str info,
        spec_strategy (diagnosis (message info)) str (position info) with
  | Fixed r _, Some e => applies e (position info) str r
  | NotFixed, None => True
  | _, _ => False
  end.
Proof.
  intros Hpos. unfold attemptFix, spec_strategy, diagnosis.
  cbn [missing_colon missing_comma unexpected_token].
  rewrite duplicate_test_repeats by exact Hpos.
  rewrite getContext_inString, is_char_spec.
  unfold char_at, substring_to, substring_from.
  destruct (includes (message info) (lit "Expected ':'")
            || includes (message info) (lit "after property name")).
  { simpl. by apply insert_is_inserted. }
  destruct (includes (message info) (lit "Expected ','")
            || includes (message info) (lit "after property value")).
  { simpl. by apply insert_is_inserted. }
  destruct (includes (message info) (lit "Unexpected token")
            && repeats_previous str (position info)) eqn:Hdup.
  { simpl. apply remove_is_deleted.
    apply andb_prop in Hdup as [_ Hdup]. unfold repeats_previous in Hdup.
    destruct (position info) as [|p]; [discriminate|].
    destruct (str !! S p) as [c|] eqn:Hc; [|discriminate].
    by apply lookup_lt_Some in Hc. }
  destruct (bool_decide (str !! position info = Some dquote)
            && inside_open_string str (position info)) eqn:Hq; [|exact I].
  apply andb_prop in Hq as [Hq _]. apply bool_decide_eq_true in Hq.
  simpl. split; [exact Hq|].
  replace (position info + 1) with (S (position info)) by lia.
  rewrite <- (drop_S _ _ _ Hq). by apply insert_is_inserted.
Qed.
End Strategies.

Lemma attemptFix_follows_strategies_witness :
  JSONRepair.position quote_in_string_report <= length quote_in_string_text
  /\ match JSONRepair.attemptFix quote_in_string_text quote_in_string_report,
           spec_strategy (diagnosis (JSONRepair.message quote_in_string_report))
             quote_in_string_text (JSONRepair.position quote_in_string_report) with
     | JSONRepair.Fixed r _, Some e =>
         applies e (JSONRepair.position quote_in_string_report) quote_in_string_text r
     | JSONRepair.NotFixed, None => True
     | _, _ => False
     end.
Proof.
  assert (Hpos : JSONRepair.position quote_in_string_report
                 <= length quote_in_string_text) by (vm_compute; lia).
  split; [exact Hpos|].
  exact (attemptFix_follows_strategies quote_in_string_text quote_in_string_report Hpos).
Defined.

(** ** A failure on a text that starts with blanks *)
Section FailureLine.
Import JSONParser.

(** C7: on a text that starts with an empty line and breaks at the start
    of its third line, [parse] hands the trimmed text to the host, which
    stops at offset 3 of the trimmed text, offset 4 of the text; the
    line is then counted in the untrimmed text up to offset 3 and comes
    out as 2, where the failure is at line 3, column 1; and the outcome
    holds no column.  This holds with every host whose message gives
    that offset after the word [position]. *)
Theorem parse_failure_misplaces_line :
  trim shifted_lines = drop 1 shifted_lines
  /\ @JSON_parse RefHost.host (trim shifted_lines)
     = Thrown (lit "Expected ',' or ']' after array element in JSON at position 3")
  /\ shifted_lines !! 4 = Some 50%N
  /\ (line_of shifted_lines 4, column_of shifted_lines 4) = (3, 1)
  /\ @parse RefHost.host shifted_lines
     = Failed (lit "Parse error: Expected ',' or ']' after array element in JSON at position 3")
         (Some 2)
  /\ ~ In "column"%string (property_names (@parse RefHost.host shifted_lines))
  /\ forall (host : Host) (pre post : jsstring),
       includes pre (lit "position ") = false ->
       digit_run post = [] ->
       @JSON_parse host (trim shifted_lines) = Thrown (pre ++ lit "position 3" ++ post) ->
       @parse host shifted_lines
       = Failed (lit "Parse error: " ++ pre ++ lit "position 3" ++ post) (Some 2).
Proof.
  split; [vm_compute; reflexivity|].
  split; [vm_compute; reflexivity|].
  split; [vm_compute; reflexivity|].
  split; [vm_compute; reflexivity|].
  split; [vm_compute; reflexivity|].
  split; [vm_compute; intros [Hc|[Hc|[Hc|[]]]]; discriminate Hc|].
  intros host pre post Hpre Hpost Hfail.
  assert (Hfound : match_position (pre ++ lit "position 3" ++ post) = Some (lit "3")).
  { change (lit "position 3" ++ post) with (lit "position " ++ lit "3" ++ post).
    by apply match_position_found. }
  unfold parse.
  replace (str_eqb shifted_lines []) with false by (vm_compute; reflexivity).
  replace (length (trim shifted_lines) =? 0) with false by (vm_compute; reflexivity).
  cbv zeta. rewrite Hfail. unfold getErrorLine. rewrite Hfound.
  f_equal.
Qed.
End FailureLine.

(** ** A report whose offset lies beyond the text *)
Section BeyondText.
Import JSONRepair.

(** A round of the loop that changes nothing is repeated until the
    rounds are used up. *)
Lemma structural_loop_stuck `{Host} (text msg entry : jsstring) (info : ErrorInfo) :
  JSON_parse text = Thrown msg ->
  parseError msg = Some info ->
  attemptFix text info = Fixed text entry ->
  forall (k : nat) (log : list jsstring) (i : nat),
    structural_loop k {| result := text; repairs := log; iteration := i |}
    = {| result := text; repairs := log ++ replicate k entry; iteration := i + k |}.
Proof.
  intros Hparse Hinfo Hfix. induction k as [|k IH]; intros log i.
  - cbn [structural_loop replicate]. by rewrite app_nil_r, Nat.add_0_r.
  - cbn [structural_loop result repairs iteration]. rewrite Hparse, Hinfo, Hfix, IH.
    cbn [replicate]. rewrite <- app_assoc. f_equal. lia.
Qed.

(** C4: a host that quotes the text it rejects gives, for a text of 17
    characters whose key spells an offset, a message from which
    [parseError] reads the offset 99.  [attemptFix] then takes the
    duplicate-character strategy, because the two characters it compares
    are both absent, reports a removal and returns the text as it was: no
    character was inserted or deleted at the offset.  [repair] logs that
    removal ten times and returns the text unchanged. *)
Theorem attemptFix_reports_removal_beyond_text :
  length quoted_offset_text = 17
  /\ parseError quoted_offset_message = Some quoted_offset_report
  /\ attemptFix quoted_offset_text quoted_offset_report
     = Fixed quoted_offset_text (lit "Removed duplicate 'undefined' at position 99")
  /\ (forall e, ~ applies e 99 quoted_offset_text quoted_offset_text)
  /\ forall host : Host,
       @JSON_parse host quoted_offset_text = Thrown quoted_offset_message ->
       @repair host quoted_offset_text
       = {| repaired := quoted_offset_text;
            outcome_repairs :=
              replicate 10 (lit "Removed duplicate 'undefined' at position 99") |}.
Proof.
  assert (Hinfo : parseError quoted_offset_message = Some quoted_offset_report)
    by (vm_compute; reflexivity).
  assert (Hfix : attemptFix quoted_offset_text quoted_offset_report
                 = Fixed quoted_offset_text
                     (lit "Removed duplicate 'undefined' at position 99"))
    by (vm_compute; reflexivity).
  split; [reflexivity|]. split; [exact Hinfo|]. split; [exact Hfix|]. split.
  - intros [c| |]; unfold applies, inserted, deleted.
    + intros (Hlen & _). vm_compute in Hlen. discriminate Hlen.
    + intros (Hin & _). vm_compute in Hin. lia.
    + intros (Hquote & _). vm_compute in Hquote. discriminate Hquote.
  - intros host Hparse. unfold repair.
    replace (fixCommonPatterns quoted_offset_text [])
      with (quoted_offset_text, @nil jsstring) by (vm_compute; reflexivity).
    unfold fixStructuralErrors, fixStructuralErrors_state, maxIterations.
    rewrite (structural_loop_stuck _ _ _ _ Hparse Hinfo Hfix). reflexivity.
Qed.
End BeyondText.
